(** * Portfolio script (js/main.js): a shallow embedding and its properties

    The script is one IIFE holding a handful of singleton objects.  The
    embedding follows that layout, one Rocq module per object:

    - [Js]: the few pieces of the JavaScript run time the script relies on
      (completions of [try]/[catch], truthiness, numbers as the doubles
      the script computes, substring search used to inspect markup);
    - [Decoder]: [decode] and the platform's [atob];
    - [RoleRotation]: the typewriter, as an event loop over timers,
      promise continuations and animation frames;
    - [ScrollAnimations]: the intersection handler and the timeline fill;
    - [DataLoader]: the two content feeds and their renderers;
    - [ClassList], [Throttle], [Debounce]: class lists and the two rate
      limiters;
    - [Header], [MobileNav], [LanguageToggle], [ActiveNavLink],
      [PageLoader]: the smaller objects, each with the part of the page
      it works on.

    Strings of markup are Rocq strings; a JavaScript string handed to
    [atob] is a list of UTF-16 code units. *)

From Stdlib Require Import String Ascii List NArith ZArith QArith Qround Qpower.
From Stdlib Require Import Lia Lqa Bool Sorted.
From Stdlib Require Floats.
From stdpp Require Import gmap list strings.
Import ListNotations.

(* ================================================================== *)
(** * The JavaScript run time, as far as the script uses it *)
(* ================================================================== *)

Module Js.
Local Open Scope string_scope.

(** An exception value: the [message] of an [Error]. *)
Record Error := mkError { message : string }.

(** Outcome of evaluating a statement or call: it returns or throws. *)
Inductive Completion (A : Type) : Type :=
| Normal (a : A)
| Throw (e : Error).
Arguments Normal {A} a.
Arguments Throw {A} e.

(** [try { body } catch (e) { handler(e) }] on computations without state. *)
Definition catch {A} (body : Completion A) (handler : Error -> Completion A)
  : Completion A :=
  match body with
  | Normal a => Normal a
  | Throw e => handler e
  end.

(** Truthiness of an optional string: [null], [undefined] and the empty
    string are falsy, every other string is truthy. *)
Definition truthy (v : option string) : bool :=
  match v with
  | Some s => negb (String.eqb s "")
  | None => false
  end.

(** The text interpolated for a possibly absent string. *)
Definition text_of (v : option string) : string :=
  match v with
  | Some s => s
  | None => "undefined"
  end.

(** [array.join('')] on an array of strings. *)
Definition join (parts : list string) : string := String.concat "" parts.

(** The double quote character. *)
Definition dquote : ascii := ascii_of_nat 34.

(** Markup literals of the script are written here with single quotes
    where the source has double quotes; [lit] puts the double quotes
    back.  No markup literal of the script contains a single quote. *)
Fixpoint lit (s : string) : string :=
  match s with
  | EmptyString => EmptyString
  | String c s' =>
      String (if Ascii.eqb c "'"%char then dquote else c) (lit s')
  end.

(** Substring search, used only to inspect rendered markup. *)
Fixpoint occurs_at (needle hay : string) : bool :=
  match needle, hay with
  | EmptyString, _ => true
  | String _ _, EmptyString => false
  | String a n', String b h' => Ascii.eqb a b && occurs_at n' h'
  end.

Fixpoint occurs (needle hay : string) : bool :=
  occurs_at needle hay ||
  match hay with
  | EmptyString => false
  | String _ h' => occurs needle h'
  end.

Fixpoint count_occurrences (needle hay : string) : nat :=
  (if occurs_at needle hay then 1 else 0) +
  match hay with
  | EmptyString => 0
  | String _ h' => count_occurrences needle h'
  end.

(** Position of the first occurrence ([indexOf]), if any. *)
Fixpoint index_of (needle hay : string) : option nat :=
  if occurs_at needle hay then Some 0
  else match hay with
       | EmptyString => None
       | String _ h' => option_map S (index_of needle h')
       end.

(** A number is a double: [NaN], [Infinity], or a finite double, which is
    kept as the rational it stands for.  The script only divides and
    multiplies non-negative counts, so there are no negative numbers and
    no negative zero here. *)
Inductive number :=
| Num (q : Q)
| NaN
| Infinity.

Definition pow2 (z : Z) : Q := (2 ^ z)%Q.

(** The binade of a positive rational: the [e] with
    [2^e <= q < 2^(e+1)]. *)
Definition ilog2 (q : Q) : Z :=
  let e := (Z.log2 (Qnum q) - Z.log2 (Zpos (Qden q)))%Z in
  if Qle_bool (pow2 e) q then e else (e - 1)%Z.

(** The nearest integer, the even one of the two when they are equally
    near. *)
Definition ties_to_even (x : Q) : Z :=
  let f := Qfloor x in
  match (x - inject_Z f ?= 1 # 2)%Q with
  | Lt => f
  | Gt => (f + 1)%Z
  | Eq => if Z.even f then f else (f + 1)%Z
  end.

(** The multiple of the unit in the last place of [q] (53 bits of
    precision, exponents from -1074 up) that is nearest to [q]. *)
Definition rounded (q : Q) : Q :=
  let u := Z.max (ilog2 q - 52) (-1074) in
  (inject_Z (ties_to_even (q / pow2 u)) * pow2 u)%Q.

(** The result of an operation whose exact result is [q], not negative:
    the nearest double, or [Infinity] beyond the largest one. *)
Definition round (q : Q) : number :=
  if Qle_bool q 0 then Num 0
  else if Qle_bool (pow2 1024) (rounded q) then Infinity
  else Num (Qred (rounded q)).

(** [a / b] on two counts; counts are lengths, which are doubles as they
    are. *)
Definition div (a b : nat) : number :=
  match b, a with
  | O, O => NaN
  | O, S _ => Infinity
  | S _, _ => round (Z.of_nat a # Pos.of_nat b)
  end.

(** [x * k] for a count [k]. *)
Definition mul (x : number) (k : nat) : number :=
  match x with
  | Num q => round (q * inject_Z (Z.of_nat k))%Q
  | NaN => NaN
  | Infinity => match k with O => NaN | S _ => Infinity end
  end.

(** The same two operations on the doubles of the proof assistant's
    kernel, which are the doubles of IEEE 754, read back as rationals;
    used only to compare [div] and [mul] with them. *)
Definition double_of_nat (n : nat) : PrimFloat.float :=
  PrimFloat.of_uint63 (Uint63.of_Z (Z.of_nat n)).

Definition number_of_double (f : PrimFloat.float) : number :=
  match FloatOps.Prim2SF f with
  | SpecFloat.S754_zero _ => Num 0
  | SpecFloat.S754_finite false m e => Num (Qred (inject_Z (Zpos m) * pow2 e))
  | SpecFloat.S754_finite true m e => Num (Qred (- (inject_Z (Zpos m) * pow2 e)))
  | SpecFloat.S754_infinity _ => Infinity
  | SpecFloat.S754_nan => NaN
  end.

Definition same_number (x y : number) : bool :=
  match x, y with
  | Num p, Num q => Qeq_bool p q
  | NaN, NaN => true
  | Infinity, Infinity => true
  | _, _ => false
  end.

End Js.

(* ================================================================== *)
(** * Decoder: [decode] and [atob] *)
(* ================================================================== *)

Module Decoder.
Import Js.
Local Open Scope list_scope.

(** A JavaScript string: its UTF-16 code units. *)
Definition jsstring := list N.

Definition code_units (s : string) : jsstring :=
  map N_of_ascii (list_ascii_of_string s).

(** [atob] is the platform's forgiving Base64 decoder.  Its steps:
    drop ASCII whitespace; when the length is a multiple of four drop
    one or two trailing [=]; fail on a length that is 1 modulo 4; fail on
    a code unit outside the alphabet; then read six bits per code unit
    and emit a byte per eight bits, dropping the left-over bits. *)

Definition is_ascii_whitespace (c : N) : bool :=
  ((c =? 9) || (c =? 10) || (c =? 12) || (c =? 13) || (c =? 32))%N.

Definition pad : N := 61.

(** Position of a code unit in the Base64 alphabet. *)
Definition sextet (c : N) : option N :=
  if ((65 <=? c) && (c <=? 90))%N then Some (c - 65)%N
  else if ((97 <=? c) && (c <=? 122))%N then Some (c - 71)%N
  else if ((48 <=? c) && (c <=? 57))%N then Some (c + 4)%N
  else if (c =? 43)%N then Some 62%N
  else if (c =? 47)%N then Some 63%N
  else None.

Definition strip_whitespace (s : jsstring) : jsstring :=
  List.filter (fun c => negb (is_ascii_whitespace c)) s.

(** Remove one or two trailing [=] (taken on the reversed string). *)
Definition drop_padding_rev (r : jsstring) : jsstring :=
  match r with
  | c1 :: c2 :: r' =>
      if (c1 =? pad)%N then (if (c2 =? pad)%N then r' else c2 :: r') else r
  | [c1] => if (c1 =? pad)%N then [] else r
  | [] => []
  end.

Definition strip_padding (s : jsstring) : jsstring :=
  if Nat.eqb (length s mod 4) 0 then rev (drop_padding_rev (rev s)) else s.

(** The sextets of a string; [None] at the first code unit outside the
    alphabet. *)
Fixpoint sextets (s : jsstring) : option (list N) :=
  match s with
  | [] => Some []
  | c :: s' =>
      match sextet c, sextets s' with
      | Some v, Some vs => Some (v :: vs)
      | _, _ => None
      end
  end.

Definition byte_of (n : N) (shift : N) : N := N.land (N.shiftr n shift) 255.

(** Four sextets make three bytes; a final group of three makes two
    bytes and a final group of two makes one. *)
Fixpoint bytes_of_sextets (vs : list N) : list N :=
  match vs with
  | a :: b :: c :: d :: rest =>
      let n := N.lor (N.lor (N.lor (N.shiftl a 18) (N.shiftl b 12))
                            (N.shiftl c 6)) d in
      byte_of n 16 :: byte_of n 8 :: byte_of n 0 :: bytes_of_sextets rest
  | [a; b; c] =>
      let n := N.lor (N.lor (N.shiftl a 10) (N.shiftl b 4)) (N.shiftr c 2) in
      [byte_of n 8; byte_of n 0]
  | [a; b] =>
      let n := N.lor (N.shiftl a 2) (N.shiftr b 4) in
      [byte_of n 0]
  | _ => []
  end.

Definition InvalidCharacterError : Error :=
  mkError "The string to be decoded is not correctly encoded."%string.

Definition atob (str : jsstring) : Completion jsstring :=
  let data := strip_padding (strip_whitespace str) in
  if Nat.eqb (length data mod 4) 1 then Throw InvalidCharacterError
  else match sextets data with
       | None => Throw InvalidCharacterError
       | Some vs => Normal (bytes_of_sextets vs)
       end.

(** [decode]: [try { return atob(str); } catch (e) { return str; }]. *)
Definition decode_completion (str : jsstring) : Completion jsstring :=
  catch (atob str) (fun _ => Normal str).

(** The string [decode] returns; the second branch is never taken (see
    [decode_completion_normal] below). *)
Definition decode (str : jsstring) : jsstring :=
  match decode_completion str with
  | Normal r => r
  | Throw _ => str
  end.

(** The obfuscated contact data. *)
Record Contact := {
  name : jsstring; street : jsstring; city : jsstring;
  country : jsstring; email : jsstring; phone : jsstring
}.

Definition CONTACT : Contact := {|
  name := code_units "U2ViYXN0aWFuIEdlcmtlbg=="%string;
  street := code_units "TmV1ZXIgV2VnIDI5"%string;
  city := code_units "Njk0MTIgRWJlcmJhY2g="%string;
  country := code_units "RGV1dHNjaGxhbmQ="%string;
  email := code_units "c2ViYXN0aWFuLWdlcmtlbkBob3RtYWlsLmNvbQ=="%string;
  phone := code_units "KzQ5IDE3NiAzNDIwODgyMw=="%string
|}.

(** The strings [atob] reads as Base64, stated on the text and not on the
    decoder: once whitespace is set aside, the string is a run of alphabet
    characters followed by the padding that its length calls for, where
    the padding may also be left out altogether. *)
Definition in_alphabet (c : N) : Prop := sextet c <> None.

Definition valid_base64 (s : jsstring) : Prop :=
  exists body padding,
    strip_whitespace s = body ++ padding /\
    Forall in_alphabet body /\
    ((padding = [] /\ length body mod 4 <> 1) \/
     (padding = [pad] /\ length body mod 4 = 3) \/
     (padding = [pad; pad] /\ length body mod 4 = 2)).

(** Well-formed Base64 text (RFC 4648, section 4), which is what an
    encoder writes: groups of four characters, all of the alphabet but for
    one or two [=] that may close the last group.  No whitespace, and the
    padding is not optional. *)
Definition encoded_base64 (s : jsstring) : Prop :=
  exists body padding,
    s = body ++ padding /\
    Forall in_alphabet body /\
    length s mod 4 = 0 /\
    (padding = [] \/ padding = [pad] \/ padding = [pad; pad]).

End Decoder.


(* ================================================================== *)
(** * RoleRotation: the typewriter *)
(* ================================================================== *)

Module RoleRotation.
Import Js.
Local Open Scope string_scope.

(** ** Configuration *)

Record Role := { title : string; tags : list string }.

Record Config := {
  roles : list Role;
  typeSpeed : nat;
  deleteSpeed : nat;
  pauseBetweenRoles : nat;
  scrollThreshold : Q;
  parallaxStrength : Q
}.

Definition CONFIG : Config := {|
  roles := [
    {| title := "Traffic Engineer";
       tags := ["Traffic Flow"; "Signal Timing"; "Safety Analysis"; "Simulation"] |};
    {| title := "Computer Vision Specialist";
       tags := ["OpenCV"; "YOLO"; "Object Tracking"; "Calibration"] |};
    {| title := "GeoSpatial Data Scientist";
       tags := ["QGIS"; "Spatial Analysis"; "Mapping"; "GeoPandas"] |};
    {| title := "Software Developer";
       tags := ["Python"; "R"; "Agentic Coding"; "Data Pipelines"] |}
  ];
  typeSpeed := 70;
  deleteSpeed := 35;
  pauseBetweenRoles := 2500;
  scrollThreshold := 15 # 100;
  parallaxStrength := 3 # 10
|}.

(** ** The state the rotation works on *)

(** A [<span>] in the tag container: its class tokens, its text and the
    two inline styles [clearTags] sets. *)
Record Span := {
  classList : list string;
  textContent : string;
  opacity : option string;
  transform : option string
}.

Definition contains (token : string) (span : Span) : bool :=
  existsb (String.eqb token) (classList span).

(** [classList.add]: an ordered set of tokens. *)
Definition classList_add (token : string) (span : Span) : Span :=
  if contains token span then span
  else {| classList := classList span ++ [token];
          textContent := textContent span;
          opacity := opacity span;
          transform := transform span |}.

(** The phases of one turn of the rotation, each the run of one method:
    [typing] is [typeText], [tagging] is [showTags], [pausing] is [wait] and
    [deleting] is [deleteText]. *)
Inductive Phase := typing | tagging | pausing | deleting.

(** What is recorded of a run: a method is called, it performs one unit of
    its work (a character typed or erased, a tag appended), its promise is
    resolved. *)
Inductive Event :=
| Begin (p : Phase)
| Tick (p : Phase)
| End (p : Phase).

(** Who is waiting on a promise: nobody, or [typeRole] suspended at one of
    its four [await]s (the first one keeps the local [role]). *)
Inductive Kont :=
| detached
| after_typeText (role : Role)
| after_showTags
| after_wait
| after_deleteText.

(** The closures handed to [setTimeout], with what they capture. *)
Inductive Callback :=
| type_cb (text : string) (i : nat) (resolve : Kont)
| deleteChar_cb (resolve : Kont)
| tag_cb (tag : string) (index count : nat) (resolve : Kont)
| resolve_cb (resolve : Kont).

(** [currentRoleIndex] and [roleAnimationId] are the fields of [state] the
    rotation uses; [roleText] is [DOM.roleText.textContent] and
    [tagsContainer] the children of [DOM.tagsContainer].  The rest is the
    event loop: the clock, the timers ordered by due time, the promise
    continuations ready to run, the animation frames requested (their
    callback is always [typeRole]), and the record of the run. *)
Record State := {
  currentRoleIndex : nat;
  roleAnimationId : option nat;
  roleText : string;
  tagsContainer : list Span;
  now : nat;
  timers : list (nat * Callback);
  microtasks : list Kont;
  frames : list nat;
  nextId : nat;
  log : list Event
}.

Definition initial_state : State := {|
  currentRoleIndex := 0;
  roleAnimationId := None;
  roleText := "";
  tagsContainer := [];
  now := 0;
  timers := [];
  microtasks := [];
  frames := [];
  nextId := 1;
  log := []
|}.

Definition set_roleText (text : string) (st : State) : State :=
  {| currentRoleIndex := currentRoleIndex st;
     roleAnimationId := roleAnimationId st;
     roleText := text;
     tagsContainer := tagsContainer st;
     now := now st; timers := timers st; microtasks := microtasks st;
     frames := frames st; nextId := nextId st; log := log st |}.

Definition set_tagsContainer (children : list Span) (st : State) : State :=
  {| currentRoleIndex := currentRoleIndex st;
     roleAnimationId := roleAnimationId st;
     roleText := roleText st;
     tagsContainer := children;
     now := now st; timers := timers st; microtasks := microtasks st;
     frames := frames st; nextId := nextId st; log := log st |}.

Definition set_timers (q : list (nat * Callback)) (st : State) : State :=
  {| currentRoleIndex := currentRoleIndex st;
     roleAnimationId := roleAnimationId st;
     roleText := roleText st;
     tagsContainer := tagsContainer st;
     now := now st; timers := q; microtasks := microtasks st;
     frames := frames st; nextId := nextId st; log := log st |}.

Definition set_microtasks (q : list Kont) (st : State) : State :=
  {| currentRoleIndex := currentRoleIndex st;
     roleAnimationId := roleAnimationId st;
     roleText := roleText st;
     tagsContainer := tagsContainer st;
     now := now st; timers := timers st; microtasks := q;
     frames := frames st; nextId := nextId st; log := log st |}.

Definition set_now (t : nat) (st : State) : State :=
  {| currentRoleIndex := currentRoleIndex st;
     roleAnimationId := roleAnimationId st;
     roleText := roleText st;
     tagsContainer := tagsContainer st;
     now := t; timers := timers st; microtasks := microtasks st;
     frames := frames st; nextId := nextId st; log := log st |}.

Definition set_frames (fs : list nat) (st : State) : State :=
  {| currentRoleIndex := currentRoleIndex st;
     roleAnimationId := roleAnimationId st;
     roleText := roleText st;
     tagsContainer := tagsContainer st;
     now := now st; timers := timers st; microtasks := microtasks st;
     frames := fs; nextId := nextId st; log := log st |}.

Definition set_currentRoleIndex (i : nat) (st : State) : State :=
  {| currentRoleIndex := i;
     roleAnimationId := roleAnimationId st;
     roleText := roleText st;
     tagsContainer := tagsContainer st;
     now := now st; timers := timers st; microtasks := microtasks st;
     frames := frames st; nextId := nextId st; log := log st |}.

Definition record (e : Event) (st : State) : State :=
  {| currentRoleIndex := currentRoleIndex st;
     roleAnimationId := roleAnimationId st;
     roleText := roleText st;
     tagsContainer := tagsContainer st;
     now := now st; timers := timers st; microtasks := microtasks st;
     frames := frames st; nextId := nextId st; log := log st ++ [e] |}.

(** ** Scheduling *)

(** Timers fire by due time, and in the order they were set when due at the
    same time: a new timer goes behind every timer due no later. *)
Fixpoint enqueue (due : nat) (cb : Callback) (q : list (nat * Callback))
  : list (nat * Callback) :=
  match q with
  | [] => [(due, cb)]
  | (d, c) :: q' =>
      if Nat.ltb due d then (due, cb) :: q else (d, c) :: enqueue due cb q'
  end.

Definition setTimeout (cb : Callback) (delay : nat) (st : State) : State :=
  set_timers (enqueue (now st + delay) cb (timers st)) st.

(** Resolving a promise makes the function awaiting it ready to run. *)
Definition resolve (k : Kont) (st : State) : State :=
  match k with
  | detached => st
  | _ => set_microtasks (microtasks st ++ [k]) st
  end.

(** [requestAnimationFrame(() => this.typeRole())], whose handle is kept in
    [state.roleAnimationId]. *)
Definition requestAnimationFrame (st : State) : State :=
  {| currentRoleIndex := currentRoleIndex st;
     roleAnimationId := Some (nextId st);
     roleText := roleText st;
     tagsContainer := tagsContainer st;
     now := now st; timers := timers st; microtasks := microtasks st;
     frames := frames st ++ [nextId st];
     nextId := S (nextId st); log := log st |}.

(** ** The methods of [RoleRotation] *)

(** [text.charAt(i)] *)
Definition charAt (i : nat) (text : string) : string :=
  match String.get i text with
  | Some c => String c EmptyString
  | None => ""
  end.

(** [text.slice(0, -1)] *)
Definition slice_last (text : string) : string :=
  substring 0 (String.length text - 1) text.

Section WithConfig.
Variable cfg : Config.

(** The closure [type] of [typeText], at its captured index [i]. *)
Definition type (text : string) (i : nat) (k : Kont) (st : State) : State :=
  if Nat.ltb i (String.length text)
  then setTimeout (type_cb text (S i) k) (typeSpeed cfg)
         (record (Tick typing) (set_roleText (roleText st ++ charAt i text) st))
  else resolve k (record (End typing) st).

Definition typeText (text : string) (k : Kont) (st : State) : State :=
  type text 0 k (set_roleText "" (record (Begin typing) st)).

(** The closure [deleteChar] of [deleteText]. *)
Definition deleteChar (k : Kont) (st : State) : State :=
  let text := roleText st in
  if Nat.ltb 0 (String.length text)
  then setTimeout (deleteChar_cb k) (deleteSpeed cfg)
         (record (Tick deleting) (set_roleText (slice_last text) st))
  else resolve k (record (End deleting) st).

Definition deleteText (k : Kont) (st : State) : State :=
  deleteChar k (record (Begin deleting) st).

(** The [<span>] built for the tag at [index]. *)
Definition tagSpan (tag : string) (index : nat) : Span :=
  let span := {| classList := ["tag"]; textContent := tag;
                 opacity := None; transform := None |} in
  if Nat.eqb index 0 then classList_add "tag--highlight" span else span.

(** The timer callback of [showTags] for the tag at [index]. *)
Definition appendTag (tag : string) (index count : nat) (k : Kont) (st : State)
  : State :=
  let st := record (Tick tagging)
              (set_tagsContainer (tagsContainer st ++ [tagSpan tag index]) st) in
  if Nat.eqb index (count - 1) then resolve k (record (End tagging) st) else st.

(** [tags.forEach((tag, index) => setTimeout(..., index * 100))] *)
Fixpoint forEach_tag (tags : list string) (index count : nat) (k : Kont)
    (st : State) : State :=
  match tags with
  | [] => st
  | tag :: rest =>
      forEach_tag rest (S index) count k
        (setTimeout (tag_cb tag index count k) (index * 100) st)
  end.

Definition showTags (tags : list string) (k : Kont) (st : State) : State :=
  let st := set_tagsContainer [] (record (Begin tagging) st) in
  if Nat.eqb (length tags) 0 then resolve k (record (End tagging) st)
  else forEach_tag tags 0 (length tags) k st.

Definition clearTags (st : State) : State :=
  set_tagsContainer
    (map (fun span =>
            if contains "tag" span
            then {| classList := classList span;
                    textContent := textContent span;
                    opacity := Some "0";
                    transform := Some "scale(0.8)" |}
            else span)
         (tagsContainer st))
    st.

Definition wait (ms : nat) (k : Kont) (st : State) : State :=
  setTimeout (resolve_cb k) ms (record (Begin pausing) st).

(** [typeRole] up to its first [await].  With no role at the current index
    the function fails on [role.title], after [clearTags], and nothing is
    scheduled. *)
Definition typeRole (st : State) : State :=
  match nth_error (roles cfg) (currentRoleIndex st) with
  | None => clearTags st
  | Some role => typeText (title role) (after_typeText role) (clearTags st)
  end.

(** [typeRole] from each [await] to the next. *)
Definition resume (k : Kont) (st : State) : State :=
  match k with
  | detached => st
  | after_typeText role => showTags (tags role) after_showTags st
  | after_showTags => wait (pauseBetweenRoles cfg) after_wait st
  | after_wait => deleteText after_deleteText st
  | after_deleteText =>
      requestAnimationFrame
        (set_currentRoleIndex
           ((currentRoleIndex st + 1) mod length (roles cfg)) st)
  end.

Definition showStaticRole (st : State) : State :=
  match nth_error (roles cfg) 0 with
  | None => st
  | Some role => showTags (tags role) detached (set_roleText (title role) st)
  end.

(** What [init] asks of the page: are the two elements there, and does the
    visitor prefer reduced motion. *)
Record Env := {
  hasRoleText : bool;
  hasTagsContainer : bool;
  prefersReducedMotion : bool
}.

Definition init (env : Env) (st : State) : State :=
  if negb (hasRoleText env) || negb (hasTagsContainer env) then st
  else if prefersReducedMotion env then showStaticRole st
  else typeRole st.

(** [cancelAnimationFrame(state.roleAnimationId)] *)
Definition destroy (st : State) : State :=
  match roleAnimationId st with
  | Some id => set_frames (List.filter (fun f => negb (Nat.eqb f id)) (frames st)) st
  | None => st
  end.

(** ** The event loop *)

Definition fire (cb : Callback) (st : State) : State :=
  match cb with
  | type_cb text i k => type text i k st
  | deleteChar_cb k => deleteChar k st
  | tag_cb tag index count k => appendTag tag index count k st
  | resolve_cb k => resolve k (record (End pausing) st)
  end.

(** One turn: a ready continuation if there is one, else the timer due
    first, else a requested animation frame; [None] when nothing is left to
    run. *)
Definition step (st : State) : option State :=
  match microtasks st with
  | k :: ks => Some (resume k (set_microtasks ks st))
  | [] =>
      match timers st with
      | (due, cb) :: q =>
          Some (fire cb (set_now (Nat.max (now st) due) (set_timers q st)))
      | [] =>
          match frames st with
          | _ :: fs => Some (typeRole (set_frames fs st))
          | [] => None
          end
      end
  end.

Fixpoint run (n : nat) (st : State) : State :=
  match n with
  | O => st
  | S n' =>
      match step st with
      | Some st' => run n' st'
      | None => st
      end
  end.

End WithConfig.

End RoleRotation.

(* ================================================================== *)
(** * ScrollAnimations: reveal on scroll and the timeline fill *)
(* ================================================================== *)

Module ScrollAnimations.
Import Js.
Local Open Scope string_scope.

(** An element of the page, as far as the observer is concerned: its class
    tokens. *)
Record Element := { classList : list string }.

Definition contains (token : string) (el : Element) : bool :=
  existsb (String.eqb token) (classList el).

(** [classList.add] *)
Definition classList_add (token : string) (el : Element) : Element :=
  if contains token el then el
  else {| classList := classList el ++ [token] |}.

(** The page: its elements in document order, and the element of class
    [timeline__line-fill] when there is one, with the percentage last
    written to its [style.height] ([None] while it was never written). *)
Record Document := {
  elements : list Element;
  timelineLineFill : option (option number)
}.

(** [document.querySelectorAll] for a selector made of class names. *)
Definition querySelectorAll (classes : list string) (doc : Document)
  : list Element :=
  List.filter (fun el => forallb (fun c => contains c el) classes)
              (elements doc).

(** An entry handed to the observer's callback; [target] is the position of
    the element in the document.  An entry whose target is not in the
    document leaves the page as it is. *)
Record Entry := { target : nat; isIntersecting : bool }.

Definition updateTimelineFill (doc : Document) : Document :=
  match timelineLineFill doc with
  | None => doc
  | Some _ =>
      let items := querySelectorAll ["timeline__item"] doc in
      let visibleItems :=
        querySelectorAll ["timeline__item"; "is-visible"] doc in
      if Nat.eqb (length items) 0 then doc
      else
        let percentage := mul (div (length visibleItems) (length items)) 100 in
        {| elements := elements doc;
           timelineLineFill := Some (Some percentage) |}
  end.

(** The body of the [forEach] in [handleIntersection]. *)
Definition handleEntry (doc : Document) (entry : Entry) : Document :=
  if isIntersecting entry then
    match elements doc !! target entry with
    | None => doc
    | Some el =>
        let el := classList_add "is-visible" el in
        let doc := {| elements := <[target entry := el]> (elements doc);
                      timelineLineFill := timelineLineFill doc |} in
        if contains "timeline__item" el then updateTimelineFill doc else doc
    end
  else doc.

Definition handleIntersection (entries : list Entry) (doc : Document)
  : Document :=
  fold_left handleEntry entries doc.

(** [showAll], the path taken instead of observing when reduced motion is
    preferred: [DOM.reveals] and [DOM.timelineItems] are made visible. *)
Definition showAll (doc : Document) : Document :=
  {| elements :=
       map (fun el =>
              if contains "reveal" el || contains "timeline__item" el
              then classList_add "is-visible" el else el)
           (elements doc);
     timelineLineFill := timelineLineFill doc |}.

(** [init]: when reduced motion is preferred everything is shown at once
    and no observer is made; otherwise the observer is made and handed the
    elements, which changes nothing on the page.  The second component
    tells whether there is an observer. *)
Definition init (reducedMotion : bool) (doc : Document) : Document * bool :=
  if reducedMotion then (showAll doc, false) else (doc, true).


End ScrollAnimations.

(* ================================================================== *)
(** * DataLoader: the two content feeds and their renderers *)
(* ================================================================== *)

Module DataLoader.
Import Js.
Local Open Scope string_scope.

(** ** Content documents *)

Module Project.
Record Links := { github : option string; demo : option string }.
Record t := {
  title : string;
  description : string;
  tags : list string;
  image : option string;
  status : string;
  links : Links;
  featured : bool
}.
End Project.

Module Timeline.
Record t := {
  period : string;
  type : string;
  title : string;
  organization : string;
  location : string;
  current : bool;
  description : option string;
  highlights : option (list string)
}.
End Timeline.

(** An element of the [projects] array.  JSON lets the array hold any
    value, and the script reads of an element only the members above:
    - [Complete]: an object that has [tags] and, unless its status is
      coming-soon, [links]; of the other members, one that is missing reads
      as the text "undefined" where the template prints it, and as absent
      where the template tests it;
    - [Lacking]: an object without [tags], or without [links] while its
      status is not coming-soon, where the template throws;
    - [Scalar]: a number, a string, a boolean or an array, on which every
      member reads as [undefined];
    - [Null]: [null], on which reading a member throws. *)
Inductive Entry :=
| Complete (project : Project.t)
| Lacking (featured : bool)
| Scalar
| Null.

(** A parsed JSON body, as far as the two loaders look at it.
    - [ProjectsDocument]: [data.projects] is an array.
    - [TimelineDocument]: [data.timeline] is an array of values other than
      [null], each given by what the template reads of it: a member an
      element does not have reads as the text "undefined" where the
      template prints it ([period], [title], [organization], [location])
      and as absent where the template tests it ([current], [description],
      [highlights]); highlights that are present are an array.
    - [OtherDocument]: the body has neither member.
    A body whose [timeline] member is a string, or an array that holds
    [null], is not among the documents modelled. *)
Inductive Document :=
| ProjectsDocument (projects : list Entry)
| TimelineDocument (timeline : list Timeline.t)
| OtherDocument.

Inductive Body :=
| Malformed (why : Error)
| Json (data : Document).

(** What [fetch] comes back with: a rejected promise, or a response with
    its [ok] flag and its body. *)
Inductive FetchOutcome :=
| Rejected (why : Error)
| Responded (ok : bool) (body : Body).

Definition Network := string -> FetchOutcome.

(** The three ways a fetch fails: transport failure, a status that is not
    a success, a body that does not parse. *)
Inductive fetch_failed : FetchOutcome -> Prop :=
| failed_transport why : fetch_failed (Rejected why)
| failed_status body : fetch_failed (Responded false body)
| failed_body why : fetch_failed (Responded true (Malformed why)).

(** ** The page *)

(** [projectsGrid] and [timelineContainer] hold the [innerHTML] of the two
    containers, [None] when the page has no such element.  Arrays of
    timeline entries live in [heap] and are passed by reference.
    [console] collects the warnings. *)
Record Page := {
  projectsGrid : option string;
  timelineContainer : option string;
  heap : gmap nat (list Timeline.t);
  console : list (string * string)
}.

(** Computations over the page that return or throw. *)
Definition M (A : Type) : Type := Page -> Page * Completion A.

Definition ret {A} (a : A) : M A := fun pg => (pg, Normal a).

Definition bind {A B} (m : M A) (k : A -> M B) : M B :=
  fun pg =>
    match m pg with
    | (pg', Normal a) => k a pg'
    | (pg', Throw e) => (pg', Throw e)
    end.

Definition throw {A} (e : Error) : M A := fun pg => (pg, Throw e).

Definition try_catch {A} (body : M A) (handler : Error -> M A) : M A :=
  fun pg =>
    match body pg with
    | (pg', Normal a) => (pg', Normal a)
    | (pg', Throw e) => handler e pg'
    end.

Notation "x <- m ;; k" := (bind m (fun x => k))
  (at level 100, m at next level, right associativity).
Notation "m ;;; k" := (bind m (fun _ => k))
  (at level 100, right associativity).

Definition TypeError (what : string) : Error := mkError what.

Definition console_warn (label detail : string) : M unit :=
  fun pg =>
    ({| projectsGrid := projectsGrid pg;
        timelineContainer := timelineContainer pg;
        heap := heap pg;
        console := console pg ++ [(label, detail)] |}, Normal tt).

(** [DOM.projectsGrid.innerHTML = html] *)
Definition set_projectsGrid (html : string) : M unit :=
  fun pg =>
    match projectsGrid pg with
    | None => (pg, Throw (TypeError "Cannot set properties of null"))
    | Some _ =>
        ({| projectsGrid := Some html;
            timelineContainer := timelineContainer pg;
            heap := heap pg;
            console := console pg |}, Normal tt)
    end.

(** [DOM.timelineContainer.innerHTML = html] *)
Definition set_timelineContainer (html : string) : M unit :=
  fun pg =>
    match timelineContainer pg with
    | None => (pg, Throw (TypeError "Cannot set properties of null"))
    | Some _ =>
        ({| projectsGrid := projectsGrid pg;
            timelineContainer := Some html;
            heap := heap pg;
            console := console pg |}, Normal tt)
    end.

Definition set_heap (h : gmap nat (list Timeline.t)) (pg : Page) : Page :=
  {| projectsGrid := projectsGrid pg;
     timelineContainer := timelineContainer pg;
     heap := h;
     console := console pg |}.

(** ** Arrays by reference *)

(** A new array holding [xs]. *)
Definition array_new (xs : list Timeline.t) : M nat :=
  fun pg =>
    let l := fresh (dom (heap pg)) in
    (set_heap (<[l := xs]> (heap pg)) pg, Normal l).

Definition array_read (l : nat) : M (list Timeline.t) :=
  fun pg =>
    match heap pg !! l with
    | Some xs => (pg, Normal xs)
    | None => (pg, Throw (TypeError "items is not iterable"))
    end.

(** [[...items]]: a new array with the elements of [items]. *)
Definition array_spread (items : nat) : M nat :=
  xs <- array_read items ;; array_new xs.

(** [array.reverse()]: reverses the array in place and returns it. *)
Definition array_reverse (l : nat) : M nat :=
  xs <- array_read l ;;
  fun pg => (set_heap (<[l := rev xs]> (heap pg)) pg, Normal l).

(** ** Fetching *)

Record Response := { ok : bool; body : Body }.

Definition fetch (net : Network) (url : string) : M Response :=
  match net url with
  | Rejected why => throw why
  | Responded o b => ret {| ok := o; body := b |}
  end.

(** [response.json()] *)
Definition json (response : Response) : M Document :=
  match body response with
  | Malformed why => throw why
  | Json data => ret data
  end.

(** [data.projects.filter], which needs [data.projects] to be an array. *)
Definition projects_of (data : Document) : M (list Entry) :=
  match data with
  | ProjectsDocument ps => ret ps
  | _ => throw (TypeError "Cannot read properties of undefined")
  end.

(** A step that only returns or throws. *)
Definition lift {A} (c : Completion A) : M A := fun pg => (pg, c).

(** [p.featured], as [filter] reads its truth value. *)
Definition featured_of (p : Entry) : Completion bool :=
  match p with
  | Complete project => Normal (Project.featured project)
  | Lacking featured => Normal featured
  | Scalar => Normal false
  | Null => Throw (TypeError "Cannot read properties of null")
  end.

(** [projects.filter(p => p.featured)] *)
Fixpoint filter_featured (projects : list Entry) : Completion (list Entry) :=
  match projects with
  | [] => Normal []
  | p :: rest =>
      match featured_of p with
      | Throw e => Throw e
      | Normal keep =>
          match filter_featured rest with
          | Throw e => Throw e
          | Normal kept => Normal (if keep then p :: kept else kept)
          end
      end
  end.

(** What the template reads of an element: [project.tags.length] and
    [project.links.github] throw where the member is missing. *)
Definition read_project (p : Entry) : Completion Project.t :=
  match p with
  | Complete project => Normal project
  | Lacking _ | Scalar => Throw (TypeError "Cannot read properties of undefined")
  | Null => Throw (TypeError "Cannot read properties of null")
  end.

Fixpoint read_projects (projects : list Entry) : Completion (list Project.t) :=
  match projects with
  | [] => Normal []
  | p :: rest =>
      match read_project p with
      | Throw e => Throw e
      | Normal project =>
          match read_projects rest with
          | Throw e => Throw e
          | Normal read => Normal (project :: read)
          end
      end
  end.

(** [data.timeline]: a reference to the parsed array, or [undefined]. *)
Definition timeline_of (data : Document) : M (option nat) :=
  match data with
  | TimelineDocument xs => l <- array_new xs ;; ret (Some l)
  | _ => ret None
  end.

(** ** renderProjects *)

Definition placeholder : string :=
  lit "<div class='project-card__placeholder'>
                    <svg width='48' height='48' viewBox='0 0 24 24' fill='none' stroke='currentColor' stroke-width='1.5'>
                      <rect x='3' y='3' width='18' height='18' rx='2' ry='2'/>
                      <circle cx='8.5' cy='8.5' r='1.5'/>
                      <polyline points='21 15 16 10 5 21'/>
                    </svg>
                  </div>".

Definition imageBlock (project : Project.t) : string :=
  if truthy (Project.image project)
  then lit "<img src='" ++ text_of (Project.image project)
       ++ lit "' alt='" ++ Project.title project
       ++ lit "' loading='lazy' width='400' height='225'>"
  else placeholder.

Definition tagSpan (tag : string) : string :=
  lit "<span class='tag'>" ++ tag ++ lit "</span>".

Definition tagsBlock (project : Project.t) : string :=
  if Nat.ltb 0 (length (Project.tags project))
  then lit "<div class='project-card__tags'>
                    " ++ join (map tagSpan (Project.tags project)) ++ lit "
                  </div>"
  else "".

Definition demoLink (project : Project.t) : string :=
  let demo := Project.demo (Project.links project) in
  if truthy demo
  then lit "<a href='" ++ text_of demo ++ lit "' class='project-card__link' target='_blank' rel='noopener noreferrer'>
                          <svg width='16' height='16' viewBox='0 0 24 24' fill='none' stroke='currentColor' stroke-width='2'>
                            <path d='M18 13v6a2 2 0 0 1-2 2H5a2 2 0 0 1-2-2V8a2 2 0 0 1 2-2h6'/>
                            <polyline points='15 3 21 3 21 9'/>
                            <line x1='10' y1='14' x2='21' y2='3'/>
                          </svg>
                          Demo
                        </a>"
  else "".

Definition githubLink (project : Project.t) : string :=
  let github := Project.github (Project.links project) in
  if truthy github
  then lit "<a href='" ++ text_of github ++ lit "' class='project-card__link' target='_blank' rel='noopener noreferrer'>
                          <svg width='16' height='16' viewBox='0 0 24 24' fill='currentColor'>
                            <path d='M12 0C5.37 0 0 5.37 0 12c0 5.31 3.435 9.795 8.205 11.385.6.105.825-.255.825-.57 0-.285-.015-1.23-.015-2.235-3.015.555-3.795-.735-4.035-1.41-.135-.345-.72-1.41-1.23-1.695-.42-.225-1.02-.78-.015-.795.945-.015 1.62.87 1.845 1.23 1.08 1.815 2.805 1.305 3.495.99.105-.78.42-1.305.765-1.605-2.67-.3-5.46-1.335-5.46-5.925 0-1.305.465-2.385 1.23-3.225-.12-.3-.54-1.53.12-3.18 0 0 1.005-.315 3.3 1.23.96-.27 1.98-.405 3-.405s2.04.135 3 .405c2.295-1.56 3.3-1.23 3.3-1.23.66 1.65.24 2.88.12 3.18.765.84 1.23 1.905 1.23 3.225 0 4.605-2.805 5.625-5.475 5.925.435.375.81 1.095.81 2.22 0 1.605-.015 2.895-.015 3.3 0 .315.225.69.825.57A12.02 12.02 0 0024 12c0-6.63-5.37-12-12-12z'/>
                          </svg>
                          Code
                        </a>"
  else "".

Definition isComingSoon (project : Project.t) : bool :=
  String.eqb (Project.status project) "coming-soon".

Definition linksBlock (project : Project.t) : string :=
  if negb (isComingSoon project)
     && (truthy (Project.github (Project.links project))
         || truthy (Project.demo (Project.links project)))
  then lit "<div class='project-card__links'>
                    " ++ demoLink project ++ lit "
                    " ++ githubLink project ++ lit "
                  </div>"
  else "".

Definition cardClass (project : Project.t) : string :=
  if isComingSoon project
  then "card project-card project-card--coming-soon"
  else "card project-card".

(** The part of a card before the links block ... *)
Definition cardHead (project : Project.t) : string :=
  lit "
          <article class='" ++ cardClass project ++ lit " reveal'>
            <div class='project-card__image'>
              " ++ imageBlock project ++ lit "
            </div>
            <div class='project-card__body'>
              <h3 class='project-card__title'>" ++ Project.title project ++ lit "</h3>
              <p class='project-card__description'>" ++ Project.description project ++ lit "</p>
              " ++ tagsBlock project ++ lit "
              ".

(** ... and the part after it. *)
Definition cardTail : string :=
  lit "
            </div>
          </article>
        ".

Definition projectCard (project : Project.t) : string :=
  cardHead project ++ linksBlock project ++ cardTail.

(** The cards replace the content of the grid.  [projects] are the
    elements as the template reads them; a read that throws does so inside
    [map], before anything is assigned, and is placed at the call in
    [loadProjects].  Handing the new [.reveal] elements to the scroll
    observer, which the method does next, has no part in the markup and is
    left out. *)
Definition renderProjects (projects : list Project.t) : M unit :=
  set_projectsGrid (join (map projectCard projects)).

Definition projectsFallbackMarkup : string :=
  lit "
        <article class='card project-card reveal'>
          <div class='project-card__image'>
            <div class='project-card__placeholder'>
              <svg width='48' height='48' viewBox='0 0 24 24' fill='none' stroke='currentColor' stroke-width='1.5'>
                <rect x='3' y='3' width='18' height='18' rx='2' ry='2'/>
                <circle cx='8.5' cy='8.5' r='1.5'/>
                <polyline points='21 15 16 10 5 21'/>
              </svg>
            </div>
          </div>
          <div class='project-card__body'>
            <h3 class='project-card__title'>Multi-Camera Trajectory Fusion</h3>
            <p class='project-card__description'>Diploma thesis project developing algorithms to merge vehicle trajectories from multiple overlapping camera views into unified traffic flow representations.</p>
            <div class='project-card__tags'>
              <span class='tag'>Python</span>
              <span class='tag'>OpenCV</span>
              <span class='tag'>YOLO</span>
              <span class='tag'>Tracking</span>
            </div>
          </div>
        </article>
        <article class='card project-card project-card--coming-soon reveal'>
          <div class='project-card__image'>
            <div class='project-card__placeholder'>
              <svg width='48' height='48' viewBox='0 0 24 24' fill='none' stroke='currentColor' stroke-width='1.5'>
                <circle cx='12' cy='12' r='10'/>
                <polyline points='12 6 12 12 16 14'/>
              </svg>
            </div>
          </div>
          <div class='project-card__body'>
            <h3 class='project-card__title'>More Projects Coming Soon</h3>
            <p class='project-card__description'>Additional projects showcasing traffic engineering, computer vision, and software development work will be added here.</p>
          </div>
        </article>
      ".

Definition renderProjectsFallback : M unit :=
  set_projectsGrid projectsFallbackMarkup.

Definition loadProjects (net : Network) : M unit :=
  fun pg =>
    match projectsGrid pg with
    | None => ret tt pg
    | Some _ =>
        try_catch
          (response <- fetch net "content/projects.json" ;;
           (if negb (ok response)
            then throw (mkError "Failed to load projects")
            else ret tt) ;;;
           data <- json response ;;
           projects <- projects_of data ;;
           featured <- lift (filter_featured projects) ;;
           read <- lift (read_projects featured) ;;
           renderProjects read)
          (fun error =>
             console_warn "Projects data not available:" (message error) ;;;
             renderProjectsFallback)
          pg
    end.

(** ** renderTimeline *)

Definition highlightSpan (h : string) : string :=
  lit "<span class='tag'>" ++ h ++ lit "</span>".

Definition highlightsBlock (item : Timeline.t) : string :=
  match Timeline.highlights item with
  | Some hs =>
      if Nat.ltb 0 (length hs)
      then lit "<div class='timeline__highlights'>
                    " ++ join (map highlightSpan hs) ++ lit "
                  </div>"
      else ""
  | None => ""
  end.

Definition descriptionBlock (item : Timeline.t) : string :=
  if truthy (Timeline.description item)
  then lit "<p class='timeline__description'>" ++ text_of (Timeline.description item) ++ lit "</p>"
  else "".

Definition timelineCard (item : Timeline.t) : string :=
  let isCurrentClass :=
    if Timeline.current item then "timeline__item--current" else "" in
  let typeClass :=
    if String.eqb (Timeline.type item) "education"
    then "tag--education" else "tag--work" in
  let typeLabel :=
    if String.eqb (Timeline.type item) "education"
    then "Education" else "Work" in
  lit "
          <div class='timeline__item " ++ isCurrentClass ++ lit "'>
            <div class='timeline__dot'></div>
            <div class='timeline__content'>
              <div class='timeline__header'>
                <span class='timeline__period'>" ++ Timeline.period item ++ lit "</span>
                <span class='tag timeline__type " ++ typeClass ++ lit "'>" ++ typeLabel ++ lit "</span>
                " ++ (if Timeline.current item then lit "<span class='tag tag--highlight'>Current</span>" else "") ++ lit "
              </div>
              <h3 class='timeline__title'>" ++ Timeline.title item ++ lit "</h3>
              <p class='timeline__org'>" ++ Timeline.organization item ++ lit "</p>
              <p class='timeline__location'>" ++ Timeline.location item ++ lit "</p>
              " ++ descriptionBlock item ++ lit "
              " ++ highlightsBlock item ++ lit "
            </div>
          </div>
        ".

(** [items] is a reference to the caller's array.  The cards are built
    from a reversed copy; the callback's [index] argument is unused.  As in
    [renderProjects], handing the new elements to the scroll observer is
    left out. *)
Definition renderTimeline (items : nat) : M unit :=
  copy <- array_spread items ;;
  sortedItems <- array_reverse copy ;;
  entries <- array_read sortedItems ;;
  set_timelineContainer (join (map timelineCard entries)).

Definition loadTimeline (net : Network) : M unit :=
  fun pg =>
    match timelineContainer pg with
    | None => ret tt pg
    | Some _ =>
        try_catch
          (response <- fetch net "content/timeline.json" ;;
           (if negb (ok response)
            then throw (mkError "Failed to load timeline")
            else ret tt) ;;;
           data <- json response ;;
           timeline <- timeline_of data ;;
           match timeline with
           | Some items => renderTimeline items
           | None => throw (TypeError "items is not iterable")
           end)
          (fun error =>
             console_warn "Timeline data not available:" (message error))
          pg
    end.

End DataLoader.

(* ================================================================== *)
(** * What the properties are stated with *)
(* ================================================================== *)

(** ** Decoder *)

Module DecoderSpec.
Import Js Decoder.

(** [atob] returns on [s]. *)
Definition accepted (s : jsstring) : bool :=
  match atob s with
  | Normal _ => true
  | Throw _ => false
  end.

End DecoderSpec.

(** ** RoleRotation *)

Module RotationSpec.
Import Js RoleRotation.
Local Open Scope list_scope.

(** The continuations a resolved promise makes ready. *)
Definition pending (k : Kont) : list Kont :=
  match k with
  | detached => []
  | _ => [k]
  end.

(** [st'] is [st] after a method ran up to the resolution of its promise:
    no timer is left, the awaiting continuation is ready, the events [evs]
    were recorded, and what the method does not touch is as it was. *)
Definition settled (k : Kont) (evs : list Event) (st st' : State) : Prop :=
  timers st' = [] /\
  microtasks st' = pending k /\
  frames st' = frames st /\
  currentRoleIndex st' = currentRoleIndex st /\
  nextId st' = nextId st /\
  roleAnimationId st' = roleAnimationId st /\
  log st' = log st ++ evs.

(** [st'] differs from [st] by one recorded event and the text shown. *)
Definition ticked (e : Event) (text : string) (st st' : State) : Prop :=
  timers st' = [] /\
  microtasks st' = [] /\
  frames st' = frames st /\
  currentRoleIndex st' = currentRoleIndex st /\
  nextId st' = nextId st /\
  roleAnimationId st' = roleAnimationId st /\
  log st' = log st ++ [e] /\
  roleText st' = text /\
  tagsContainer st' = tagsContainer st.

(** The timers [showTags] sets from time [base] on, and the spans they
    append. *)
Fixpoint tag_timers (base index count : nat) (k : Kont) (tags : list string)
  : list (nat * Callback) :=
  match tags with
  | [] => []
  | tag :: rest =>
      (base + index * 100, tag_cb tag index count k)
        :: tag_timers base (S index) count k rest
  end.

Fixpoint tag_spans (index : nat) (tags : list string) : list Span :=
  match tags with
  | [] => []
  | tag :: rest => tagSpan tag index :: tag_spans (S index) rest
  end.

(** One turn of the rotation for [role]: the number of turns of the event
    loop it takes, and the events it records. *)
Definition turn_length (role : Role) : nat :=
  2 * String.length (title role) + length (tags role) + 5.

Definition turn_events (role : Role) : list Event :=
  [Begin typing] ++ repeat (Tick typing) (String.length (title role))
  ++ [End typing; Begin tagging]
  ++ repeat (Tick tagging) (length (tags role))
  ++ [End tagging; Begin pausing; End pausing; Begin deleting]
  ++ repeat (Tick deleting) (String.length (title role))
  ++ [End deleting].

End RotationSpec.

(** ** ScrollAnimations *)

Module ScrollSpec.
Import Js ScrollAnimations.
Local Open Scope string_scope.

Definition is_item (el : Element) : bool := contains "timeline__item" el.
Definition is_visible (el : Element) : bool := contains "is-visible" el.

(** The timeline elements of the page, and those of them that are
    visible. *)
Definition item_count (doc : Document) : nat :=
  length (List.filter is_item (elements doc)).

Definition visible_count (doc : Document) : nat :=
  length (List.filter (fun el => is_item el && is_visible el) (elements doc)).

(** (visible / total) x 100, as the script computes it: in doubles. *)
Definition percent (visible total : nat) : number :=
  mul (div visible total) 100.

Definition progress (doc : Document) : number :=
  percent (visible_count doc) (item_count doc).

(** The same expression on the doubles of the kernel. *)
Definition percent_on_doubles (visible total : nat) : number :=
  number_of_double
    (PrimFloat.mul
       (PrimFloat.div (double_of_nat visible) (double_of_nat total))
       (double_of_nat 100)).






End ScrollSpec.

(** ** Markup *)

Module MarkupSpec.
Import Js DataLoader.
Local Open Scope string_scope.

(** The text from the start of [s] up to the marker [close]. *)
Fixpoint text_until (close s : string) : string :=
  if occurs_at close s then ""
  else match s with
       | EmptyString => ""
       | String c s' => String c (text_until close s')
       end.

Fixpoint skip (n : nat) (s : string) : string :=
  match n, s with
  | S n', String _ s' => skip n' s'
  | _, _ => s
  end.

(** The texts found between the markers [open] and [close]. *)
Fixpoint texts_between (open close s : string) : list string :=
  (if occurs_at open s
   then [text_until close (skip (String.length open) s)] else []) ++
  match s with
  | EmptyString => []
  | String _ s' => texts_between open close s'
  end.

Definition card_titles (html : string) : list string :=
  texts_between (lit "<h3 class='project-card__title'>") "</h3>" html.

Definition card_count (html : string) : nat :=
  count_occurrences "<article" html.

(** [compatible m u]: [m] and [u] agree as far as both go, so that an
    occurrence of [m] could begin where [u] begins. *)
Fixpoint compatible (m u : string) : bool :=
  match m, u with
  | EmptyString, _ => true
  | _, EmptyString => true
  | String a m', String b u' => Ascii.eqb a b && compatible m' u'
  end.

(** No occurrence of [m] can begin inside [l], whatever follows [l]. *)
Fixpoint clean (m l : string) : bool :=
  match l with
  | EmptyString => true
  | String _ l' => negb (compatible m l) && clean m l'
  end.

(** The character [c] does not occur in [s]. *)
Fixpoint free_of (c : ascii) (s : string) : bool :=
  match s with
  | EmptyString => true
  | String a s' => negb (Ascii.eqb c a) && free_of c s'
  end.

(** The opening tag of the links block of a card. *)
Definition links_marker : string := lit "<div class='project-card__links'>".

Definition lt_char : ascii := "<"%char.

(** A project whose texts bring no tag of their own into the card. *)
Definition markup_free (project : Project.t) : bool :=
  free_of lt_char (Project.title project)
  && free_of lt_char (Project.description project)
  && forallb (free_of lt_char) (Project.tags project)
  && free_of lt_char (text_of (Project.image project)).

(** At least one of the two links is there. *)
Definition linked (project : Project.t) : bool :=
  truthy (Project.github (Project.links project))
  || truthy (Project.demo (Project.links project)).

End MarkupSpec.

(** ** Pages and inputs used as examples *)

Module Samples.
Import Js.
Local Open Scope string_scope.

Definition animated : RoleRotation.Env :=
  {| RoleRotation.hasRoleText := true;
     RoleRotation.hasTagsContainer := true;
     RoleRotation.prefersReducedMotion := false |}.

Definition reduced : RoleRotation.Env :=
  {| RoleRotation.hasRoleText := true;
     RoleRotation.hasTagsContainer := true;
     RoleRotation.prefersReducedMotion := true |}.

Definition traffic_engineer : RoleRotation.Role :=
  {| RoleRotation.title := "Traffic Engineer";
     RoleRotation.tags :=
       ["Traffic Flow"; "Signal Timing"; "Safety Analysis"; "Simulation"] |}.

Definition item : ScrollAnimations.Element :=
  {| ScrollAnimations.classList := ["timeline__item"] |}.

Definition heading : ScrollAnimations.Element :=
  {| ScrollAnimations.classList := ["reveal"] |}.

(** Three timeline items behind a heading, the fill never written. *)
Definition timeline_page : ScrollAnimations.Document :=
  {| ScrollAnimations.elements := [heading; item; item; item];
     ScrollAnimations.timelineLineFill := Some None |}.

Definition page_without_items : ScrollAnimations.Document :=
  {| ScrollAnimations.elements := [heading];
     ScrollAnimations.timelineLineFill := Some None |}.

Definition seen (i : nat) : ScrollAnimations.Entry :=
  {| ScrollAnimations.target := i; ScrollAnimations.isIntersecting := true |}.

Definition gone (i : nat) : ScrollAnimations.Entry :=
  {| ScrollAnimations.target := i; ScrollAnimations.isIntersecting := false |}.


(** A network on which the projects feed answers 404 and the timeline feed
    cannot be reached. *)
Definition failing_network : DataLoader.Network :=
  fun url =>
    if String.eqb url "content/projects.json"
    then DataLoader.Responded false (DataLoader.Malformed (mkError "Not Found"))
    else DataLoader.Rejected (mkError "Failed to fetch").

Definition empty_page : DataLoader.Page :=
  {| DataLoader.projectsGrid := Some "";
     DataLoader.timelineContainer := Some "";
     DataLoader.heap := ∅;
     DataLoader.console := [] |}.

Definition entry (period : string) : DataLoader.Timeline.t :=
  {| DataLoader.Timeline.period := period;
     DataLoader.Timeline.type := "work";
     DataLoader.Timeline.title := "Engineer";
     DataLoader.Timeline.organization := "Office";
     DataLoader.Timeline.location := "Town";
     DataLoader.Timeline.current := false;
     DataLoader.Timeline.description := None;
     DataLoader.Timeline.highlights := None |}.

Definition three_entries : list DataLoader.Timeline.t :=
  [entry "2019"; entry "2021"; entry "2023"].

Definition three_entries_page : DataLoader.Page :=
  {| DataLoader.projectsGrid := None;
     DataLoader.timelineContainer := Some "";
     DataLoader.heap := {[ 0%nat := three_entries ]};
     DataLoader.console := [] |}.

(** A project with both links, under a given status. *)
Definition project_with_links (status : string) : DataLoader.Project.t :=
  {| DataLoader.Project.title := "Trajectory Fusion";
     DataLoader.Project.description := "Merging vehicle trajectories";
     DataLoader.Project.tags := ["Python"; "OpenCV"];
     DataLoader.Project.image := None;
     DataLoader.Project.status := status;
     DataLoader.Project.links :=
       {| DataLoader.Project.github := Some "https://github.com/example/fusion";
          DataLoader.Project.demo := Some "https://example.org/demo" |};
     DataLoader.Project.featured := true |}.

End Samples.

(* ================================================================== *)
(** * The rest of the script *)
(* ================================================================== *)

(** ** Class lists *)

(** A [classList]: an ordered set of tokens. *)
Module ClassList.

Definition contains (token : string) (tokens : list string) : bool :=
  existsb (String.eqb token) tokens.

Definition add (token : string) (tokens : list string) : list string :=
  if contains token tokens then tokens else tokens ++ [token].

Definition remove (token : string) (tokens : list string) : list string :=
  List.filter (fun t => negb (String.eqb token t)) tokens.

(** [toggle(token)]: the new tokens, and whether the token is now there. *)
Definition toggle (token : string) (tokens : list string)
  : list string * bool :=
  if contains token tokens then (remove token tokens, false)
  else (tokens ++ [token], true).

(** [toggle(token, force)] *)
Definition toggle_force (token : string) (force : bool) (tokens : list string)
  : list string :=
  if force then add token tokens else remove token tokens.

End ClassList.

(** ** throttle *)

(** [throttle(func, limit)] returns a closure over the flag [inThrottle].
    [func] is any function: called with its arguments in some state of the
    rest of the program, it leaves a state and returns or throws.  A world
    holds the flag, the due times of the pending callbacks that clear it,
    the clock, that state, and the calls of [func] made so far, each with
    the time it was made at and how it completed.  [func] is taken not to
    call the throttled function itself, as is the case at its three uses. *)
Module Throttle.
Section WithFunc.
Context {A S : Type}.
Variable func : A -> S -> S * Js.Completion unit.
Variable limit : nat.

Record Call := { time : nat; args_of : A; outcome : Js.Completion unit }.

Record World := {
  inThrottle : bool;
  timers : list nat;
  now : nat;
  env : S;
  executed : list Call
}.

(** A fresh closure at time [t]: [let inThrottle;] is falsy. *)
Definition initial (t : nat) (s : S) : World :=
  {| inThrottle := false; timers := []; now := t; env := s; executed := [] |}.

(** The returned function, called with [args]: [func.apply] comes first,
    and the two statements after it run only if it returns. *)
Definition throttled (args : A) (w : World) : World * Js.Completion unit :=
  if negb (inThrottle w)
  then
    let (s, c) := func args (env w) in
    let call := {| time := now w; args_of := args; outcome := c |} in
    match c with
    | Js.Normal _ =>
        ({| inThrottle := true;
            timers := timers w ++ [now w + limit];
            now := now w;
            env := s;
            executed := executed w ++ [call] |}, Js.Normal tt)
    | Js.Throw e =>
        ({| inThrottle := inThrottle w;
            timers := timers w;
            now := now w;
            env := s;
            executed := executed w ++ [call] |}, Js.Throw e)
    end
  else (w, Js.Normal tt).

(** [ms] milliseconds pass: the callbacks due by then run. *)
Definition elapse (ms : nat) (w : World) : World :=
  let t := now w + ms in
  {| inThrottle :=
       if existsb (fun due => Nat.leb due t) (timers w) then false
       else inThrottle w;
     timers := List.filter (fun due => Nat.ltb t due) (timers w);
     now := t;
     env := env w;
     executed := executed w |}.

(** Other code of the program runs and changes its state. *)
Definition outside (f : S -> S) (w : World) : World :=
  {| inThrottle := inThrottle w;
     timers := timers w;
     now := now w;
     env := f (env w);
     executed := executed w |}.

Inductive Event :=
| Invoke (args : A)
| Elapse (ms : nat)
| Outside (f : S -> S).

(** An event dispatched by the event loop; what a listener throws is
    reported and goes no further. *)
Definition handle (w : World) (e : Event) : World :=
  match e with
  | Invoke args => fst (throttled args w)
  | Elapse ms => elapse ms w
  | Outside f => outside f w
  end.

Definition run (trace : list Event) (w : World) : World :=
  fold_left handle trace w.

(** The arguments of the calls of the throttled function in a trace. *)
Definition invoked (trace : list Event) : list A :=
  flat_map (fun e => match e with Invoke args => [args] | _ => [] end) trace.

End WithFunc.
Arguments Call A : clear implicits.
Arguments World A S : clear implicits.
Arguments Event A S : clear implicits.
End Throttle.

(** ** debounce *)

(** [debounce(func, wait)] returns a closure over the timer handle
    [timeout].  Timers carry their handle, their due time and the
    arguments their callback passes to [func]. *)
Module Debounce.
Section WithFunc.
Context {A : Type}.
Variable wait : nat.

Record Timer := { handle_of : nat; due : nat; args_of : A }.

Record World := {
  timeout : option nat;
  timers : list Timer;
  nextId : nat;
  now : nat;
  executed : list (nat * A)
}.

Definition initial (t : nat) : World :=
  {| timeout := None; timers := []; nextId := 1; now := t; executed := [] |}.

(** [clearTimeout(handle)]; a handle that is [undefined] or no longer
    pending clears nothing. *)
Definition clearTimeout (handle : option nat) (q : list Timer) : list Timer :=
  match handle with
  | None => q
  | Some id => List.filter (fun t => negb (Nat.eqb (handle_of t) id)) q
  end.

(** The returned function, called with [args]. *)
Definition debounced (args : A) (w : World) : World :=
  let q := clearTimeout (timeout w) (timers w) in
  {| timeout := Some (nextId w);
     timers := q ++ [{| handle_of := nextId w; due := now w + wait;
                        args_of := args |}];
     nextId := S (nextId w);
     now := now w;
     executed := executed w |}.

(** [ms] milliseconds pass: the timers due by then call [func], in the
    order they were set, each recorded at its due time. *)
Definition elapse (ms : nat) (w : World) : World :=
  let t := now w + ms in
  {| timeout := timeout w;
     timers := List.filter (fun x => Nat.ltb t (due x)) (timers w);
     nextId := nextId w;
     now := t;
     executed :=
       executed w
       ++ map (fun x => (due x, args_of x))
              (List.filter (fun x => Nat.leb (due x) t) (timers w)) |}.

Inductive Event :=
| Invoke (args : A)
| Elapse (ms : nat).

Definition handle (w : World) (e : Event) : World :=
  match e with
  | Invoke args => debounced args w
  | Elapse ms => elapse ms w
  end.

Definition run (trace : list Event) (w : World) : World :=
  fold_left handle trace w.

End WithFunc.
Arguments World A : clear implicits.
Arguments Timer A : clear implicits.
Arguments Event A : clear implicits.
End Debounce.

(** ** What the properties of [throttle] and [debounce] are stated with *)

Module ThrottleSpec.
Import Throttle.
Section WithFunc.
Context {A S : Type}.
Variable limit : nat.

(** The call of [func] returned. *)
Definition returned (c : Call A) : bool :=
  match outcome c with
  | Js.Normal _ => true
  | Js.Throw _ => false
  end.

(** Two calls of [func]: if the first returned, the second comes at least
    [limit] after it. *)
Definition apart (c1 c2 : Call A) : Prop :=
  returned c1 = true -> time c1 + limit <= time c2.

(** Every call of [func] that returned lies at least [limit] before [t]. *)
Definition clear_at (t : nat) (calls : list (Call A)) : bool :=
  forallb (fun c => implb (returned c) (Nat.leb (time c + limit) t)) calls.

(** What holds of every world a run reaches.  While the flag is set, the
    one pending callback is the one set by the last call of [func], which
    returned; while it is clear, nothing is pending and every call of
    [func] that returned lies at least [limit] in the past. *)
Definition inv (w : World A S) : Prop :=
  StronglySorted apart (executed w) /\
  (if inThrottle w
   then exists pre t a,
       executed w = pre ++ [{| time := t; args_of := a; outcome := Js.Normal tt |}] /\
       timers w = [t + limit] /\
       t <= now w /\ (0 < limit -> now w < t + limit)
   else timers w = [] /\
        Forall (fun c => returned c = true -> time c + limit <= now w)
               (executed w)).

End WithFunc.
End ThrottleSpec.

Module DebounceSpec.
Import Debounce.
Section WithFunc.
Context {A : Type}.

(** Calls in quick succession: each call with the time that passes
    after it. *)
Fixpoint burst (calls : list (A * nat)) : list (Event A) :=
  match calls with
  | [] => []
  | (args, gap) :: rest => Invoke args :: Elapse gap :: burst rest
  end.

(** At most one timer is pending, and [timeout] is its handle. *)
Definition inv (w : World A) : Prop :=
  timers w = [] \/
  exists x, timers w = [x] /\ timeout w = Some (handle_of x).

End WithFunc.
End DebounceSpec.

(** ** Header *)

Module Header.
Import Js.
Local Open Scope string_scope.

(** [a > b] on numbers. *)
Definition gt (a b : Q) : bool := negb (Qle_bool a b).

(** [lastScrollY] and [headerVisible] are the fields of [state] the header
    uses; [header] is the class list of [DOM.header], [None] on a page
    without such an element. *)
Record State := {
  lastScrollY : Q;
  headerVisible : bool;
  header : option (list string)
}.

Definition handleScroll (currentScrollY : Q) (st : State) : Completion State :=
  match header st with
  | None => Throw (mkError "Cannot read properties of null")
  | Some classes =>
      let classes :=
        if gt currentScrollY 50
        then ClassList.add "header--scrolled" classes
        else ClassList.remove "header--scrolled" classes in
      let '(classes, visible) :=
        if gt currentScrollY (lastScrollY st) && gt currentScrollY 100
        then
          if headerVisible st
          then (ClassList.add "header--hidden" classes, false)
          else (classes, headerVisible st)
        else
          if negb (headerVisible st)
          then (ClassList.remove "header--hidden" classes, true)
          else (classes, headerVisible st) in
      Normal {| lastScrollY := currentScrollY;
                headerVisible := visible;
                header := Some classes |}
  end.

End Header.

(** ** MobileNav *)

Module MobileNav.
Import Js.
Local Open Scope string_scope.

(** [init] registers its listeners only on a page that has both the menu
    button and the navigation; this is such a page.  [nav] and
    [menuToggle] are their class lists, [ariaExpanded] the attribute of the
    button, [overflow] the inline style of the body, and [hasHeader] tells
    whether [DOM.header] is there. *)
Record Page := {
  nav : list string;
  menuToggle : list string;
  ariaExpanded : option string;
  overflow : string;
  hasHeader : bool
}.

Definition toggle (pg : Page) : Page :=
  let '(nav', isOpen) := ClassList.toggle "is-open" (nav pg) in
  {| nav := nav';
     menuToggle := fst (ClassList.toggle "is-active" (menuToggle pg));
     ariaExpanded := Some (if isOpen then "true" else "false");
     overflow := if isOpen then "hidden" else "";
     hasHeader := hasHeader pg |}.

Definition close (pg : Page) : Page :=
  {| nav := ClassList.remove "is-open" (nav pg);
     menuToggle := ClassList.remove "is-active" (menuToggle pg);
     ariaExpanded := Some "false";
     overflow := "";
     hasHeader := hasHeader pg |}.

(** Where a click lands: on the menu button, on a link of the navigation,
    or elsewhere; and whether that place is inside the header. *)
Inductive Place := OnMenuToggle | OnNavLink | Elsewhere.

Inductive Event :=
| Click (place : Place) (inHeader : bool)
| KeyDown (key : string).

(** The listener on [document] for clicks, which runs after those on the
    element clicked. *)
Definition outsideClick (inHeader : bool) (pg : Page) : Completion Page :=
  if ClassList.contains "is-open" (nav pg)
  then
    if hasHeader pg
    then Normal (if negb inHeader then close pg else pg)
    else Throw (mkError "Cannot read properties of null")
  else Normal pg.

Definition dispatch (e : Event) (pg : Page) : Completion Page :=
  match e with
  | Click OnMenuToggle inHeader => outsideClick inHeader (toggle pg)
  | Click OnNavLink inHeader => outsideClick inHeader (close pg)
  | Click Elsewhere inHeader => outsideClick inHeader pg
  | KeyDown key => Normal (if String.eqb key "Escape" then close pg else pg)
  end.

End MobileNav.

(** ** LanguageToggle *)

Module LanguageToggle.
Import Js.
Local Open Scope string_scope.

(** A button of the toggle: its [data-lang], if it has one, and its
    classes. *)
Record Button := { lang : option string; classList : list string }.

Record Page := {
  langToggle : list Button;
  documentLang : string;
  localStorage : gmap string string
}.

(** A value that is a string or [undefined], as a string. *)
Definition to_string (v : option string) : string :=
  match v with
  | Some s => s
  | None => "undefined"
  end.

(** [===] on such values. *)
Definition strict_equal (a b : option string) : bool :=
  match a, b with
  | Some x, Some y => String.eqb x y
  | None, None => true
  | _, _ => false
  end.

Definition setLanguage (l : option string) (pg : Page) : Page :=
  {| langToggle :=
       map (fun btn =>
              {| lang := lang btn;
                 classList :=
                   ClassList.toggle_force "lang-toggle__btn--active"
                     (strict_equal (lang btn) l) (classList btn) |})
           (langToggle pg);
     documentLang := to_string l;
     localStorage := localStorage pg |}.

(** A click on a button whose [data-lang] is [l]. *)
Definition handleToggle (l : option string) (pg : Page) : Page :=
  let pg := setLanguage l pg in
  {| langToggle := langToggle pg;
     documentLang := documentLang pg;
     localStorage := <["preferredLanguage" := to_string l]> (localStorage pg) |}.

(** What [init] does besides registering the listeners. *)
Definition init (pg : Page) : Page :=
  let stored := localStorage pg !! "preferredLanguage" in
  if truthy stored then setLanguage stored pg else pg.

End LanguageToggle.

(** ** ActiveNavLink *)

Module ActiveNavLink.
Import Js.
Local Open Scope string_scope.

(** A [section] that has an [id], with its offsets in the page. *)
Record Section_ := { id : string; offsetTop : Z; offsetHeight : Z }.

(** An element of class [nav__link]. *)
Record Link := { href : option string; classList : list string }.

Definition inside (scrollY : Q) (section : Section_) : bool :=
  Qle_bool (inject_Z (offsetTop section)) scrollY
  && negb (Qle_bool (inject_Z (offsetTop section + offsetHeight section))
                    scrollY).

Definition points_to (section : Section_) (link : Link) : bool :=
  match href link with
  | Some h => String.eqb h ("#" ++ id section)
  | None => false
  end.

(** The inner [forEach], over the links. *)
Definition activate (section : Section_) (links : list Link) : list Link :=
  map (fun link =>
         let classes := ClassList.remove "nav__link--active" (classList link) in
         {| href := href link;
            classList :=
              if points_to section link
              then ClassList.add "nav__link--active" classes
              else classes |})
      links.

(** The scroll listener, at [window.scrollY]. *)
Definition onScroll (windowScrollY : Q) (sections : list Section_)
    (links : list Link) : list Link :=
  let scrollY := (windowScrollY + 100)%Q in
  fold_left
    (fun links section =>
       if inside scrollY section then activate section links else links)
    sections links.

End ActiveNavLink.

(** ** PageLoader *)

Module PageLoader.
Import Js.
Local Open Scope string_scope.

(** [pageLoader] is the class list of [DOM.pageLoader], if the page has
    one; [listening] tells whether the [load] listener is registered;
    [timers] holds the due times of the pending callbacks, all of which add
    [is-hidden]. *)
Record World := {
  pageLoader : option (list string);
  listening : bool;
  timers : list nat;
  now : nat
}.

Definition init (w : World) : World :=
  match pageLoader w with
  | None => w
  | Some _ =>
      {| pageLoader := pageLoader w;
         listening := true;
         timers := timers w ++ [now w + 3000];
         now := now w |}
  end.

Inductive Event :=
| Load
| Elapse (ms : nat).

(** The [load] event of the window. *)
Definition load (w : World) : World :=
  if listening w
  then {| pageLoader := pageLoader w;
          listening := listening w;
          timers := timers w ++ [now w + 300];
          now := now w |}
  else w.

Definition hide (classes : option (list string)) : option (list string) :=
  match classes with
  | Some cs => Some (ClassList.add "is-hidden" cs)
  | None => None
  end.

Definition elapse (ms : nat) (w : World) : World :=
  let t := now w + ms in
  {| pageLoader :=
       if existsb (fun due => Nat.leb due t) (timers w)
       then hide (pageLoader w) else pageLoader w;
     listening := listening w;
     timers := List.filter (fun due => Nat.ltb t due) (timers w);
     now := t |}.

Definition handle (w : World) (e : Event) : World :=
  match e with
  | Load => load w
  | Elapse ms => elapse ms w
  end.

Definition run (trace : list Event) (w : World) : World :=
  fold_left handle trace w.

Definition hidden (w : World) : bool :=
  match pageLoader w with
  | Some cs => ClassList.contains "is-hidden" cs
  | None => false
  end.

End PageLoader.

(** ** What the properties of these objects are stated with *)

Module HeaderSpec.
Import Js Header.
Local Open Scope string_scope.

Definition has (token : string) (st : State) : bool :=
  match header st with
  | Some classes => ClassList.contains token classes
  | None => false
  end.

(** The class on the element and the flag in [state] say the same. *)
Definition consistent (st : State) : Prop :=
  has "header--hidden" st = negb (headerVisible st).

End HeaderSpec.

Module MobileNavSpec.
Import Js MobileNav.
Local Open Scope string_scope.

Definition is_open (pg : Page) : bool := ClassList.contains "is-open" (nav pg).

Definition expanded (pg : Page) : bool :=
  match ariaExpanded pg with
  | Some v => String.eqb v "true"
  | None => false
  end.

(** The four marks of an open drawer agree. *)
Definition consistent (pg : Page) : Prop :=
  ClassList.contains "is-active" (menuToggle pg) = is_open pg /\
  expanded pg = is_open pg /\
  String.eqb (overflow pg) "hidden" = is_open pg.

(** Whether the drawer is open after an event, given whether it was. *)
Definition open_after (e : Event) (was_open : bool) : bool :=
  match e with
  | Click OnMenuToggle inHeader => negb was_open && inHeader
  | Click OnNavLink _ => false
  | Click Elsewhere inHeader => was_open && inHeader
  | KeyDown key => was_open && negb (String.eqb key "Escape")
  end.

End MobileNavSpec.

Module LanguageSpec.
Import Js LanguageToggle.
Local Open Scope string_scope.

Definition active (btn : Button) : bool :=
  ClassList.contains "lang-toggle__btn--active" (classList btn).

(** The same page loaded again: the buttons come from the markup, with
    whatever classes it gives them, and the storage is what was left. *)
Definition reloaded (before after : Page) : Prop :=
  map lang (langToggle after) = map lang (langToggle before) /\
  localStorage after = localStorage before.

End LanguageSpec.

Module ActiveNavLinkSpec.
Import Js ActiveNavLink.
Local Open Scope string_scope.

Definition active (link : Link) : bool :=
  ClassList.contains "nav__link--active" (classList link).

(** The sections the position is in, in document order. *)
Definition hits (windowScrollY : Q) (sections : list Section_) : list Section_ :=
  List.filter (inside (windowScrollY + 100)%Q) sections.

End ActiveNavLinkSpec.

Module PageLoaderSpec.
Import Js PageLoader.

Definition is_load (e : Event) : bool :=
  match e with
  | Load => true
  | Elapse _ => false
  end.

(** The loader is hidden, or a callback that hides it is still to come,
    at [due]. *)
Definition inv (due : nat) (w : World) : Prop :=
  pageLoader w <> None /\
  (hidden w = true \/ (In due (timers w) /\ now w < due)).

End PageLoaderSpec.

Module ObserverSpec.
Import Js ScrollAnimations ScrollSpec.
Local Open Scope string_scope.
Local Open Scope list_scope.

(** Whether some entry of a call reports the element at [i] as
    intersecting. *)
Definition reported (entries : list Entry) (i : nat) : bool :=
  existsb (fun e => isIntersecting e && Nat.eqb (target e) i) entries.

(** The element at [i] after such a call. *)
Definition shown (entries : list Entry) (i : nat) (el : Element) : Element :=
  if reported entries i then classList_add "is-visible" el else el.

(** The elements [init] hands to the observer: [DOM.reveals] and
    [DOM.timelineItems]. *)
Definition observed (el : Element) : bool :=
  contains "reveal" el || contains "timeline__item" el.

(** One intersecting entry for every observed element of [els], which
    are the elements of the page from position [i] on. *)
Fixpoint all_intersecting (i : nat) (els : list Element) : list Entry :=
  match els with
  | [] => []
  | el :: rest =>
      (if observed el then [{| target := i; isIntersecting := true |}] else [])
      ++ all_intersecting (S i) rest
  end.

End ObserverSpec.

Module CycleSpec.
Import Js RoleRotation RotationSpec.
Local Open Scope list_scope.

(** Nothing is scheduled. *)
Definition idle (st : State) : Prop :=
  timers st = [] /\ microtasks st = [] /\ frames st = [].

(** The roles of [k] turns in a row, from the role at index [i] on. *)
Fixpoint cycle_roles (cfg : Config) (i k : nat) : list Role :=
  match k with
  | O => []
  | S k' =>
      match nth_error (roles cfg) i with
      | Some role =>
          role :: cycle_roles cfg ((i + 1) mod length (roles cfg)) k'
      | None => []
      end
  end.

(** The turns of the event loop they take, each with the animation frame
    that starts the next one, and the events they record. *)
Definition cycle_length (rs : list Role) : nat :=
  list_sum (map (fun role => turn_length role + 1) rs).

Definition cycle_events (rs : list Role) : list Event :=
  concat (map turn_events rs).

(** [f] requests no animation frame and gives out no handle. *)
Definition no_frame (f : State -> State) : Prop :=
  forall st, frames (f st) = frames st /\ nextId (f st) = nextId st.

End CycleSpec.

Module CardSpec.
Import Js DataLoader MarkupSpec.
Local Open Scope string_scope.

(** How a card opens, and how its title does. *)
Definition article_marker : string := "<article".

Definition title_marker : string := lit "<h3 class='project-card__title'>".

(** How the title of an entry of the timeline opens. *)
Definition entry_marker : string := lit "<h3 class='timeline__title'>".

Definition marker (m : string) : Prop :=
  m = article_marker \/ m = title_marker \/ m = entry_marker.

Definition entry_titles (html : string) : list string :=
  texts_between entry_marker "</h3>" html.

(** The text of [s] behind the first occurrence of [m]. *)
Fixpoint text_after (m s : string) : string :=
  if occurs_at m s then skip (String.length m) s
  else match s with
       | EmptyString => ""
       | String _ s' => text_after m s'
       end.

(** A project none of whose texts brings a tag of its own into the card,
    the two links included. *)
Definition tidy (project : Project.t) : bool :=
  markup_free project
  && free_of lt_char (text_of (Project.github (Project.links project)))
  && free_of lt_char (text_of (Project.demo (Project.links project))).

(** The same for an entry of the timeline. *)
Definition tidy_entry (item : Timeline.t) : bool :=
  free_of lt_char (Timeline.period item)
  && free_of lt_char (Timeline.title item)
  && free_of lt_char (Timeline.organization item)
  && free_of lt_char (Timeline.location item)
  && free_of lt_char (text_of (Timeline.description item))
  && match Timeline.highlights item with
     | Some hs => forallb (free_of lt_char) hs
     | None => true
     end.

End CardSpec.

Module LoaderSpec.
Import Js DataLoader.





End LoaderSpec.

Module TimingSpec.
Import Js RoleRotation RotationSpec.
Local Open Scope list_scope.

(** The time one turn of the rotation takes for [role], in
    milliseconds: the characters typed, the tags after the first, the
    pause, the characters erased. *)
Definition turn_time (cfg : Config) (role : Role) : nat :=
  String.length (title role) * typeSpeed cfg
  + (length (tags role) - 1) * 100
  + pauseBetweenRoles cfg
  + String.length (title role) * deleteSpeed cfg.

End TimingSpec.

(** ** More sample pages *)

Module Scenarios.
Import Js.
Local Open Scope string_scope.

(** The two buttons of the language toggle as the markup has them, and
    what the storage holds. *)
Definition two_languages (storage : gmap string string) : LanguageToggle.Page :=
  {| LanguageToggle.langToggle :=
       [ {| LanguageToggle.lang := Some "en";
            LanguageToggle.classList :=
              ["lang-toggle__btn"; "lang-toggle__btn--active"] |};
         {| LanguageToggle.lang := Some "de";
            LanguageToggle.classList := ["lang-toggle__btn"] |} ];
     LanguageToggle.documentLang := "en";
     LanguageToggle.localStorage := storage |}.

(** A toggle whose first button has no [data-lang]. *)
Definition unlabelled (storage : gmap string string) : LanguageToggle.Page :=
  {| LanguageToggle.langToggle :=
       [ {| LanguageToggle.lang := None;
            LanguageToggle.classList := ["lang-toggle__btn"] |};
         {| LanguageToggle.lang := Some "en";
            LanguageToggle.classList := ["lang-toggle__btn"] |} ];
     LanguageToggle.documentLang := "en";
     LanguageToggle.localStorage := storage |}.

Definition about : ActiveNavLink.Section_ :=
  {| ActiveNavLink.id := "about";
     ActiveNavLink.offsetTop := 0; ActiveNavLink.offsetHeight := 600 |}.

Definition projects : ActiveNavLink.Section_ :=
  {| ActiveNavLink.id := "projects";
     ActiveNavLink.offsetTop := 600; ActiveNavLink.offsetHeight := 800 |}.

Definition nav_links : list ActiveNavLink.Link :=
  [ {| ActiveNavLink.href := Some "#about";
       ActiveNavLink.classList := ["nav__link"; "nav__link--active"] |};
    {| ActiveNavLink.href := Some "#projects";
       ActiveNavLink.classList := ["nav__link"] |} ].

Definition project (title : string) (featured : bool) : DataLoader.Project.t :=
  {| DataLoader.Project.title := title;
     DataLoader.Project.description := "A project";
     DataLoader.Project.tags := ["Python"];
     DataLoader.Project.image := Some "assets/project.webp";
     DataLoader.Project.status := "active";
     DataLoader.Project.links :=
       {| DataLoader.Project.github := None;
          DataLoader.Project.demo := Some "https://example.org/demo" |};
     DataLoader.Project.featured := featured |}.

Definition job (title : string) (current : bool) : DataLoader.Timeline.t :=
  {| DataLoader.Timeline.period := "2021 - 2023";
     DataLoader.Timeline.type := "education";
     DataLoader.Timeline.title := title;
     DataLoader.Timeline.organization := "Institute";
     DataLoader.Timeline.location := "Town";
     DataLoader.Timeline.current := current;
     DataLoader.Timeline.description := Some "Studies";
     DataLoader.Timeline.highlights := Some ["Thesis"; "Tutoring"] |}.

Definition career : list DataLoader.Timeline.t :=
  [job "Student" false; job "Assistant" false; job "Engineer" true].


Definition career_page : DataLoader.Page :=
  {| DataLoader.projectsGrid := None;
     DataLoader.timelineContainer := Some "";
     DataLoader.heap := {[ 0%nat := career ]};
     DataLoader.console := [] |}.




(** A listener for [throttle]: it counts its runs, and throws when called
    with ["boom"]. *)
Definition counting (args : string) (runs : nat) : nat * Completion unit :=
  if String.eqb args "boom"
  then (runs, Throw (mkError "boom"))
  else (Datatypes.S runs, Normal tt).

(** Scrolling with a 100 ms throttle: a call that throws, then calls at
    0, 40 and 100 ms. *)
Definition throttled_scroll : list (Throttle.Event string nat) :=
  [Throttle.Invoke "boom"; Throttle.Invoke "a"; Throttle.Elapse 40;
   Throttle.Invoke "b"; Throttle.Elapse 60].

(** A listener that throws every time. *)
Definition failing (args : string) (runs : nat) : nat * Completion unit :=
  (runs, Throw (mkError args)).

End Scenarios.

(* ================================================================== *)
(** * Decoder: proofs *)
(* ================================================================== *)

Module DecoderFacts.
Import Js Decoder DecoderSpec.
Local Open Scope list_scope.

(** Introduce quotient and remainder for every [_ mod 4] in sight. *)
Ltac mod4 :=
  repeat match goal with
    | |- context [?a mod 4] =>
        let q := fresh "q" in let r := fresh "r" in
        pose proof (Nat.div_mod_eq a 4);
        pose proof (Nat.mod_upper_bound a 4 ltac:(discriminate));
        set (q := a / 4) in *; set (r := a mod 4) in *; clearbody q r
    | H : context [?a mod 4] |- _ =>
        let q := fresh "q" in let r := fresh "r" in
        pose proof (Nat.div_mod_eq a 4);
        pose proof (Nat.mod_upper_bound a 4 ltac:(discriminate));
        set (q := a / 4) in *; set (r := a mod 4) in *; clearbody q r
    end.

Lemma pad_not_in_alphabet : ~ in_alphabet pad.
Proof. unfold in_alphabet. vm_compute. congruence. Qed.

Lemma sextets_Some_iff (s : jsstring) :
  (exists vs, sextets s = Some vs) <-> Forall in_alphabet s.
Proof.
  induction s as [|c s IH]; simpl.
  - split; [constructor | eauto].
  - split.
    + intros [vs H]. destruct (sextet c) eqn:Hc; [|discriminate].
      destruct (sextets s) eqn:Hs; [|discriminate].
      constructor; [unfold in_alphabet; congruence | apply IH; eauto].
    + intros H. inversion H as [|? ? Hc Hs]; subst.
      apply IH in Hs as [vs ->]. unfold in_alphabet in Hc.
      destruct (sextet c); [eauto | congruence].
Qed.

(** Padding is only ever removed from behind text that ends in [=]. *)
Lemma drop_padding_rev_alphabet (r : jsstring) :
  Forall in_alphabet r -> drop_padding_rev r = r.
Proof.
  intros H. destruct r as [|c1 [|c2 r]]; simpl; trivial;
    inversion H as [|? ? Hc ?]; subst;
    destruct (N.eqb_spec c1 pad) as [->|]; trivial;
    now destruct pad_not_in_alphabet.
Qed.

Lemma strip_padding_body (body : jsstring) :
  Forall in_alphabet body -> strip_padding body = body.
Proof.
  intros H. unfold strip_padding. destruct (Nat.eqb _ 0); trivial.
  rewrite drop_padding_rev_alphabet by now apply Forall_rev.
  apply rev_involutive.
Qed.

Lemma strip_padding_one (body : jsstring) :
  Forall in_alphabet body -> length body mod 4 = 3 ->
  strip_padding (body ++ [pad]) = body.
Proof.
  intros H Hlen. unfold strip_padding.
  replace (Nat.eqb (length (body ++ [pad]) mod 4) 0) with true.
  2:{ symmetry. apply Nat.eqb_eq. rewrite length_app. cbn [length]. mod4. lia. }
  rewrite rev_app_distr. simpl.
  destruct (rev body) as [|c r] eqn:Hr.
  - apply (f_equal (@length N)) in Hr. rewrite length_rev in Hr.
    rewrite Hr in Hlen. discriminate.
  - assert (Hc : in_alphabet c).
    { apply Forall_rev in H. rewrite Hr in H. now inversion H. }
    destruct (N.eqb_spec c pad) as [->|_];
      [now destruct pad_not_in_alphabet|].
    rewrite <- Hr. apply rev_involutive.
Qed.

Lemma strip_padding_two (body : jsstring) :
  length body mod 4 = 2 -> strip_padding (body ++ [pad; pad]) = body.
Proof.
  intros Hlen. unfold strip_padding.
  replace (Nat.eqb (length (body ++ [pad; pad]) mod 4) 0) with true.
  2:{ symmetry. apply Nat.eqb_eq. rewrite length_app. cbn [length]. mod4. lia. }
  rewrite rev_app_distr. simpl. apply rev_involutive.
Qed.

(** What [strip_padding] removed, and what that says of the lengths. *)
Lemma strip_padding_split (t : jsstring) :
  exists padding,
    t = strip_padding t ++ padding /\
    (padding = [] \/
     (padding = [pad] /\ length (strip_padding t) mod 4 = 3) \/
     (padding = [pad; pad] /\ length (strip_padding t) mod 4 = 2)).
Proof.
  unfold strip_padding. destruct (Nat.eqb_spec (length t mod 4) 0) as [H0|_].
  2:{ exists []. rewrite app_nil_r. auto. }
  assert (Ht : t = rev (rev t)) by (symmetry; apply rev_involutive).
  assert (Hl : length (rev t) = length t) by apply length_rev.
  destruct (rev t) as [|c1 [|c2 r]]; cbn [drop_padding_rev rev length] in *.
  - exists []. auto.
  - rewrite <- Hl in H0. discriminate.
  - destruct (N.eqb_spec c1 pad) as [->|_].
    + destruct (N.eqb_spec c2 pad) as [->|_].
      * exists [pad; pad]. split.
        { rewrite Ht at 1. now rewrite <- !app_assoc. }
        right; right. split; trivial. rewrite length_rev.
        rewrite <- Hl in H0. clear Hl Ht. mod4. lia.
      * exists [pad]. split; [exact Ht|].
        right; left. split; trivial. rewrite length_rev.
        cbn [length]. rewrite <- Hl in H0. clear Hl Ht. mod4. lia.
    + exists []. rewrite app_nil_r. split; [exact Ht | auto].
Qed.

(** [atob] accepts exactly the valid strings. *)
Lemma atob_accepts_iff (s : jsstring) :
  (exists r, atob s = Normal r) <-> valid_base64 s.
Proof.
  unfold atob, valid_base64. split.
  - intros [r H].
    destruct (Nat.eqb_spec (length (strip_padding (strip_whitespace s)) mod 4) 1)
      as [|Hne]; [discriminate|].
    destruct (sextets _) as [vs|] eqn:Hs; [|discriminate].
    destruct (strip_padding_split (strip_whitespace s)) as (p & Hsplit & Hp).
    exists (strip_padding (strip_whitespace s)), p.
    split; [exact Hsplit|]. split.
    + apply sextets_Some_iff. eauto.
    + destruct Hp as [->|Hp]; auto.
  - intros (body & p & Hsplit & Hbody & Hp). rewrite Hsplit.
    assert (Hdata : strip_padding (body ++ p) = body /\ length body mod 4 <> 1).
    { destruct Hp as [[-> Hl]|[[-> Hl]|[-> Hl]]].
      - rewrite app_nil_r. split; [now apply strip_padding_body | exact Hl].
      - split; [now apply strip_padding_one | rewrite Hl; discriminate].
      - split; [now apply strip_padding_two | rewrite Hl; discriminate]. }
    destruct Hdata as [-> Hl].
    destruct (Nat.eqb_spec (length body mod 4) 1) as [|_]; [contradiction|].
    apply sextets_Some_iff in Hbody as [vs ->]. eauto.
Qed.

Lemma valid_base64_accepted (s : jsstring) :
  valid_base64 s <-> accepted s = true.
Proof.
  rewrite <- atob_accepts_iff. unfold accepted.
  destruct (atob s); split; eauto; try discriminate.
  intros [r H]. discriminate.
Qed.

#[global] Instance valid_base64_dec (s : jsstring) : Decision (valid_base64 s).
Proof.
  destruct (accepted s) eqn:H.
  - left. now apply valid_base64_accepted.
  - right. rewrite valid_base64_accepted, H. discriminate.
Defined.

Lemma decode_invalid (s : jsstring) : ~ valid_base64 s -> decode s = s.
Proof.
  intros H. unfold decode, decode_completion, catch.
  destruct (atob s) as [r|e] eqn:Ha; trivial.
  destruct H. apply atob_accepts_iff. eauto.
Qed.


(** [decode] never completes abruptly. *)
Lemma decode_completion_normal (s : jsstring) :
  decode_completion s = Normal (decode s).
Proof.
  unfold decode, decode_completion, catch. now destruct (atob s).
Qed.

Lemma decode_valid (s r : jsstring) : atob s = Normal r -> decode s = r.
Proof.
  intros H. unfold decode, decode_completion, catch. now rewrite H.
Qed.

Lemma sextets_length (s : jsstring) (vs : list N) :
  sextets s = Some vs -> length vs = length s.
Proof.
  revert vs. induction s as [|c s IH]; intros vs H; cbn in H.
  - now injection H as <-.
  - destruct (sextet c); [|discriminate].
    destruct (sextets s) as [ws|]; [|discriminate].
    injection H as <-. cbn. now rewrite (IH ws).
Qed.

Lemma bytes_length_four (a b c d : N) (rest : list N) :
  length (bytes_of_sextets (a :: b :: c :: d :: rest))
  = 3 + length (bytes_of_sextets rest).
Proof. reflexivity. Qed.

Lemma bytes_shorter_aux (n : nat) :
  forall vs : list N,
    length vs <= n ->
    length (bytes_of_sextets vs) <= length vs /\
    (vs <> [] -> length (bytes_of_sextets vs) < length vs).
Proof.
  induction n as [|n IH]; intros vs Hn.
  - destruct vs as [|a vs]; [|cbn [length] in Hn; lia].
    split; [reflexivity | congruence].
  - destruct vs as [|a [|b [|c [|d rest]]]].
    + split; [reflexivity | congruence].
    + split; intros; cbv [bytes_of_sextets length]; lia.
    + split; intros; change (length (bytes_of_sextets [a; b])) with 1;
        cbn [length]; lia.
    + split; intros; change (length (bytes_of_sextets [a; b; c])) with 2;
        cbn [length]; lia.
    + rewrite bytes_length_four. cbn [length] in *.
      destruct (IH rest) as [Hle _]; [lia|]. split; intros; lia.
Qed.

Lemma bytes_shorter (vs : list N) :
  vs <> [] -> length (bytes_of_sextets vs) < length vs.
Proof. apply (bytes_shorter_aux (length vs) vs (le_n _)). Qed.

Lemma strip_padding_length (t : jsstring) : length (strip_padding t) <= length t.
Proof.
  unfold strip_padding. destruct (Nat.eqb _ 0); [|lia].
  rewrite length_rev, <- (length_rev t).
  destruct (rev t) as [|c1 [|c2 r]]; cbn; [lia| |].
  - destruct (N.eqb c1 pad); cbn; lia.
  - destruct (N.eqb c1 pad); [destruct (N.eqb c2 pad)|]; cbn; lia.
Qed.

Lemma strip_whitespace_length (s : jsstring) :
  length (strip_whitespace s) <= length s.
Proof.
  unfold strip_whitespace. induction s as [|c s IH]; cbn; [lia|].
  destruct (negb _); cbn; lia.
Qed.

(** The only string [atob] maps to itself is the empty one. *)
Lemma atob_fixed_point (w : jsstring) : atob w = Normal w -> w = [].
Proof.
  unfold atob. destruct (Nat.eqb _ 1); [discriminate|].
  destruct (sextets _) as [vs|] eqn:Hs; [|discriminate].
  intros H. injection H as H.
  pose proof (sextets_length _ _ Hs) as Hl.
  pose proof (strip_padding_length (strip_whitespace w)) as H1.
  pose proof (strip_whitespace_length w) as H2.
  destruct vs as [|v vs]; [now rewrite <- H|].
  pose proof (bytes_shorter (v :: vs) ltac:(discriminate)) as H3.
  rewrite H in H3. lia.
Qed.

Lemma alphabet_not_whitespace (c : N) :
  in_alphabet c -> is_ascii_whitespace c = false.
Proof.
  intros H. destruct (is_ascii_whitespace c) eqn:E; trivial.
  destruct H. unfold is_ascii_whitespace in E.
  repeat (apply orb_prop in E as [E|E]);
    apply N.eqb_eq in E; subst c; reflexivity.
Qed.

Lemma strip_whitespace_alphabet (s : jsstring) :
  Forall in_alphabet s -> strip_whitespace s = s.
Proof.
  unfold strip_whitespace. induction 1 as [|c s Hc _ IH]; cbn; trivial.
  now rewrite (alphabet_not_whitespace c Hc), IH.
Qed.

Lemma strip_whitespace_app (s t : jsstring) :
  strip_whitespace (s ++ t) = strip_whitespace s ++ strip_whitespace t.
Proof. unfold strip_whitespace. apply List.filter_app. Qed.

(** [atob] reads whatever an encoder writes. *)
Lemma encoded_is_read (s : jsstring) : encoded_base64 s -> valid_base64 s.
Proof.
  intros (body & padding & -> & Hb & Hl & Hp).
  exists body, padding. split; [|split; trivial].
  - rewrite strip_whitespace_app, (strip_whitespace_alphabet _ Hb).
    f_equal. now destruct Hp as [->|[->| ->]].
  - rewrite length_app in Hl.
    destruct Hp as [->|[->| ->]]; cbn [length] in Hl;
      [left | right; left | right; right]; (split; [reflexivity|]).
    + rewrite Nat.add_0_r in Hl. lia.
    + pose proof (Nat.div_mod_eq (length body) 4).
      pose proof (Nat.div_mod_eq (length body + 1) 4).
      pose proof (Nat.mod_upper_bound (length body) 4). lia.
    + pose proof (Nat.div_mod_eq (length body) 4).
      pose proof (Nat.div_mod_eq (length body + 2) 4).
      pose proof (Nat.mod_upper_bound (length body) 4). lia.
Qed.

End DecoderFacts.

Section DecoderClaims.
Import Js Decoder DecoderSpec DecoderFacts.
Local Open Scope list_scope.

(** C4, as stated, fails: "Deutschland" is no Base64 text (eleven
    characters, where an encoder writes groups of four), yet [atob] reads
    its alphabet characters and [decode] returns eight other bytes. *)
Lemma decode_changes_unencoded_text :
  ~ (forall s : jsstring, ~ encoded_base64 s -> decode s = s).
Proof.
  intros H. specialize (H (code_units "Deutschland")).
  assert (Hn : ~ encoded_base64 (code_units "Deutschland")).
  { intros (body & padding & _ & _ & Hl & _). vm_compute in Hl. discriminate Hl. }
  apply H in Hn. vm_compute in Hn. discriminate Hn.
Qed.

(** C4, amended.  [decode] is a function from strings to strings that never
    throws: on every input its completion is normal, and it is the string
    [decode] returns.  That string is the input itself exactly when [atob]
    does not read the input as Base64, or the input is empty.  What [atob]
    reads as Base64 includes every string an encoder writes, and more. *)
Theorem decode_passes_through_unread :
  (forall s : jsstring, decode_completion s = Normal (decode s)) /\
  (forall s : jsstring, decode s = s <-> ~ valid_base64 s \/ s = []) /\
  (forall s : jsstring, encoded_base64 s -> valid_base64 s) /\
  (exists s : jsstring, valid_base64 s /\ ~ encoded_base64 s /\ decode s <> s).
Proof.
  split; [exact decode_completion_normal|].
  split; [|split; [exact encoded_is_read|]].
  - intros s. split.
    + intros H. destruct (decide (valid_base64 s)) as [Hv|Hv]; [right | now left].
      apply atob_accepts_iff in Hv as [r Hr].
      rewrite (decode_valid _ _ Hr) in H. subst r.
      now apply atob_fixed_point.
    + intros [H| ->]; [now apply decode_invalid | reflexivity].
  - exists (code_units "YQ"). split; [|split].
    + apply valid_base64_accepted. vm_compute. reflexivity.
    + intros (body & padding & _ & _ & Hl & _). vm_compute in Hl. discriminate Hl.
    + vm_compute. discriminate.
Qed.

Lemma decode_passes_through_unread_witness :
  ~ valid_base64 (code_units "sebastian-gerken@hotmail.com") /\
  decode (code_units "sebastian-gerken@hotmail.com")
  = code_units "sebastian-gerken@hotmail.com".
Proof.
  assert (H : ~ valid_base64 (code_units "sebastian-gerken@hotmail.com")).
  { rewrite valid_base64_accepted. vm_compute. discriminate. }
  split; [exact H|].
  exact (proj2 (proj1 (proj2 decode_passes_through_unread) _) (or_introl H)).
Defined.

(** C5, as stated, fails: the configured [CONTACT.name] is valid Base64 and
    decodes to "Sebastian Gerken", which [atob] accepts again (it drops the
    blank and reads fifteen alphabet characters), so that a second [decode]
    gives eleven other bytes. *)
Lemma decode_not_idempotent :
  ~ (forall v : jsstring, valid_base64 v -> decode (decode v) = decode v).
Proof.
  intros H. specialize (H (name CONTACT)).
  assert (Hv : valid_base64 (name CONTACT)).
  { apply valid_base64_accepted. vm_compute. reflexivity. }
  apply H in Hv. vm_compute in Hv. discriminate Hv.
Qed.

(** C5, amended.  Decoding twice gives what decoding once gives exactly
    when the decoded string is empty or is not itself valid Base64. *)
Theorem decode_twice (v : jsstring) :
  decode (decode v) = decode v <->
  decode v = [] \/ ~ valid_base64 (decode v).
Proof.
  split.
  - intros H. destruct (decide (valid_base64 (decode v))) as [Hv|Hv];
      [left | now right].
    apply atob_accepts_iff in Hv as [r Hr].
    rewrite (decode_valid _ _ Hr) in H. subst r.
    now apply atob_fixed_point.
  - intros [H|H]; [now rewrite H | now apply decode_invalid].
Qed.

Lemma decode_twice_witness :
  ~ valid_base64 (decode (email CONTACT)) /\
  decode (decode (email CONTACT)) = decode (email CONTACT).
Proof.
  assert (H : ~ valid_base64 (decode (email CONTACT))).
  { rewrite valid_base64_accepted. vm_compute. discriminate. }
  split; [exact H | exact (proj2 (decode_twice _) (or_intror H))].
Defined.

End DecoderClaims.

(* ================================================================== *)
(** * Strings *)
(* ================================================================== *)

Module StringFacts.
Import Js RoleRotation.
Local Open Scope string_scope.

Lemma append_assoc (a b c : string) : (a ++ b) ++ c = a ++ (b ++ c).
Proof.
  induction a as [|x a IH]; [reflexivity|].
  change (String x (((a ++ b) ++ c)) = String x (a ++ b ++ c)).
  now rewrite IH.
Qed.

Lemma append_nil_r (a : string) : a ++ "" = a.
Proof.
  induction a as [|x a IH]; [reflexivity|].
  change (String x (a ++ "") = String x a). now rewrite IH.
Qed.

Lemma substring_all (s : string) : substring 0 (String.length s) s = s.
Proof. induction s as [|c s IH]; [reflexivity|]. cbn. now rewrite IH. Qed.

Lemma length_substring (s : string) (m : nat) :
  m <= String.length s -> String.length (substring 0 m s) = m.
Proof.
  revert m. induction s as [|c s IH]; intros [|m] H; cbn in *; try lia.
  rewrite IH; lia.
Qed.

Lemma length_zero (s : string) : String.length s = 0 -> s = "".
Proof. destruct s; [reflexivity | discriminate]. Qed.

Lemma substring_next (text : string) (i n : nat) :
  i < String.length text ->
  charAt i text ++ substring (S i) n text = substring i (S n) text.
Proof.
  revert i. induction text as [|c s IH]; intros i H; [cbn in H; lia|].
  destruct i as [|i].
  - reflexivity.
  - cbn in H. unfold charAt in *. cbn [String.get substring].
    apply IH. lia.
Qed.

End StringFacts.

(* ================================================================== *)
(** * RoleRotation: proofs *)
(* ================================================================== *)

Module RotationFacts.
Import Js RoleRotation RotationSpec StringFacts.
Local Open Scope string_scope.
Local Open Scope list_scope.

Section WithConfig.
Variable cfg : Config.

Lemma run_plus (a b : nat) (st : State) :
  run cfg (a + b) st = run cfg b (run cfg a st).
Proof.
  revert st. induction a as [|a IH]; intros st; [reflexivity|].
  cbn [Nat.add run]. destruct (step cfg st) as [st'|] eqn:H; [apply IH|].
  destruct b; [reflexivity|]. cbn [run]. now rewrite H.
Qed.

Lemma run_step (n : nat) (st st' : State) :
  step cfg st = Some st' -> run cfg (S n) st = run cfg n st'.
Proof. intros H. cbn [run]. now rewrite H. Qed.

Lemma step_timer (st : State) due cb q :
  microtasks st = [] -> timers st = (due, cb) :: q ->
  step cfg st
  = Some (fire cfg cb (set_now (Nat.max (now st) due) (set_timers q st))).
Proof. intros Hm Ht. unfold step. now rewrite Hm, Ht. Qed.

Lemma step_microtask (st : State) k ks :
  microtasks st = k :: ks ->
  step cfg st = Some (resume cfg k (set_microtasks ks st)).
Proof. intros Hm. unfold step. now rewrite Hm. Qed.

Lemma resolve_fields (k : Kont) (st : State) :
  timers (resolve k st) = timers st /\
  microtasks (resolve k st) = microtasks st ++ pending k /\
  frames (resolve k st) = frames st /\
  currentRoleIndex (resolve k st) = currentRoleIndex st /\
  nextId (resolve k st) = nextId st /\
  roleAnimationId (resolve k st) = roleAnimationId st /\
  log (resolve k st) = log st /\
  roleText (resolve k st) = roleText st /\
  tagsContainer (resolve k st) = tagsContainer st.
Proof. destruct k; cbn; rewrite ?app_nil_r; auto 10. Qed.

Ltac resolve_fields k st :=
  let H := fresh in
  pose proof (resolve_fields k st) as H;
  destruct H as (? & ? & ? & ? & ? & ? & ? & ? & ?).

(** *** Typing *)

Lemma type_tick (text : string) (k : Kont) (i : nat) (st : State) :
  i < String.length text -> timers st = [] -> microtasks st = [] ->
  exists st2,
    step cfg (type cfg text i k st) = Some (type cfg text (S i) k st2) /\
    ticked (Tick typing) (roleText st ++ charAt i text)%string st st2.
Proof.
  intros Hi Ht Hm. unfold type at 1.
  replace (Nat.ltb i (String.length text)) with true
    by (symmetry; apply Nat.ltb_lt; lia).
  eexists. split.
  - erewrite step_timer;
      [ | exact Hm | unfold setTimeout; cbn; rewrite Ht; reflexivity].
    cbn [fire]. reflexivity.
  - unfold ticked. cbn. auto 10.
Qed.

Lemma type_done (text : string) (k : Kont) (i : nat) (st : State) :
  String.length text <= i ->
  type cfg text i k st = resolve k (record (End typing) st).
Proof.
  intros Hi. unfold type.
  now replace (Nat.ltb i (String.length text)) with false
    by (symmetry; apply Nat.ltb_ge; lia).
Qed.

Lemma substring_none (text : string) (i : nat) : substring i 0 text = "".
Proof. revert i. induction text; intros [|i]; cbn; auto. Qed.

Lemma typing_runs (text : string) (k : Kont) (n : nat) :
  forall (i : nat) (st : State),
    i + n = String.length text ->
    timers st = [] -> microtasks st = [] ->
    let st' := run cfg n (type cfg text i k st) in
    settled k (repeat (Tick typing) n ++ [End typing]) st st' /\
    roleText st' = (roleText st ++ substring i n text)%string /\
    tagsContainer st' = tagsContainer st.
Proof.
  induction n as [|n IH]; intros i st Hlen Ht Hm; cbn zeta.
  - rewrite type_done by lia. cbn [run].
    resolve_fields k (record (End typing) st).
    unfold settled. cbn in *. rewrite substring_none, append_nil_r.
    repeat split; try congruence. now rewrite H0, Hm.
  - assert (Hi : i < String.length text) by lia.
    destruct (type_tick text k i st Hi Ht Hm)
      as (st2 & Hstep & T1 & T2 & T3 & T4 & T5 & T9 & T6 & T7 & T8).
    cbn [run]. rewrite Hstep.
    destruct (IH (S i) st2) as (Hs & Hr & Hc); [lia | exact T1 | exact T2 |].
    destruct Hs as (H1 & H2 & H3 & H4 & H5 & H7 & H6).
    unfold settled. rewrite H1, H2, H3, H4, H5, H6, H7, Hr, Hc.
    rewrite T3, T4, T5, T6, T7, T8, T9.
    rewrite append_assoc, (substring_next _ _ _ Hi), <- app_assoc.
    repeat split.
Qed.

(** *** Deleting *)

Lemma deleteChar_tick (k : Kont) (st : State) :
  0 < String.length (roleText st) -> timers st = [] -> microtasks st = [] ->
  exists st2,
    step cfg (deleteChar cfg k st) = Some (deleteChar cfg k st2) /\
    ticked (Tick deleting) (slice_last (roleText st)) st st2.
Proof.
  intros Hi Ht Hm. unfold deleteChar at 1. cbn zeta.
  replace (Nat.ltb 0 (String.length (roleText st))) with true
    by (symmetry; apply Nat.ltb_lt; lia).
  eexists. split.
  - erewrite step_timer;
      [ | exact Hm | unfold setTimeout; cbn; rewrite Ht; reflexivity].
    cbn [fire]. reflexivity.
  - unfold ticked. cbn. auto 10.
Qed.

Lemma deleting_runs (k : Kont) (n : nat) :
  forall st : State,
    String.length (roleText st) = n ->
    timers st = [] -> microtasks st = [] ->
    let st' := run cfg n (deleteChar cfg k st) in
    settled k (repeat (Tick deleting) n ++ [End deleting]) st st' /\
    roleText st' = "" /\
    tagsContainer st' = tagsContainer st.
Proof.
  induction n as [|n IH]; intros st Hlen Ht Hm; cbn zeta.
  - unfold deleteChar. rewrite Hlen. cbn [Nat.ltb Nat.leb run].
    resolve_fields k (record (End deleting) st).
    unfold settled. cbn in *. rewrite (length_zero _ Hlen) in *.
    repeat split; try congruence. now rewrite H0, Hm.
  - destruct (deleteChar_tick k st)
      as (st2 & Hstep & T1 & T2 & T3 & T4 & T5 & T9 & T6 & T7 & T8);
      [lia | exact Ht | exact Hm |].
    cbn [run]. rewrite Hstep.
    destruct (IH st2) as (Hs & Hr & Hc); [|exact T1 | exact T2 |].
    { rewrite T7. unfold slice_last. rewrite length_substring; lia. }
    destruct Hs as (H1 & H2 & H3 & H4 & H5 & H7 & H6).
    unfold settled. rewrite H1, H2, H3, H4, H5, H6, H7, Hr, Hc.
    rewrite T3, T4, T5, T6, T8, T9, <- app_assoc.
    repeat split.
Qed.

(** *** Tagging *)

Lemma enqueue_last (due : nat) (cb : Callback) (q : list (nat * Callback)) :
  Forall (fun t => fst t <= due) q -> enqueue due cb q = q ++ [(due, cb)].
Proof.
  induction 1 as [|[d c] q Hd _ IH]; [reflexivity|].
  cbn [enqueue fst] in *. replace (Nat.ltb due d) with false
    by (symmetry; apply Nat.ltb_ge; lia).
  now rewrite IH.
Qed.

Lemma forEach_tag_timers (count : nat) (k : Kont) (tags : list string) :
  forall (index : nat) (st : State),
    Forall (fun t => fst t <= now st + index * 100) (timers st) ->
    forEach_tag tags index count k st
    = set_timers (timers st ++ tag_timers (now st) index count k tags) st.
Proof.
  induction tags as [|tag rest IH]; intros index st Hq.
  - destruct st. cbn. now rewrite app_nil_r.
  - cbn [forEach_tag tag_timers]. unfold setTimeout.
    rewrite (enqueue_last _ _ _ Hq). rewrite IH.
    + unfold set_timers. cbn. now rewrite <- app_assoc.
    + cbn. apply Forall_app. split.
      * eapply Forall_impl; [exact Hq|]. cbn. intros; lia.
      * repeat constructor. cbn. lia.
Qed.

Lemma tag_timers_run (count : nat) (k : Kont) (base : nat) (rest : list string) :
  forall (tag : string) (index : nat) (st : State),
    timers st = tag_timers base index count k (tag :: rest) ->
    microtasks st = [] ->
    index + S (length rest) = count ->
    let st' := run cfg (S (length rest)) st in
    settled k (repeat (Tick tagging) (S (length rest)) ++ [End tagging]) st st' /\
    tagsContainer st' = tagsContainer st ++ tag_spans index (tag :: rest) /\
    roleText st' = roleText st.
Proof.
  induction rest as [|tag' rest IH]; intros tag index st Ht Hm Hc; cbn zeta.
  - cbn [length run]. rewrite (step_timer _ _ _ _ Hm Ht). cbn [fire].
    unfold appendTag. replace (Nat.eqb index (count - 1)) with true
      by (symmetry; apply Nat.eqb_eq; cbn in Hc; lia).
    match goal with |- context [resolve k ?s] => resolve_fields k s end.
    unfold settled. cbn in *. rewrite Hm in *.
    repeat split; try congruence;
      (etransitivity; [eassumption|]); now rewrite <- ?app_assoc.
  - cbn [length]. rewrite (run_step _ _ _ (step_timer _ _ _ _ Hm Ht)).
    cbn [fire].
    unfold appendTag. replace (Nat.eqb index (count - 1)) with false
      by (symmetry; apply Nat.eqb_neq; cbn in Hc; lia).
    match goal with |- context [run cfg _ ?s] => set (st2 := s) end.
    destruct (IH tag' (S index) st2) as (Hs & Hcont & Hr);
      [reflexivity | exact Hm | cbn in Hc |- *; lia |].
    destruct Hs as (H1 & H2 & H3 & H4 & H5 & H7 & H6).
    unfold settled. rewrite H1, H2, H3, H4, H5, H6, H7, Hcont, Hr.
    cbn. rewrite <- !app_assoc. repeat split.
Qed.

Lemma tagging_runs (tags : list string) (k : Kont) (st : State) :
  timers st = [] -> microtasks st = [] ->
  let st' := run cfg (length tags) (showTags tags k st) in
  settled k ([Begin tagging] ++ repeat (Tick tagging) (length tags)
             ++ [End tagging]) st st' /\
  tagsContainer st' = tag_spans 0 tags /\
  roleText st' = roleText st.
Proof.
  intros Ht Hm. cbn zeta. unfold showTags. destruct tags as [|tag rest].
  - cbn [length Nat.eqb run].
    match goal with |- context [resolve k ?s] => resolve_fields k s end.
    unfold settled. cbn in *. rewrite Hm in *.
    repeat split; try congruence;
      (etransitivity; [eassumption|]); now rewrite <- ?app_assoc.
  - cbn [length Nat.eqb]. rewrite forEach_tag_timers
      by (cbn; rewrite Ht; constructor).
    match goal with |- context [run cfg _ ?s] => set (st1 := s) end.
    destruct (tag_timers_run (S (length rest)) k (now st) rest tag 0 st1)
      as (Hs & Hcont & Hr);
      [unfold st1; cbn; now rewrite Ht | exact Hm | reflexivity |].
    destruct Hs as (H1 & H2 & H3 & H4 & H5 & H7 & H6).
    unfold settled. rewrite H1, H2, H3, H4, H5, H6, H7, Hcont, Hr.
    cbn. rewrite <- !app_assoc. repeat split.
Qed.

(** *** Pausing *)

Lemma pausing_runs (ms : nat) (k : Kont) (st : State) :
  timers st = [] -> microtasks st = [] ->
  let st' := run cfg 1 (wait ms k st) in
  settled k [Begin pausing; End pausing] st st' /\
  tagsContainer st' = tagsContainer st /\
  roleText st' = roleText st.
Proof.
  intros Ht Hm. cbn zeta. unfold wait.
  erewrite run_step;
    [ | erewrite step_timer;
        [reflexivity | exact Hm | unfold setTimeout; cbn; rewrite Ht; reflexivity]].
  cbn [run fire].
  match goal with |- context [resolve k ?s] => resolve_fields k s end.
  unfold settled. cbn in *. rewrite Hm in *.
  repeat split; try congruence;
    (etransitivity; [eassumption|]); now rewrite <- ?app_assoc.
Qed.

(** *** One turn of the rotation *)

(** A settled state runs the continuation that was waiting. *)
Lemma settled_step (k : Kont) (evs : list Event) (st st' : State) :
  settled k evs st st' -> k <> detached ->
  step cfg st' = Some (resume cfg k (set_microtasks [] st')).
Proof.
  intros (_ & Hm & _) Hk. apply step_microtask. rewrite Hm.
  destruct k; try reflexivity. contradiction.
Qed.

Lemma one_turn (st : State) (role : Role) :
  timers st = [] -> microtasks st = [] ->
  nth_error (roles cfg) (currentRoleIndex st) = Some role ->
  let st' := run cfg (turn_length role) (typeRole cfg st) in
  log st' = log st ++ turn_events role /\
  currentRoleIndex st' = (currentRoleIndex st + 1) mod length (roles cfg) /\
  timers st' = [] /\ microtasks st' = [] /\
  frames st' = frames st ++ [nextId st] /\
  roleAnimationId st' = Some (nextId st) /\
  roleText st' = "" /\
  tagsContainer st' = tag_spans 0 (tags role).
Proof.
  intros Ht Hm Hrole. cbn zeta. unfold typeRole. rewrite Hrole.
  unfold typeText, turn_length, turn_events.
  set (L := String.length (title role)). set (T := length (tags role)).
  replace (2 * L + T + 5) with (L + (1 + (T + (1 + (1 + (1 + (L + 1)))))))
    by lia.
  (* typing *)
  set (s0 := set_roleText "" (record (Begin typing) (clearTags st))).
  destruct (typing_runs (title role) (after_typeText role) L 0 s0)
    as (S1 & R1 & _); [reflexivity | exact Ht | exact Hm |].
  unfold L in R1 at 2. rewrite substring_all in R1.
  change (roleText s0) with "" in R1. cbn [String.append] in R1.
  rewrite run_plus. set (s1 := run cfg L _) in *. clearbody s1.
  rewrite run_plus, (run_step 0 _ _ (settled_step _ _ _ _ S1 ltac:(discriminate))).
  cbn [run resume].
  (* tagging *)
  destruct S1 as (A1 & A2 & A3 & A4 & A5 & A7 & A6).
  change (frames s0) with (frames st) in A3.
  change (currentRoleIndex s0) with (currentRoleIndex st) in A4.
  change (nextId s0) with (nextId st) in A5.
  change (log s0) with (log st ++ [Begin typing]) in A6.
  clearbody s0.
  destruct (tagging_runs (tags role) after_showTags (set_microtasks [] s1))
    as (S2 & C2 & R2); [exact A1 | reflexivity |].
  change (length (tags role)) with T in S2, C2, R2.
  rewrite run_plus. set (s2 := run cfg T _) in *. clearbody s2.
  rewrite run_plus, (run_step 0 _ _ (settled_step _ _ _ _ S2 ltac:(discriminate))).
  cbn [run resume].
  (* pausing *)
  destruct S2 as (B1 & B2 & B3 & B4 & B5 & B7 & B6).
  cbn [frames currentRoleIndex nextId log roleText set_microtasks] in B3, B4, B5, B6, R2.
  destruct (pausing_runs (pauseBetweenRoles cfg) after_wait (set_microtasks [] s2))
    as (S3 & C3 & R3); [exact B1 | reflexivity |].
  rewrite run_plus. set (s3 := run cfg 1 _) in *. clearbody s3.
  rewrite run_plus, (run_step 0 _ _ (settled_step _ _ _ _ S3 ltac:(discriminate))).
  cbn [run resume]. unfold deleteText.
  (* deleting *)
  destruct S3 as (D1 & D2 & D3 & D4 & D5 & D7 & D6).
  cbn [frames currentRoleIndex nextId log roleText tagsContainer set_microtasks]
    in D3, D4, D5, D6, R3, C3.
  destruct (deleting_runs after_deleteText L
              (record (Begin deleting) (set_microtasks [] s3)))
    as (S4 & R4 & C4); [|exact D1 | reflexivity |].
  { change (String.length (roleText s3) = L). now rewrite R3, R2, R1. }
  rewrite run_plus. set (s4 := run cfg L _) in *. clearbody s4.
  rewrite (run_step 0 _ _ (settled_step _ _ _ _ S4 ltac:(discriminate))).
  cbn [run resume].
  destruct S4 as (E1 & E2 & E3 & E4 & E5 & E7 & E6).
  cbn [frames currentRoleIndex nextId log roleText tagsContainer
       set_microtasks record] in E3, E4, E5, E6, C4.
  unfold requestAnimationFrame, set_currentRoleIndex.
  cbn [frames currentRoleIndex nextId log roleText tagsContainer timers
       microtasks roleAnimationId set_microtasks].
  rewrite E6, D6, B6, A6, E4, D4, B4, A4, E3, D3, B3, A3, E5, D5, B5, A5.
  rewrite C4, C3, C2, E1.
  rewrite <- !app_assoc. cbn [app]. repeat split; assumption.
Qed.

(** *** The spans of a role *)

Lemma tag_spans_length (tags : list string) (index : nat) :
  length (tag_spans index tags) = length tags.
Proof.
  revert index. induction tags as [|t ts IH]; intros index; cbn; auto.
Qed.

Lemma tag_spans_text (tags : list string) (index : nat) :
  map textContent (tag_spans index tags) = tags.
Proof.
  revert index. induction tags as [|t ts IH]; intros index; [reflexivity|].
  cbn [tag_spans map]. rewrite IH. f_equal. now destruct index.
Qed.

Lemma tag_spans_class (tags : list string) (index : nat) :
  Forall (fun span => contains "tag" span = true) (tag_spans index tags).
Proof.
  revert index. induction tags as [|t ts IH]; intros index; constructor; auto.
  now destruct index.
Qed.

Lemma tag_spans_plain (tags : list string) (index : nat) :
  Forall (fun span => contains "tag--highlight" span = false)
         (tag_spans (S index) tags).
Proof.
  revert index. induction tags as [|t ts IH]; intros index; constructor; auto.
Qed.

End WithConfig.
End RotationFacts.


Section RotationClaims.
Import Js RoleRotation RotationSpec RotationFacts Samples.
Local Open Scope string_scope.
Local Open Scope list_scope.

(** C6.  When reduced motion is preferred (and the two elements are on the
    page, with nothing scheduled yet), [init] shows the first role and
    nothing else: the text is the title of role 0; once the timers of
    [showTags] have fired, one per tag, the container holds exactly one
    [tag] element per tag of that role, in order, the first of them (if
    there is one) with [tag--highlight] and no other; then nothing is left
    to run, no animation frame was requested, and only [showTags] ran. *)
Theorem reduced_motion_renders_once
    (cfg : Config) (env : Env) (st : State) (role : Role) :
  hasRoleText env = true -> hasTagsContainer env = true ->
  prefersReducedMotion env = true ->
  timers st = [] -> microtasks st = [] -> frames st = [] ->
  nth_error (roles cfg) 0 = Some role ->
  let st' := run cfg (length (tags role)) (init cfg env st) in
  roleText st' = title role /\
  length (tagsContainer st') = length (tags role) /\
  map textContent (tagsContainer st') = tags role /\
  Forall (fun span => contains "tag" span = true) (tagsContainer st') /\
  (0 < length (tags role) ->
   exists span, head (tagsContainer st') = Some span /\
                contains "tag--highlight" span = true) /\
  Forall (fun span => contains "tag--highlight" span = false)
         (tail (tagsContainer st')) /\
  step cfg st' = None /\
  roleAnimationId st' = roleAnimationId st /\
  frames st' = [] /\
  log st' = log st ++ [Begin tagging]
            ++ repeat (Tick tagging) (length (tags role)) ++ [End tagging].
Proof.
  intros H1 H2 H3 Ht Hm Hf Hrole. cbn zeta.
  unfold init, showStaticRole. rewrite H1, H2, H3, Hrole. cbn [negb orb].
  destruct (tagging_runs cfg (tags role) detached
              (set_roleText (title role) st))
    as ((S1 & S2 & S3 & S4 & S5 & S7 & S6) & C & R); [exact Ht | exact Hm |].
  set (st' := run cfg _ _) in *.
  cbn [frames roleAnimationId log roleText set_roleText] in S3, S7, S6, R.
  rewrite R, C, tag_spans_length, tag_spans_text.
  repeat split; trivial.
  - apply tag_spans_class.
  - destruct (tags role) as [|t ts]; cbn; [lia|]. eauto.
  - destruct (tags role) as [|t ts]; cbn; [constructor|].
    apply tag_spans_plain.
  - unfold step. now rewrite S2, S1, S3, Hf.
  - congruence.
Qed.

Lemma reduced_motion_renders_once_witness :
  let st' := run CONFIG 4 (init CONFIG reduced initial_state) in
  roleText st' = "Traffic Engineer" /\
  map textContent (tagsContainer st')
  = ["Traffic Flow"; "Signal Timing"; "Safety Analysis"; "Simulation"] /\
  map classList (tagsContainer st')
  = [["tag"; "tag--highlight"]; ["tag"]; ["tag"]; ["tag"]] /\
  step CONFIG st' = None.
Proof.
  pose proof (reduced_motion_renders_once CONFIG reduced initial_state
                traffic_engineer
                eq_refl eq_refl eq_refl eq_refl eq_refl eq_refl eq_refl)
    as (H1 & _ & H3 & _ & _ & _ & H7 & _).
  cbn zeta.
  split; [exact H1 | split; [exact H3 | split; [vm_compute; reflexivity | exact H7]]].
Defined.

(** C7.  With reduced motion not preferred, [init] starts [typeRole]; and
    a call of [typeRole] with nothing else scheduled runs one turn for the
    role at [currentRoleIndex]: [typeText] from its call to the resolution
    of its promise, with one tick per character of the title, then
    [showTags] likewise with one tick per tag, then [wait], then
    [deleteText] with one tick per character, each method called only after
    the promise of the one before it was resolved.  After that
    [currentRoleIndex] is the old one plus one modulo the number of roles,
    which is 0 after the last role, and all that is left to run is the
    animation frame that calls [typeRole] again. *)
Theorem rotation_turn_is_serial
    (cfg : Config) (env : Env) (st : State) (role : Role) :
  hasRoleText env = true -> hasTagsContainer env = true ->
  prefersReducedMotion env = false ->
  timers st = [] -> microtasks st = [] -> frames st = [] ->
  nth_error (roles cfg) (currentRoleIndex st) = Some role ->
  let st' := run cfg (turn_length role) (typeRole cfg st) in
  init cfg env st = typeRole cfg st /\
  log st' = log st ++ turn_events role /\
  currentRoleIndex st' = (currentRoleIndex st + 1) mod length (roles cfg) /\
  (S (currentRoleIndex st) = length (roles cfg) -> currentRoleIndex st' = 0) /\
  timers st' = [] /\ microtasks st' = [] /\
  step cfg st' = Some (typeRole cfg (set_frames [] st')).
Proof.
  intros H1 H2 H3 Ht Hm Hf Hrole. cbn zeta.
  destruct (one_turn cfg st role Ht Hm Hrole)
    as (Hlog & Hidx & Ht' & Hm' & Hf' & _).
  split; [|split; [exact Hlog|split; [exact Hidx|split;
    [|split; [exact Ht'|split; [exact Hm'|]]]]]].
  - unfold init. now rewrite H1, H2, H3.
  - intros Hlast. rewrite Hidx, Nat.add_1_r, Hlast.
    apply Nat.Div0.mod_same.
  - unfold step. now rewrite Hm', Ht', Hf', Hf.
Qed.

Lemma rotation_turn_is_serial_witness :
  let st' := run CONFIG 41 (typeRole CONFIG initial_state) in
  log st' =
    [Begin typing] ++ repeat (Tick typing) 16 ++ [End typing; Begin tagging]
    ++ repeat (Tick tagging) 4
    ++ [End tagging; Begin pausing; End pausing; Begin deleting]
    ++ repeat (Tick deleting) 16 ++ [End deleting] /\
  currentRoleIndex st' = 1.
Proof.
  pose proof (rotation_turn_is_serial CONFIG animated initial_state
                traffic_engineer
                eq_refl eq_refl eq_refl eq_refl eq_refl eq_refl eq_refl)
    as (_ & Hlog & Hidx & _).
  cbn zeta. split; [exact Hlog | exact Hidx].
Defined.

(** The configured rotation is back at its first role after the fourth. *)
Lemma configured_rotation_wraps :
  currentRoleIndex (run CONFIG (41 + 1 + 61 + 1 + 59 + 1 + 45)
                      (typeRole CONFIG initial_state)) = 0.
Proof. vm_compute. reflexivity. Qed.

End RotationClaims.

(* ================================================================== *)
(** * Numbers: proofs *)
(* ================================================================== *)

Module NumberFacts.
Import Js.
Local Open Scope Q_scope.

(** ** Powers of two *)

Lemma two_not_zero : ~ 2 == 0.
Proof. discriminate. Qed.

Lemma pow2_pos (z : Z) : 0 < pow2 z.
Proof. apply Qpower_0_lt. reflexivity. Qed.

Lemma pow2_add (a b : Z) : pow2 (a + b) == pow2 a * pow2 b.
Proof. apply Qpower_plus, two_not_zero. Qed.

Lemma pow2_le (a b : Z) : (a <= b)%Z -> pow2 a <= pow2 b.
Proof. intros H. apply Qpower_le_compat_l; [exact H | discriminate]. Qed.

Lemma pow2_lt (a b : Z) : (a < b)%Z -> pow2 a < pow2 b.
Proof. intros H. apply Qpower_lt_compat_l; [exact H | reflexivity]. Qed.

Lemma pow2_lt_inv (a b : Z) : pow2 a < pow2 b -> (a < b)%Z.
Proof. intros H. apply (Qpower_lt_compat_l_inv 2); [exact H | reflexivity]. Qed.

Lemma pow2_Z (z : Z) : (0 <= z)%Z -> pow2 z == inject_Z (2 ^ z).
Proof. intros H. symmetry. apply (Zpower_Qpower 2 z H). Qed.

(** [x / pow2 u] against a power of two. *)
Lemma scaled_lt (x : Q) (a u : Z) : x < pow2 a -> x / pow2 u < pow2 (a - u).
Proof.
  intros H. apply Qlt_shift_div_r; [apply pow2_pos|].
  rewrite <- pow2_add. now replace (a - u + u)%Z with a by lia.
Qed.

Lemma scaled_le (x : Q) (a u : Z) : pow2 a <= x -> pow2 (a - u) <= x / pow2 u.
Proof.
  intros H. apply Qle_shift_div_l; [apply pow2_pos|].
  rewrite <- pow2_add. now replace (a - u + u)%Z with a by lia.
Qed.

(** ** The binade of a positive rational *)

Lemma ilog2_spec (q : Q) :
  0 < q -> pow2 (ilog2 q) <= q /\ q < pow2 (ilog2 q + 1).
Proof.
  intros Hq. destruct q as [a b]. unfold ilog2. cbn [Qnum Qden].
  assert (Ha : (0 < a)%Z).
  { unfold Qlt in Hq. cbn in Hq. lia. }
  pose proof (Z.log2_spec a Ha) as [A1 A2].
  pose proof (Z.log2_spec (Z.pos b) (Pos2Z.is_pos b)) as [B1 B2].
  pose proof (Z.log2_nonneg a) as La.
  pose proof (Z.log2_nonneg (Z.pos b)) as Lb.
  set (la := Z.log2 a) in *. set (lb := Z.log2 (Z.pos b)) in *.
  assert (QA1 : pow2 la <= inject_Z a)
    by (rewrite pow2_Z by lia; now rewrite <- Zle_Qle).
  assert (QA2 : inject_Z a < pow2 (la + 1))
    by (rewrite pow2_Z by lia; now rewrite <- Zlt_Qlt).
  assert (QB1 : pow2 lb <= inject_Z (Z.pos b))
    by (rewrite pow2_Z by lia; now rewrite <- Zle_Qle).
  assert (QB2 : inject_Z (Z.pos b) < pow2 (lb + 1))
    by (rewrite pow2_Z by lia; now rewrite <- Zlt_Qlt).
  assert (Hb : 0 < inject_Z (Z.pos b)) by reflexivity.
  assert (E : a # b == inject_Z a / inject_Z (Z.pos b)) by apply Qmake_Qdiv.
  destruct (Qle_bool (pow2 (la - lb)) (a # b)) eqn:Hc.
  - apply Qle_bool_iff in Hc. split; [exact Hc|]. rewrite E.
    apply Qlt_shift_div_r; [exact Hb|].
    apply Qlt_le_trans with (pow2 (la + 1)); [exact QA2|].
    replace (la + 1)%Z with ((la - lb + 1) + lb)%Z by lia.
    rewrite pow2_add. apply Qmult_le_l; [apply pow2_pos | exact QB1].
  - assert (Hlt : a # b < pow2 (la - lb)).
    { apply Qnot_le_lt. intros H. apply Qle_bool_iff in H. congruence. }
    split.
    + rewrite E. apply Qle_shift_div_l; [exact Hb|].
      apply Qle_trans with (pow2 la); [|exact QA1].
      replace la with ((la - lb - 1) + (lb + 1))%Z at 2 by lia.
      rewrite pow2_add. apply Qmult_le_l; [apply pow2_pos|].
      now apply Qlt_le_weak.
    + now replace (la - lb - 1 + 1)%Z with (la - lb)%Z by lia.
Qed.

Lemma ilog2_unique (q : Q) (e : Z) :
  pow2 e <= q -> q < pow2 (e + 1) -> ilog2 q = e.
Proof.
  intros H1 H2.
  assert (Hq : 0 < q) by (eapply Qlt_le_trans; [apply pow2_pos | exact H1]).
  destruct (ilog2_spec q Hq) as [S1 S2].
  assert (e < ilog2 q + 1)%Z
    by (apply pow2_lt_inv; eapply Qle_lt_trans; eassumption).
  assert (ilog2 q < e + 1)%Z
    by (apply pow2_lt_inv; eapply Qle_lt_trans; eassumption).
  lia.
Qed.

Lemma ilog2_mono (q q' : Q) : 0 < q -> q <= q' -> (ilog2 q <= ilog2 q')%Z.
Proof.
  intros Hq Hle.
  assert (Hq' : 0 < q') by (eapply Qlt_le_trans; eassumption).
  destruct (ilog2_spec q Hq) as [S1 _].
  destruct (ilog2_spec q' Hq') as [_ S2].
  assert (ilog2 q < ilog2 q' + 1)%Z; [|lia].
  apply pow2_lt_inv. eapply Qle_lt_trans; [exact S1|].
  eapply Qle_lt_trans; eassumption.
Qed.

(** ** Rounding to the nearest integer, ties to even *)

Lemma ties_bounds (x : Q) :
  (Qfloor x <= ties_to_even x <= Qfloor x + 1)%Z.
Proof.
  unfold ties_to_even. cbn zeta.
  destruct (_ ?= _); [destruct (Z.even _)| |]; lia.
Qed.

Lemma ties_comp (x y : Q) : x == y -> ties_to_even x = ties_to_even y.
Proof.
  intros H. unfold ties_to_even. cbn zeta.
  rewrite (Qfloor_comp x y H).
  now rewrite (Qcompare_comp (x - inject_Z (Qfloor y)) (y - inject_Z (Qfloor y))
                 ltac:(now rewrite H) (1 # 2) (1 # 2) ltac:(reflexivity)).
Qed.

Lemma ties_Z (z : Z) : ties_to_even (inject_Z z) = z.
Proof.
  unfold ties_to_even. cbn zeta. rewrite Qfloor_Z.
  destruct (Qcompare_spec (inject_Z z - inject_Z z) (1 # 2)) as [H|H|H];
    [exfalso; lra | reflexivity | exfalso; lra].
Qed.

Lemma ties_mono (x y : Q) : x <= y -> (ties_to_even x <= ties_to_even y)%Z.
Proof.
  intros H. pose proof (Qfloor_resp_le x y H) as Hf.
  pose proof (ties_bounds x) as Bx. pose proof (ties_bounds y) as By.
  destruct (Z.eq_dec (Qfloor x) (Qfloor y)) as [E|E]; [|lia].
  unfold ties_to_even. cbn zeta. rewrite E.
  destruct (Qcompare_spec (x - inject_Z (Qfloor y)) (1 # 2)) as [Hx|Hx|Hx];
    destruct (Qcompare_spec (y - inject_Z (Qfloor y)) (1 # 2)) as [Hy|Hy|Hy];
    try destruct (Z.even (Qfloor y)); try lia; exfalso; lra.
Qed.

(** ** Rounding to the nearest double *)

Lemma scale_mono (q : Q) :
  forall q', 0 < q -> q <= q' ->
    (Z.max (ilog2 q - 52) (-1074) <= Z.max (ilog2 q' - 52) (-1074))%Z.
Proof. intros q' Hq Hle. pose proof (ilog2_mono q q' Hq Hle). lia. Qed.

Lemma rounded_nonneg (q : Q) : 0 < q -> 0 <= rounded q.
Proof.
  intros Hq. unfold rounded. cbn zeta.
  set (u := Z.max _ _).
  apply Qmult_le_0_compat; [|apply Qlt_le_weak, pow2_pos].
  assert (0 <= q / pow2 u).
  { apply Qle_shift_div_l; [apply pow2_pos|]. lra. }
  pose proof (Qfloor_resp_le 0 _ H) as Hf. change (Qfloor 0) with 0%Z in Hf.
  pose proof (ties_bounds (q / pow2 u)).
  rewrite <- (Zle_Qle 0). lia.
Qed.

Lemma rounded_mono (q q' : Q) : 0 < q -> q <= q' -> rounded q <= rounded q'.
Proof.
  intros Hq Hle.
  assert (Hq' : 0 < q') by (eapply Qlt_le_trans; eassumption).
  pose proof (scale_mono q q' Hq Hle) as Hu.
  destruct (ilog2_spec q Hq) as [_ S2].
  destruct (ilog2_spec q' Hq') as [S1' _].
  pose proof (ilog2_mono q q' Hq Hle) as He.
  unfold rounded. cbn zeta.
  set (e := ilog2 q) in *. set (e' := ilog2 q') in *.
  set (u := Z.max (e - 52) (-1074)) in *.
  set (u' := Z.max (e' - 52) (-1074)) in *.
  destruct (Z.eq_dec u u') as [E|E].
  - rewrite <- E. apply Qmult_le_compat_r; [|apply Qlt_le_weak, pow2_pos].
    rewrite <- Zle_Qle. apply ties_mono.
    apply Qle_shift_div_l; [apply pow2_pos|].
    rewrite Qmult_comm, Qmult_div_r; [exact Hle|].
    intros H. pose proof (pow2_pos u). lra.
  - assert (Hu' : u' = (e' - 52)%Z) by lia.
    assert (Hee : (e + 1 <= e')%Z) by lia.
    apply Qle_trans with (pow2 e').
    + (* the smaller one stays below the next binade *)
      set (d := Z.max (e + 1 - u) 0).
      assert (Hx : q / pow2 u <= inject_Z (2 ^ d)).
      { rewrite <- pow2_Z by lia. apply Qlt_le_weak.
        eapply Qlt_le_trans; [apply scaled_lt, S2|]. apply pow2_le. lia. }
      apply ties_mono in Hx. rewrite ties_Z in Hx.
      apply Qle_trans with (inject_Z (2 ^ d) * pow2 u).
      * apply Qmult_le_compat_r; [|apply Qlt_le_weak, pow2_pos].
        now rewrite <- Zle_Qle.
      * rewrite <- pow2_Z, <- pow2_add by lia. apply pow2_le. lia.
    + (* the larger one stays in its binade *)
      assert (Hx : inject_Z (2 ^ 52) <= q' / pow2 u').
      { rewrite <- pow2_Z by lia.
        replace 52%Z with (e' - u')%Z by lia. now apply scaled_le. }
      apply ties_mono in Hx. rewrite ties_Z in Hx.
      apply Qle_trans with (inject_Z (2 ^ 52) * pow2 u').
      * rewrite <- pow2_Z, <- pow2_add by lia. apply pow2_le. lia.
      * apply Qmult_le_compat_r; [|apply Qlt_le_weak, pow2_pos].
        now rewrite <- Zle_Qle.
Qed.

(** A power of two in the range of the doubles is a double. *)
Lemma rounded_pow2 (k : Z) : (-1074 <= k)%Z -> rounded (pow2 k) == pow2 k.
Proof.
  intros Hk. unfold rounded. cbn zeta.
  rewrite (ilog2_unique (pow2 k) k);
    [|apply Qle_refl | apply pow2_lt; lia].
  set (u := Z.max (k - 52) (-1074)).
  assert (E : pow2 k / pow2 u == inject_Z (2 ^ (k - u))).
  { rewrite <- pow2_Z by lia. unfold pow2. symmetry.
    apply Qpower_minus, two_not_zero. }
  rewrite (ties_comp _ _ E), ties_Z, <- pow2_Z, <- pow2_add by lia.
  now replace (k - u + u)%Z with k by lia.
Qed.

Lemma round_bounded (q : Q) (k : Z) :
  q <= pow2 k -> (-1074 <= k < 1024)%Z ->
  exists r, round q = Num r /\ 0 <= r <= pow2 k.
Proof.
  intros Hq Hk. unfold round.
  destruct (Qle_bool q 0) eqn:H0.
  - exists 0. split; [reflexivity|]. split; [apply Qle_refl|].
    apply Qlt_le_weak, pow2_pos.
  - assert (Hpos : 0 < q).
    { apply Qnot_le_lt. intros H. apply Qle_bool_iff in H. congruence. }
    assert (Hr : rounded q <= pow2 k).
    { rewrite <- (rounded_pow2 k) by lia. now apply rounded_mono. }
    assert (Hlt : rounded q < pow2 1024).
    { eapply Qle_lt_trans; [exact Hr|]. apply pow2_lt. lia. }
    destruct (Qle_bool (pow2 1024) (rounded q)) eqn:Ho.
    + apply Qle_bool_iff in Ho. lra.
    + exists (Qred (rounded q)). split; [reflexivity|].
      rewrite Qred_correct.
      split; [now apply rounded_nonneg | exact Hr].
Qed.


(** ** Quotients of counts, and percentages *)

Lemma Zpos_of_nat_S (n : nat) : Z.pos (Pos.of_nat (S n)) = Z.of_nat (S n).
Proof. rewrite <- Pos.of_nat_succ, Zpos_P_of_succ_nat. lia. Qed.

Lemma div_unit (v n : nat) :
  (0 < n)%nat -> (v <= n)%nat ->
  exists r, div v n = Num r /\ 0 <= r <= 1.
Proof.
  intros Hn Hv. destruct n as [|n]; [lia|]. cbn [div].
  apply (round_bounded _ 0); [|lia].
  change (pow2 0) with 1. unfold Qle. cbn [Qnum Qden].
  rewrite Zpos_of_nat_S. lia.
Qed.

Lemma percentage_finite (v n : nat) :
  (0 < n)%nat -> (v <= n)%nat ->
  exists p, mul (div v n) 100 = Num p /\ 0 <= p.
Proof.
  intros Hn Hv. destruct (div_unit v n Hn Hv) as (r & -> & R1 & R2).
  cbn [mul].
  destruct (round_bounded (r * inject_Z (Z.of_nat 100)) 7) as (p & E & P1 & _);
    [|lia|].
  - change (pow2 7) with 128. change (inject_Z (Z.of_nat 100)) with 100. lra.
  - exists p. now split.
Qed.


End NumberFacts.

(* ================================================================== *)
(** * ScrollAnimations: proofs *)
(* ================================================================== *)

Module ScrollFacts.
Import Js ScrollAnimations ScrollSpec NumberFacts.
Local Open Scope string_scope.

(** ** Class lists *)

Lemma contains_add (t t' : string) (el : Element) :
  contains t (classList_add t' el) = contains t el || String.eqb t t'.
Proof.
  unfold classList_add. destruct (contains t' el) eqn:H.
  - destruct (String.eqb_spec t t') as [->|]; [|now rewrite orb_false_r].
    now rewrite H.
  - unfold contains. cbn. rewrite existsb_app. cbn. now rewrite orb_false_r.
Qed.

Lemma is_item_add (el : Element) :
  is_item (classList_add "is-visible" el) = is_item el.
Proof. unfold is_item. rewrite contains_add. apply orb_false_r. Qed.

Lemma is_visible_add (el : Element) :
  is_visible (classList_add "is-visible" el) = true.
Proof. unfold is_visible. rewrite contains_add. apply orb_true_r. Qed.

(** ** Counting under an update in place *)

Section Counting.
Context {A : Type} (P : A -> bool).




Lemma count_le_length (l : list A) : length (List.filter P l) <= length l.
Proof. induction l as [|a l IH]; cbn; [lia|]. destruct (P a); cbn; lia. Qed.

End Counting.

(** ** The selectors of [updateTimelineFill] *)

Lemma items_selected (doc : Document) :
  length (querySelectorAll ["timeline__item"] doc) = item_count doc.
Proof.
  unfold querySelectorAll, item_count. f_equal. apply filter_ext.
  intros el. cbn. apply andb_true_r.
Qed.

Lemma visible_selected (doc : Document) :
  length (querySelectorAll ["timeline__item"; "is-visible"] doc)
  = visible_count doc.
Proof.
  unfold querySelectorAll, visible_count. f_equal. apply filter_ext.
  intros el. cbn. now rewrite andb_true_r.
Qed.

Lemma visible_le_items (doc : Document) : visible_count doc <= item_count doc.
Proof.
  unfold visible_count, item_count.
  induction (elements doc) as [|a l IH]; cbn; [lia|].
  destruct (is_item a); cbn; [destruct (is_visible a); cbn; lia | lia].
Qed.

(** The progress of a page with timeline elements is a finite number,
    and it does not go down when more of them are visible. *)
Lemma progress_finite (doc : Document) :
  0 < item_count doc -> exists p, progress doc = Num p.
Proof.
  intros H. destruct (percentage_finite (visible_count doc) (item_count doc) H
                        (visible_le_items doc)) as (p & E & _).
  now exists p.
Qed.


(** For up to forty elements, visible or not, [percent] is what the
    doubles of the kernel give, division by zero included. *)
Lemma percent_is_on_doubles :
  forallb (fun n =>
             forallb (fun v => same_number (percent v n) (percent_on_doubles v n))
                     (seq 0 41))
          (seq 0 41) = true.
Proof. vm_compute. reflexivity. Qed.

(** What [updateTimelineFill] writes, when it writes. *)
Lemma updateTimelineFill_spec (doc : Document) :
  elements (updateTimelineFill doc) = elements doc /\
  (timelineLineFill doc <> None -> 0 < item_count doc ->
   timelineLineFill (updateTimelineFill doc) = Some (Some (progress doc))) /\
  ((timelineLineFill doc = None \/ item_count doc = 0) ->
   updateTimelineFill doc = doc).
Proof.
  unfold updateTimelineFill. rewrite items_selected, visible_selected.
  destruct (timelineLineFill doc) as [h|] eqn:Hf.
  - destruct (Nat.eqb_spec (item_count doc) 0) as [H0|H0].
    + split; [reflexivity|]. split; [lia | reflexivity].
    + cbn [elements timelineLineFill]. split; [reflexivity|]. split.
      * intros _ Hpos. reflexivity.
      * intros [|]; [discriminate | contradiction].
  - split; [reflexivity|]. split; [congruence | reflexivity].
Qed.

(** ** One entry *)










(** [showAll] makes elements visible and leaves the fill alone. *)
Lemma showAll_leaves_fill (doc : Document) :
  timelineLineFill (showAll doc) = timelineLineFill doc.
Proof. reflexivity. Qed.

End ScrollFacts.

Section ScrollClaims.
Import Js ScrollAnimations ScrollSpec ScrollFacts Samples.
Local Open Scope string_scope.

(** C10.  Without a fill element, or without any timeline element,
    [updateTimelineFill] returns the page as it found it; and whenever it
    does change the page, what it writes is a finite number, never the
    [NaN] or [Infinity] of a division by zero. *)
Theorem updateTimelineFill_guards (doc : Document) :
  ((timelineLineFill doc = None \/
    querySelectorAll ["timeline__item"] doc = []) ->
   updateTimelineFill doc = doc) /\
  (updateTimelineFill doc = doc \/
   exists q, timelineLineFill (updateTimelineFill doc) = Some (Some (Num q))).
Proof.
  destruct (updateTimelineFill_spec doc) as (_ & Hw & Hskip). split.
  - intros [H|H]; apply Hskip; [now left | right].
    now rewrite <- items_selected, H.
  - destruct (timelineLineFill doc) as [h|] eqn:Hf; [|left; auto].
    destruct (Nat.eq_dec (item_count doc) 0) as [H0|H0]; [left; auto|].
    right. destruct (progress_finite doc ltac:(lia)) as [p Hp].
    exists p. rewrite <- Hp. apply Hw; [discriminate | lia].
Qed.

Lemma updateTimelineFill_guards_witness :
  updateTimelineFill page_without_items = page_without_items.
Proof.
  apply (proj1 (updateTimelineFill_guards page_without_items)).
  right. reflexivity.
Defined.

End ScrollClaims.

(* ================================================================== *)
(** * DataLoader: proofs *)
(* ================================================================== *)

Module MarkupFacts.
Import Js DataLoader MarkupSpec StringFacts.
Local Open Scope string_scope.

Lemma join_cons (x : string) (xs : list string) : join (x :: xs) = x ++ join xs.
Proof.
  unfold join. destruct xs as [|y ys]; [|reflexivity].
  cbn [String.concat]. now rewrite append_nil_r.
Qed.

Lemma incompatible_no_occurrence (m u t : string) :
  compatible m u = false -> occurs_at m (u ++ t) = false.
Proof.
  revert u. induction m as [|a m IH]; intros [|b u]; cbn [compatible];
    try discriminate.
  change (String b u ++ t) with (String b (u ++ t)). cbn [occurs_at].
  destruct (Ascii.eqb a b); cbn [andb]; [apply IH | reflexivity].
Qed.

(** A clean stretch of text can be skipped when looking for [m]. *)
Lemma occurs_skip_clean (m l t : string) :
  clean m l = true -> occurs m (l ++ t) = occurs m t.
Proof.
  induction l as [|c l IH]; cbn [clean]; intros H; [reflexivity|].
  apply andb_prop in H as [H1 H2]. apply negb_true_iff in H1.
  change (String c l ++ t) with (String c (l ++ t)).
  cbn [occurs].
  change (String c (l ++ t)) with (String c l ++ t).
  rewrite (incompatible_no_occurrence _ _ _ H1). cbn. auto.
Qed.

(** Text without the character [c] is clean for a marker that starts
    with [c]. *)
Lemma free_of_clean (c : ascii) (m f : string) :
  free_of c f = true -> clean (String c m) f = true.
Proof.
  induction f as [|a f IH]; [reflexivity|].
  cbn [clean compatible free_of]. intros H.
  apply andb_prop in H as [H1 H2]. rewrite (IH H2).
  apply negb_true_iff in H1. now rewrite H1.
Qed.

Lemma occurs_at_prefix (m t : string) : occurs_at m (m ++ t) = true.
Proof.
  induction m as [|a m IH]; [reflexivity|].
  change (String a m ++ t) with (String a (m ++ t)). cbn [occurs_at].
  now rewrite Ascii.eqb_refl.
Qed.

Lemma occurs_intro (m a t : string) : occurs m (a ++ m ++ t) = true.
Proof.
  induction a as [|c a IH].
  - change ("" ++ m ++ t) with (m ++ t).
    assert (H : forall s, occurs_at m s = true -> occurs m s = true).
    { intros [|? ?] Hs; cbn [occurs]; rewrite Hs; reflexivity. }
    apply H, occurs_at_prefix.
  - change (String c a ++ m ++ t) with (String c (a ++ m ++ t)).
    cbn [occurs]. rewrite IH. apply orb_true_r.
Qed.

(** *** Looking for the links block in a card *)

Lemma links_marker_shape : exists m, links_marker = String lt_char m.
Proof. eexists. vm_compute. reflexivity. Qed.

Lemma skip_field (f t : string) :
  free_of lt_char f = true ->
  occurs links_marker (f ++ t) = occurs links_marker t.
Proof.
  intros H. apply occurs_skip_clean.
  destruct links_marker_shape as [m ->]. now apply free_of_clean.
Qed.

(** Skip a literal of the template, checked clean by computation. *)
Ltac skip_literal :=
  rewrite occurs_skip_clean by (vm_compute; reflexivity).

Lemma skip_tags (tags : list string) (t : string) :
  forallb (free_of lt_char) tags = true ->
  occurs links_marker (join (map tagSpan tags) ++ t) = occurs links_marker t.
Proof.
  induction tags as [|tag tags IH]; [reflexivity|].
  cbn [forallb map]. intros H. apply andb_prop in H as [Htag Htags].
  rewrite join_cons. unfold tagSpan at 1.
  rewrite !append_assoc. skip_literal. rewrite (skip_field _ _ Htag).
  skip_literal. exact (IH Htags).
Qed.

Lemma skip_tagsBlock (project : Project.t) (t : string) :
  forallb (free_of lt_char) (Project.tags project) = true ->
  occurs links_marker (tagsBlock project ++ t) = occurs links_marker t.
Proof.
  intros H. unfold tagsBlock. destruct (Nat.ltb _ _); [|reflexivity].
  rewrite !append_assoc. skip_literal. rewrite (skip_tags _ _ H).
  skip_literal. reflexivity.
Qed.

Lemma skip_imageBlock (project : Project.t) (t : string) :
  free_of lt_char (Project.title project) = true ->
  free_of lt_char (text_of (Project.image project)) = true ->
  occurs links_marker (imageBlock project ++ t) = occurs links_marker t.
Proof.
  intros Ht Hi. unfold imageBlock. destruct (truthy _).
  - rewrite !append_assoc. skip_literal. rewrite (skip_field _ _ Hi).
    skip_literal. rewrite (skip_field _ _ Ht). skip_literal. reflexivity.
  - unfold placeholder. skip_literal. reflexivity.
Qed.

Lemma skip_cardHead (project : Project.t) (t : string) :
  markup_free project = true ->
  occurs links_marker (cardHead project ++ t) = occurs links_marker t.
Proof.
  unfold markup_free. intros H.
  apply andb_prop in H as [H Hi]. apply andb_prop in H as [H Htags].
  apply andb_prop in H as [Ht Hd]. unfold cardHead.
  rewrite !append_assoc. skip_literal.
  assert (Hclass : clean links_marker (cardClass project) = true).
  { unfold cardClass. destruct (isComingSoon project); vm_compute; reflexivity. }
  rewrite (occurs_skip_clean _ _ _ Hclass). skip_literal.
  rewrite (skip_imageBlock _ _ Ht Hi). skip_literal.
  rewrite (skip_field _ _ Ht). skip_literal.
  rewrite (skip_field _ _ Hd). skip_literal.
  rewrite (skip_tagsBlock _ _ Htags). skip_literal. reflexivity.
Qed.

(** The links block, when there is one, opens with the marker. *)
Lemma linksBlock_opens (project : Project.t) :
  negb (isComingSoon project) && linked project = true ->
  exists inner, linksBlock project = links_marker ++ inner.
Proof.
  intros H. unfold linksBlock. fold (linked project). rewrite H.
  eexists. unfold links_marker.
  change (lit "<div class='project-card__links'>
                    ")
    with (lit "<div class='project-card__links'>" ++ lit "
                    ").
  rewrite append_assoc. reflexivity.
Qed.

Lemma linksBlock_absent (project : Project.t) :
  negb (isComingSoon project) && linked project = false ->
  linksBlock project = "".
Proof.
  intros H. unfold linksBlock. fold (linked project). now rewrite H.
Qed.

End MarkupFacts.

Module DataLoaderFacts.
Import Js DataLoader.
Local Open Scope string_scope.

(** What [renderTimeline] does to a page whose heap holds the input. *)
Lemma renderTimeline_run (pg : Page) (items : nat) (entries : list Timeline.t) :
  heap pg !! items = Some entries ->
  let copy := fresh (dom (heap pg)) in
  let pg1 :=
    set_heap (<[copy := rev entries]> (<[copy := entries]> (heap pg))) pg in
  renderTimeline items pg
  = set_timelineContainer (join (map timelineCard (rev entries))) pg1.
Proof.
  intros H copy pg1. unfold renderTimeline, array_spread, array_reverse,
    array_read, array_new, bind. rewrite H. cbn.
  fold copy. rewrite lookup_insert_eq. cbn. rewrite lookup_insert_eq.
  reflexivity.
Qed.

Lemma fresh_location_differs (h : gmap nat (list Timeline.t)) (l : nat) xs :
  h !! l = Some xs -> l <> fresh (dom h).
Proof.
  intros H ->. apply (is_fresh (dom h)). apply elem_of_dom. eauto.
Qed.

Lemma heap_set_timelineContainer (html : string) (pg : Page) :
  heap (fst (set_timelineContainer html pg)) = heap pg.
Proof.
  unfold set_timelineContainer. destruct (timelineContainer pg); reflexivity.
Qed.

(** [reverse] on the input itself would have changed it. *)
Lemma array_reverse_mutates (pg : Page) (l : nat) (xs : list Timeline.t) :
  heap pg !! l = Some xs ->
  heap (fst (array_reverse l pg)) !! l = Some (rev xs).
Proof.
  intros H. unfold array_reverse, array_read, bind. rewrite H. cbn.
  apply lookup_insert_eq.
Qed.

(** Whatever the network does, [loadProjects] and [loadTimeline] return. *)
Lemma loadProjects_returns (net : Network) (pg : Page) :
  snd (loadProjects net pg) = Normal tt.
Proof.
  unfold loadProjects. destruct (projectsGrid pg) as [old|] eqn:Hg;
    [|reflexivity].
  unfold try_catch, bind, fetch, json, projects_of, renderProjects,
    renderProjectsFallback, set_projectsGrid, console_warn, throw, ret, lift.
  destruct (net _) as [why|[|] [why|[ps|ts|]]]; cbn; rewrite ?Hg;
    try reflexivity.
  destruct (filter_featured ps) as [kept|e]; cbn; rewrite ?Hg;
    [|reflexivity].
  destruct (read_projects kept) as [read|e]; cbn; rewrite ?Hg; reflexivity.
Qed.


End DataLoaderFacts.

Section DataLoaderClaims.
Import Js DataLoader MarkupSpec MarkupFacts DataLoaderFacts Samples.
Local Open Scope string_scope.

(** C1.  When the fetch of the projects feed fails (transport, status or
    body), [loadProjects] returns normally and the projects container, if
    the page has one, holds the fallback fragment.  When the fetch of the
    timeline feed fails, [loadTimeline] returns normally and leaves both
    containers and the heap as they were.  The fallback fragment has
    exactly two cards, titled "Multi-Camera Trajectory Fusion" and "More
    Projects Coming Soon". *)
Theorem load_failure_is_handled (net : Network) (pg : Page) :
  (fetch_failed (net "content/projects.json") ->
   exists pg',
     loadProjects net pg = (pg', Normal tt) /\
     projectsGrid pg' =
       (match projectsGrid pg with
        | Some _ => Some projectsFallbackMarkup
        | None => None
        end) /\
     timelineContainer pg' = timelineContainer pg) /\
  (fetch_failed (net "content/timeline.json") ->
   exists pg',
     loadTimeline net pg = (pg', Normal tt) /\
     timelineContainer pg' = timelineContainer pg /\
     projectsGrid pg' = projectsGrid pg /\
     heap pg' = heap pg) /\
  card_count projectsFallbackMarkup = 2 /\
  card_titles projectsFallbackMarkup =
    ["Multi-Camera Trajectory Fusion"; "More Projects Coming Soon"].
Proof.
  split; [|split; [|split; vm_compute; reflexivity]].
  - intros Hf. unfold loadProjects.
    destruct (projectsGrid pg) as [old|] eqn:Hg.
    + unfold try_catch, bind, fetch, json, renderProjectsFallback,
        set_projectsGrid, console_warn, throw, ret.
      inversion Hf as [why Hn | b Hn | why Hn]; cbn; rewrite Hg; cbn;
        eexists; (split; [reflexivity|]); cbn; auto.
    + eexists. split; [reflexivity|]. rewrite Hg. auto.
  - intros Hf. unfold loadTimeline.
    destruct (timelineContainer pg) as [old|] eqn:Hg.
    + unfold try_catch, bind, fetch, json, console_warn, throw, ret.
      inversion Hf as [why Hn | b Hn | why Hn]; cbn;
        eexists; (split; [reflexivity|]); cbn; auto.
    + eexists. split; [reflexivity|]. auto.
Qed.

Lemma load_failure_is_handled_witness :
  fetch_failed (failing_network "content/projects.json") /\
  fetch_failed (failing_network "content/timeline.json") /\
  loadProjects failing_network empty_page
  = ({| projectsGrid := Some projectsFallbackMarkup;
        timelineContainer := Some "";
        heap := ∅;
        console := [("Projects data not available:", "Failed to load projects")] |},
     Normal tt) /\
  timelineContainer (fst (loadTimeline failing_network empty_page)) = Some "".
Proof.
  assert (Hp : fetch_failed (failing_network "content/projects.json"))
    by (vm_compute; constructor).
  assert (Ht : fetch_failed (failing_network "content/timeline.json"))
    by (vm_compute; constructor).
  destruct (load_failure_is_handled failing_network empty_page)
    as (H1 & H2 & _).
  destruct (H1 Hp) as (pg1 & E1 & G1 & _).
  destruct (H2 Ht) as (pg2 & E2 & G2 & _).
  rewrite E2. cbn [fst]. repeat split; trivial.
Defined.

(** C2.  [renderTimeline] on an array of entries (with the timeline
    container on the page) fills the container with the cards of the
    entries in reverse order: the card of the last entry first. *)
Theorem renderTimeline_reverses
    (pg : Page) (items : nat) (entries : list Timeline.t) (old : string) :
  heap pg !! items = Some entries ->
  timelineContainer pg = Some old ->
  exists pg',
    renderTimeline items pg = (pg', Normal tt) /\
    timelineContainer pg' = Some (join (map timelineCard (rev entries))).
Proof.
  intros Hitems Hc. rewrite (renderTimeline_run _ _ _ Hitems).
  unfold set_timelineContainer. cbn. rewrite Hc.
  eexists. split; reflexivity.
Qed.

Lemma renderTimeline_reverses_witness :
  exists html,
    timelineContainer (fst (renderTimeline 0 three_entries_page)) = Some html /\
    html = timelineCard (entry "2023") ++ timelineCard (entry "2021")
           ++ timelineCard (entry "2019") /\
    exists i j k,
      index_of "2023" html = Some i /\ index_of "2021" html = Some j /\
      index_of "2019" html = Some k /\ i < j < k.
Proof.
  destruct (renderTimeline_reverses three_entries_page 0 three_entries "")
    as (pg' & E & H); [reflexivity | reflexivity |].
  rewrite E. cbn [fst]. eexists. split; [exact H|].
  split; [vm_compute; reflexivity|].
  vm_compute. do 3 eexists. repeat split; lia.
Defined.

(** C3.  On a page with a projects container, [renderProjects] writes
    into the container one card for each project, in the order given.  The
    card of a project is its head, a links block and its tail.  For a
    project whose status is "coming-soon" the links block is empty,
    whatever its links.  For any other status the links block is there,
    opening with its [<div>], when the github or the demo link is a
    non-empty string, and is empty otherwise.  For a project whose texts
    contain no [<], the opening tag of the links block occurs in its card
    exactly in the first of these cases. *)
Theorem links_block_policy
    (pg : Page) (projects : list Project.t) (old : string) :
  projectsGrid pg = Some old ->
  exists cards,
    snd (renderProjects projects pg) = Normal tt /\
    projectsGrid (fst (renderProjects projects pg)) = Some (join cards) /\
    Forall2
      (fun project card =>
         (exists block,
             card = cardHead project ++ block ++ cardTail /\
             (Project.status project = "coming-soon" -> block = "") /\
             (Project.status project <> "coming-soon" ->
              (linked project = true ->
               exists inner, block = links_marker ++ inner) /\
              (linked project = false -> block = ""))) /\
         (markup_free project = true ->
          occurs links_marker card
          = negb (isComingSoon project) && linked project))
      projects cards.
Proof.
  intros Hg. exists (map projectCard projects).
  unfold renderProjects, set_projectsGrid. rewrite Hg.
  cbn [fst snd projectsGrid]. split; [reflexivity|]. split; [reflexivity|].
  induction projects as [|project projects IH]; cbn [map]; constructor;
    [|exact IH].
  split.
  - exists (linksBlock project). split; [reflexivity|]. split.
    + intros H. apply linksBlock_absent. unfold isComingSoon. now rewrite H.
    + intros H.
      assert (Hs : isComingSoon project = false).
      { unfold isComingSoon. now apply String.eqb_neq. }
      split; intros Hl; [apply linksBlock_opens | apply linksBlock_absent];
        now rewrite Hs, Hl.
  - intros Hfree. unfold projectCard. rewrite (skip_cardHead _ _ Hfree).
    destruct (negb (isComingSoon project) && linked project) eqn:Hb.
    + destruct (linksBlock_opens _ Hb) as [inner ->].
      rewrite StringFacts.append_assoc.
      apply (occurs_intro links_marker "").
    + rewrite (linksBlock_absent _ Hb). vm_compute. reflexivity.
Qed.

Lemma links_block_policy_witness :
  exists soon normal,
    projectsGrid
      (fst (renderProjects
              [project_with_links "coming-soon"; project_with_links "normal"]
              empty_page))
    = Some (soon ++ normal) /\
    occurs links_marker soon = false /\
    occurs links_marker normal = true.
Proof.
  destruct (links_block_policy empty_page
              [project_with_links "coming-soon"; project_with_links "normal"]
              "" eq_refl)
    as (cards & _ & E & F).
  inversion F as [|p1 soon ps1 cs1 [_ H1] F1]; subst.
  inversion F1 as [|p2 normal ps2 cs2 [_ H2] F2]; subst.
  inversion F2; subst.
  exists soon, normal. split; [|split].
  - rewrite E. reflexivity.
  - exact (H1 eq_refl).
  - exact (H2 eq_refl).
Defined.

(** C9.  [renderTimeline] leaves every array that was there before it,
    the one it is given among them, with the elements it had, in the order
    they were in. *)
Theorem renderTimeline_leaves_arrays_alone
    (pg : Page) (items l : nat) (xs : list Timeline.t) :
  heap pg !! l = Some xs ->
  heap (fst (renderTimeline items pg)) !! l = Some xs.
Proof.
  intros Hl. destruct (heap pg !! items) as [entries|] eqn:Hitems.
  - rewrite (renderTimeline_run _ _ _ Hitems), heap_set_timelineContainer.
    cbn. pose proof (fresh_location_differs _ _ _ Hl) as Hne.
    rewrite !lookup_insert_ne by congruence. exact Hl.
  - unfold renderTimeline, array_spread, array_read, bind.
    rewrite Hitems. exact Hl.
Qed.

Lemma renderTimeline_leaves_arrays_alone_witness :
  heap (fst (renderTimeline 0 three_entries_page)) !! 0%nat
  = Some three_entries.
Proof.
  apply (renderTimeline_leaves_arrays_alone three_entries_page 0 0).
  reflexivity.
Defined.

End DataLoaderClaims.

(* ================================================================== *)
(** * throttle and debounce: proofs *)
(* ================================================================== *)

Module SortedFacts.

Lemma StronglySorted_snoc {A} (R : A -> A -> Prop) (l : list A) (y : A) :
  StronglySorted R l -> Forall (fun x => R x y) l ->
  StronglySorted R (l ++ [y]).
Proof.
  induction 1 as [|x l Hs IH Hx]; intros Hy; cbn.
  - repeat constructor.
  - inversion Hy as [|? ? Hxy Hly]; subst. constructor; [auto|].
    apply Forall_app. split; [exact Hx | repeat constructor; exact Hxy].
Qed.

Lemma StronglySorted_last {A} (R : A -> A -> Prop) (l : list A) (y : A) :
  StronglySorted R (l ++ [y]) -> Forall (fun x => R x y) l.
Proof.
  induction l as [|x l IH]; cbn; intros H; [constructor|].
  inversion H as [|? ? Hs Hx]; subst. constructor; [|auto].
  apply Forall_app in Hx as [_ Hy]. now inversion Hy.
Qed.

End SortedFacts.

Module ThrottleFacts.
Import Throttle ThrottleSpec SortedFacts.

Section WithFunc.
Context {A S : Type}.
Variable func : A -> S -> S * Js.Completion unit.
Variable limit : nat.

Lemma throttle_inv_initial (t : nat) (s : S) :
  inv limit (initial t s : World A S).
Proof. split; [constructor | split; constructor]. Qed.

Lemma throttle_inv_throttled (args : A) (w : World A S) :
  inv limit w -> inv limit (fst (throttled func limit args w)).
Proof.
  intros [Hs Hf]. unfold throttled.
  destruct (inThrottle w) eqn:Hin; cbn [negb fst];
    [split; [exact Hs|]; now rewrite Hin|].
  destruct Hf as [Ht Hall].
  destruct (func args (env w)) as [s [[]|e]]; cbn [fst]; split;
    cbn [executed inThrottle timers now].
  - apply StronglySorted_snoc; [exact Hs | exact Hall].
  - exists (executed w), (now w), args. rewrite Ht. repeat split; lia.
  - apply StronglySorted_snoc; [exact Hs | exact Hall].
  - split; [exact Ht|].
    apply Forall_app. split; [exact Hall|].
    repeat constructor. discriminate.
Qed.

Lemma throttle_inv_elapse (ms : nat) (w : World A S) :
  inv limit w -> inv limit (elapse ms w).
Proof.
  intros [Hs Hf]. unfold elapse. split; [exact Hs|].
  cbn [inThrottle timers now executed].
  destruct (inThrottle w) eqn:Hin.
  - destruct Hf as (pre & t & a & He & Ht & Hle & Hlt). rewrite Ht.
    cbn [existsb List.filter]. rewrite orb_false_r.
    destruct (Nat.leb_spec (t + limit) (now w + ms)) as [Hdue|Hdue].
    + replace (Nat.ltb (now w + ms) (t + limit)) with false
        by (symmetry; apply Nat.ltb_ge; lia).
      split; [reflexivity|]. rewrite He in Hs |- *.
      apply Forall_app. split; [|repeat constructor; intros _; exact Hdue].
      apply StronglySorted_last in Hs.
      eapply Forall_impl; [exact Hs|]. unfold apart. cbn.
      intros c Hc Hr. specialize (Hc Hr). lia.
    + replace (Nat.ltb (now w + ms) (t + limit)) with true
        by (symmetry; apply Nat.ltb_lt; lia).
      exists pre, t, a. repeat split; trivial; lia.
  - destruct Hf as [Ht Hall]. rewrite Ht. cbn [existsb List.filter].
    split; [reflexivity|].
    eapply Forall_impl; [exact Hall|]. cbn.
    intros c Hc Hr. specialize (Hc Hr). lia.
Qed.

Lemma throttle_inv_outside (f : S -> S) (w : World A S) :
  inv limit w -> inv limit (outside f w).
Proof. intros H. exact H. Qed.

Lemma throttle_inv_run (trace : list (Event A S)) (w : World A S) :
  inv limit w -> inv limit (run func limit trace w).
Proof.
  unfold run. revert w. induction trace as [|e trace IH]; intros w H; [exact H|].
  cbn [fold_left]. apply IH.
  destruct e;
    [now apply throttle_inv_throttled | now apply throttle_inv_elapse
     | now apply throttle_inv_outside].
Qed.

(** The flag tells whether a call that returned is less than [limit] old. *)
Lemma inThrottle_clear_at (w : World A S) :
  0 < limit -> inv limit w ->
  inThrottle w = negb (clear_at limit (now w) (executed w)).
Proof.
  intros Hpos [_ Hf]. unfold clear_at. destruct (inThrottle w).
  - destruct Hf as (pre & t & a & He & _ & _ & Hlt).
    rewrite He, forallb_app. cbn [forallb returned outcome time implb].
    replace (Nat.leb (t + limit) (now w)) with false
      by (symmetry; apply Nat.leb_gt; auto).
    now rewrite andb_false_r.
  - destruct Hf as [_ Hall].
    replace (forallb _ _) with true; [reflexivity|].
    symmetry. apply forallb_forall. intros c Hc.
    rewrite List.Forall_forall in Hall. specialize (Hall c Hc).
    destruct (returned c); [|reflexivity].
    apply Nat.leb_le. now apply Hall.
Qed.

(** A world whose flag and timers are clear and where [func] throws on
    every call: each call of the throttled function calls [func]. *)
Lemma throwing_run (trace : list (Event A S)) (w : World A S) :
  (forall a s, exists e, snd (func a s) = Js.Throw e) ->
  inThrottle w = false -> timers w = [] ->
  map args_of (executed (run func limit trace w))
  = map args_of (executed w) ++ invoked trace.
Proof.
  intros Hthrow. unfold run. revert w.
  induction trace as [|ev trace IH]; intros w Hin Ht; cbn [fold_left invoked flat_map].
  - now rewrite app_nil_r.
  - destruct ev as [args|ms|f]; cbn [handle].
    + unfold throttled. rewrite Hin. cbn [negb].
      destruct (Hthrow args (env w)) as [e He].
      destruct (func args (env w)) as [s c]. cbn [snd] in He. subst c.
      cbn [fst]. rewrite IH; [|reflexivity|exact Ht].
      cbn [executed]. rewrite map_app. cbn [map args_of].
      now rewrite <- app_assoc.
    + rewrite IH.
      * reflexivity.
      * cbn. rewrite Ht. cbn. exact Hin.
      * cbn. now rewrite Ht.
    + rewrite IH; [reflexivity | exact Hin | exact Ht].
Qed.

(** Time passing calls [func] never: the callbacks carry no call. *)
Lemma elapse_run (mss : list nat) (w : World A S) :
  executed (run func limit (map (@Elapse A S) mss) w) = executed w.
Proof.
  unfold run. revert w. induction mss as [|ms mss IH]; intros w; [reflexivity|].
  cbn [map fold_left handle]. now rewrite IH.
Qed.

End WithFunc.
End ThrottleFacts.

Section ThrottleClaims.
Import Throttle ThrottleSpec ThrottleFacts.
Context {A S : Type}.
Variable func : A -> S -> S * Js.Completion unit.

(** X1.  Whatever [func] does, whatever the calls of the throttled function
    and however time passes between them: after a call of [func] that
    returned, the next call of [func] comes at least [limit] milliseconds
    later.  A call of [func] that throws sets no flag: where [func] throws
    every time, every call of the throttled function calls it. *)
Theorem throttle_spaces_calls
    (limit t0 : nat) (s0 : S) (trace : list (Event A S)) :
  let w := run func limit trace (initial t0 s0) in
  StronglySorted (apart limit) (executed w) /\
  ((forall a s, exists e, snd (func a s) = Js.Throw e) ->
   map args_of (executed w) = invoked trace).
Proof.
  split.
  - apply (throttle_inv_run func limit trace), throttle_inv_initial.
  - intros H.
    exact (throwing_run func limit trace (initial t0 s0) H eq_refl eq_refl).
Qed.

(** X2.  For a positive [limit], and after any history: a call of the
    throttled function made when every call of [func] that returned lies
    at least [limit] milliseconds in the past calls [func] at once, with
    the arguments given and in the state of the moment, and completes as
    that call does; made at any other time it returns and changes nothing,
    so that the call is dropped; and no passage of time calls [func]. *)
Theorem throttle_runs_or_drops
    (limit t0 : nat) (s0 : S) (trace : list (Event A S)) (args : A) :
  0 < limit ->
  let w := run func limit trace (initial t0 s0) in
  let after := throttled func limit args w in
  (if clear_at limit (now w) (executed w)
   then executed (fst after)
        = executed w ++ [{| time := now w; args_of := args;
                            outcome := snd (func args (env w)) |}] /\
        env (fst after) = fst (func args (env w)) /\
        snd after = snd (func args (env w))
   else after = (w, Js.Normal tt)) /\
  (forall mss : list nat,
      executed (run func limit (map (@Elapse A S) mss) (fst after))
      = executed (fst after)).
Proof.
  intros Hpos w after. split; [|intros mss; apply elapse_run].
  pose proof (inThrottle_clear_at limit w Hpos
                (throttle_inv_run func limit trace _ (throttle_inv_initial limit t0 s0)))
    as Hin.
  unfold after, throttled. rewrite Hin.
  destruct (clear_at limit (now w) (executed w)); cbn [negb]; [|reflexivity].
  destruct (func args (env w)) as [s [[]|e]]; cbn [fst snd executed env];
    repeat split.
Qed.

End ThrottleClaims.

Section ThrottleInstances.
Import Throttle ThrottleSpec Scenarios.
Local Open Scope string_scope.

Lemma throttle_spaces_calls_witness :
  StronglySorted (apart 100)
    [ {| time := 0; args_of := "boom"; outcome := Js.Throw (Js.mkError "boom") |};
      {| time := 0; args_of := "a"; outcome := Js.Normal tt |};
      {| time := 100; args_of := "c"; outcome := Js.Normal tt |} ] /\
  map args_of
      (executed (run failing 100 [Invoke "a"; Invoke "b"; Elapse 5; Invoke "c"]
                     (initial 0 0)))
  = ["a"; "b"; "c"].
Proof.
  split.
  - exact (proj1 (throttle_spaces_calls counting 100 0 0
                    (throttled_scroll ++ [Invoke "c"]))).
  - apply (proj2 (throttle_spaces_calls failing 100 0 0
                    [Invoke "a"; Invoke "b"; Elapse 5; Invoke "c"])).
    intros a s. now exists (Js.mkError a).
Defined.

Lemma throttle_runs_or_drops_witness :
  map (fun c => (time c, args_of c, returned c))
      (executed (run counting 100 (throttled_scroll ++ [Invoke "c"]) (initial 0 0)))
  = [(0, "boom", false); (0, "a", true); (100, "c", true)] /\
  throttled counting 100 "b" (run counting 100 [Invoke "a"; Elapse 40] (initial 0 0))
  = (run counting 100 [Invoke "a"; Elapse 40] (initial 0 0), Js.Normal tt).
Proof.
  split.
  - pose proof (throttle_runs_or_drops counting 100 0 0 throttled_scroll "c"
                  ltac:(lia)) as [H _].
    change (clear_at 100 _ _) with true in H. cbv iota in H.
    destruct H as (H & _ & _).
    change (run counting 100 (throttled_scroll ++ [Invoke "c"]) (initial 0 0))
      with (fst (throttled counting 100 "c"
                   (run counting 100 throttled_scroll (initial 0 0)))).
    rewrite H. reflexivity.
  - pose proof (throttle_runs_or_drops counting 100 0 0 [Invoke "a"; Elapse 40] "b"
                  ltac:(lia)) as [H _].
    exact H.
Defined.

End ThrottleInstances.

Module DebounceFacts.
Import Debounce DebounceSpec.

Section WithFunc.
Context {A : Type}.
Variable wait : nat.

Lemma debounce_inv_initial (t : nat) : inv (initial t : World A).
Proof. now left. Qed.

Lemma clearTimeout_pending (w : World A) :
  inv w -> clearTimeout (timeout w) (timers w) = [].
Proof.
  intros [H|(x & Ht & Hh)]; rewrite ?H, ?Ht, ?Hh.
  - now destruct (timeout w).
  - cbn. now rewrite Nat.eqb_refl.
Qed.

Lemma timers_debounced (args : A) (w : World A) :
  inv w ->
  timers (debounced wait args w)
  = [{| handle_of := nextId w; due := now w + wait; args_of := args |}].
Proof. intros H. unfold debounced. cbn. now rewrite clearTimeout_pending. Qed.

Lemma debounce_inv_debounced (args : A) (w : World A) :
  inv w -> inv (debounced wait args w).
Proof.
  intros H. right. eexists. split; [now apply timers_debounced | reflexivity].
Qed.

Lemma debounce_inv_elapse (ms : nat) (w : World A) : inv w -> inv (elapse ms w).
Proof.
  intros [H|(x & Ht & Hh)]; unfold inv, elapse; cbn [timers timeout];
    rewrite ?H, ?Ht; cbn [List.filter].
  - now left.
  - destruct (Nat.ltb (now w + ms) (due x)); [right; eauto | now left].
Qed.

Lemma debounce_inv_run (trace : list (Event A)) (w : World A) :
  inv w -> inv (run wait trace w).
Proof.
  unfold run. revert w. induction trace as [|e trace IH]; intros w H; [exact H|].
  cbn [fold_left]. apply IH.
  destruct e; [now apply debounce_inv_debounced | now apply debounce_inv_elapse].
Qed.

(** A call followed by less than [wait]: nothing runs. *)
Lemma call_then_quiet (args : A) (gap : nat) (w : World A) :
  inv w -> gap < wait ->
  let w' := elapse gap (debounced wait args w) in
  inv w' /\ executed w' = executed w /\ now w' = now w + gap.
Proof.
  intros H Hg w'. split; [apply debounce_inv_elapse, debounce_inv_debounced, H|].
  unfold w', elapse. cbn [executed now]. rewrite timers_debounced by exact H.
  cbn [List.filter due map].
  replace (Nat.leb (now w + wait) (now (debounced wait args w) + gap))
    with false by (symmetry; apply Nat.leb_gt; cbn; lia).
  cbn. now rewrite app_nil_r.
Qed.

(** A call followed by at least [wait]: its callback runs. *)
Lemma call_then_wait (args : A) (ms : nat) (w : World A) :
  inv w -> wait <= ms ->
  let w' := elapse ms (debounced wait args w) in
  executed w' = executed w ++ [(now w + wait, args)] /\ timers w' = [].
Proof.
  intros H Hg w'. unfold w', elapse. cbn [executed timers].
  rewrite timers_debounced by exact H. cbn [List.filter due map args_of].
  replace (Nat.leb (now w + wait) (now (debounced wait args w) + ms))
    with true by (symmetry; apply Nat.leb_le; cbn; lia).
  replace (Nat.ltb (now (debounced wait args w) + ms) (now w + wait))
    with false by (symmetry; apply Nat.ltb_ge; cbn; lia).
  split; reflexivity.
Qed.

Lemma burst_runs_last (calls : list (A * nat)) :
  forall (w : World A) (args : A) (ms : nat),
    inv w ->
    Forall (fun c => snd c < wait) calls ->
    wait <= ms ->
    let w' := run wait (burst calls ++ [Invoke args; Elapse ms]) w in
    executed w'
    = executed w ++ [(now w + list_sum (map snd calls) + wait, args)] /\
    timers w' = [].
Proof.
  induction calls as [|[a gap] rest IH]; intros w args ms Hw Hq Hms.
  - cbn [burst app run fold_left handle map list_sum].
    rewrite Nat.add_0_r. now apply call_then_wait.
  - inversion Hq as [|? ? Hgap Hrest]; subst. cbn [snd] in Hgap.
    cbn [burst app run fold_left handle].
    destruct (call_then_quiet a gap w Hw Hgap) as (Hw' & He & Hn).
    destruct (IH _ args ms Hw' Hrest Hms) as [IH1 IH2].
    unfold run in IH1, IH2. rewrite IH1, IH2, He, Hn.
    cbn [map snd]. split; [|reflexivity].
    change (list_sum (gap :: map snd rest))
      with (gap + list_sum (map snd rest)).
    do 3 f_equal. lia.
Qed.

End WithFunc.
End DebounceFacts.

Section DebounceClaims.
Import Debounce DebounceSpec DebounceFacts.
Context {A : Type}.

(** X3.  However often the debounced function is called in quick
    succession (each call less than [wait] before the next), and whatever
    happened before, [func] is called once for the whole run of calls:
    [wait] milliseconds after the last of them, with the arguments of that
    last call; and then no timer is left. *)
Theorem debounce_runs_last_call
    (wait t0 : nat) (before : list (Event A))
    (calls : list (A * nat)) (args : A) (ms : nat) :
  Forall (fun c => snd c < wait) calls ->
  wait <= ms ->
  let w := run wait before (initial t0) in
  let w' := run wait (burst calls ++ [Invoke args; Elapse ms]) w in
  executed w'
  = executed w ++ [(now w + list_sum (map snd calls) + wait, args)] /\
  timers w' = [].
Proof.
  intros Hq Hms w. apply burst_runs_last; trivial.
  apply debounce_inv_run, debounce_inv_initial.
Qed.

End DebounceClaims.

Lemma debounce_runs_last_call_witness :
  Debounce.executed
    (Debounce.run 200
       [Debounce.Invoke "r"%string; Debounce.Elapse 50;
        Debounce.Invoke "re"%string; Debounce.Elapse 120;
        Debounce.Invoke "res"%string; Debounce.Elapse 200]
       (Debounce.initial 0))
  = [(370, "res"%string)].
Proof.
  destruct (debounce_runs_last_call 200 0 []
              [("r"%string, 50); ("re"%string, 120)] "res"%string 200)
    as [H _]; [repeat constructor; cbn; lia | lia |].
  exact H.
Defined.

(* ================================================================== *)
(** * Class lists: proofs *)
(* ================================================================== *)

Module ClassListFacts.
Import ClassList.

Lemma contains_snoc (t t' : string) (l : list string) :
  contains t (l ++ [t']) = contains t l || String.eqb t t'.
Proof. unfold contains. rewrite existsb_app. cbn. now rewrite orb_false_r. Qed.

Lemma contains_after_add (t t' : string) (l : list string) :
  contains t (add t' l) = contains t l || String.eqb t t'.
Proof.
  unfold add. destruct (contains t' l) eqn:H; [|apply contains_snoc].
  destruct (String.eqb_spec t t') as [->|]; [|now rewrite orb_false_r].
  now rewrite H.
Qed.

Lemma contains_remove (t t' : string) (l : list string) :
  contains t (remove t' l) = contains t l && negb (String.eqb t t').
Proof.
  unfold contains, remove. induction l as [|x l IH]; [reflexivity|].
  cbn [List.filter existsb].
  destruct (String.eqb_spec t' x) as [->|Hx]; cbn [negb existsb].
  - rewrite IH. destruct (String.eqb_spec t x) as [->|]; cbn.
    + now rewrite andb_false_r.
    + reflexivity.
  - rewrite IH. destruct (String.eqb_spec t x) as [->|]; cbn; [|reflexivity].
    destruct (String.eqb_spec x t') as [->|]; [contradiction|reflexivity].
Qed.

Lemma contains_toggle (t : string) (l : list string) :
  contains t (fst (toggle t l)) = negb (contains t l) /\
  snd (toggle t l) = negb (contains t l).
Proof.
  unfold toggle. destruct (contains t l) eqn:H; cbn [fst snd negb].
  - now rewrite contains_remove, String.eqb_refl, andb_false_r.
  - now rewrite contains_snoc, String.eqb_refl, orb_true_r.
Qed.

Lemma contains_toggle_force (t t' : string) (force : bool) (l : list string) :
  contains t (toggle_force t' force l)
  = if String.eqb t t' then force else contains t l.
Proof.
  unfold toggle_force. destruct force.
  - rewrite contains_after_add. destruct (String.eqb t t'); [apply orb_true_r | apply orb_false_r].
  - rewrite contains_remove. destruct (String.eqb t t'); cbn;
      [apply andb_false_r | apply andb_true_r].
Qed.

Lemma remove_absent (t : string) (l : list string) :
  contains t l = false -> remove t l = l.
Proof.
  unfold contains, remove. induction l as [|x l IH]; [reflexivity|].
  cbn [existsb List.filter]. intros H. apply orb_false_elim in H as [Hx Hl].
  rewrite Hx. cbn. now rewrite IH.
Qed.

Lemma remove_remove (t : string) (l : list string) :
  remove t (remove t l) = remove t l.
Proof.
  apply remove_absent. now rewrite contains_remove, String.eqb_refl, andb_false_r.
Qed.

Lemma remove_add_remove (t : string) (l : list string) :
  remove t (add t (remove t l)) = remove t l.
Proof.
  unfold add. rewrite contains_remove, String.eqb_refl, andb_false_r.
  unfold remove at 1. rewrite List.filter_app. cbn. rewrite String.eqb_refl. cbn.
  rewrite app_nil_r. apply remove_remove.
Qed.

End ClassListFacts.

(* ================================================================== *)
(** * Header: proofs *)
(* ================================================================== *)

Module HeaderFacts.
Import Js Header HeaderSpec ClassListFacts.
Local Open Scope string_scope.

Lemma gt_spec (a b : Q) : gt a b = true <-> (b < a)%Q.
Proof.
  unfold gt. rewrite negb_true_iff. split.
  - intros H. apply Qnot_le_lt. intros Hle.
    apply Qle_bool_iff in Hle. congruence.
  - intros H. destruct (Qle_bool a b) eqn:E; [|reflexivity].
    apply Qle_bool_iff in E. now apply Qlt_not_le in H.
Qed.

End HeaderFacts.

Section HeaderClaims.
Import Js Header HeaderSpec HeaderFacts ClassListFacts.
Local Open Scope string_scope.

(** X4.  On a page with a header, [handleScroll] returns normally, takes
    the position as [lastScrollY], and leaves the header with
    [header--scrolled] exactly when the position is beyond 50 and every
    class other than the two it manages as it was.  If the class
    [header--hidden] and the flag [headerVisible] agreed before, they
    agree after, and the header is hidden exactly when the page was
    scrolled down (the position is beyond the last one) and is beyond 100.
    On a page without a header, [handleScroll] throws. *)
Theorem header_follows_scroll (y : Q) (st : State) :
  (header st = None -> exists e, handleScroll y st = Throw e) /\
  (header st <> None ->
   exists st',
     handleScroll y st = Normal st' /\
     lastScrollY st' = y /\
     (has "header--scrolled" st' = true <-> (50 < y)%Q) /\
     (forall t, t <> "header--scrolled" -> t <> "header--hidden" ->
                has t st' = has t st) /\
     (consistent st ->
      consistent st' /\
      (has "header--hidden" st' = true <->
       (lastScrollY st < y)%Q /\ (100 < y)%Q))).
Proof.
  unfold handleScroll, consistent, has.
  destruct (header st) as [classes|]; split; try congruence; [|eauto].
  intros _.
  set (c1 := if gt y 50 then _ else _).
  assert (Hs1 : ClassList.contains "header--scrolled" c1 = gt y 50).
  { unfold c1. destruct (gt y 50);
      [rewrite contains_after_add | rewrite contains_remove]; cbn;
      [apply orb_true_r | apply andb_false_r]. }
  assert (Hh1 : ClassList.contains "header--hidden" c1
                = ClassList.contains "header--hidden" classes).
  { unfold c1. destruct (gt y 50);
      [rewrite contains_after_add | rewrite contains_remove]; cbn;
      [apply orb_false_r | apply andb_true_r]. }
  assert (Ho1 : forall t, t <> "header--scrolled" ->
                          ClassList.contains t c1 = ClassList.contains t classes).
  { intros t Ht. apply String.eqb_neq in Ht. unfold c1. destruct (gt y 50);
      [rewrite contains_after_add | rewrite contains_remove]; rewrite Ht; cbn;
      [apply orb_false_r | apply andb_true_r]. }
  clearbody c1.
  assert (Hdown : gt y (lastScrollY st) && gt y 100 = true
                  <-> (lastScrollY st < y)%Q /\ (100 < y)%Q).
  { rewrite andb_true_iff, !gt_spec. reflexivity. }
  destruct (gt y (lastScrollY st) && gt y 100) eqn:Hd;
    destruct (headerVisible st) eqn:Hv; cbn [negb];
    eexists; (split; [reflexivity|]); cbn [lastScrollY header headerVisible];
    (split; [reflexivity|]); (split; [|split]).
  all: try (intros t Ht1 Ht2; apply String.eqb_neq in Ht2;
            rewrite ?contains_after_add, ?contains_remove, ?Ht2; cbn;
            rewrite ?orb_false_r, ?andb_true_r; now apply Ho1).
  all: try (rewrite ?contains_after_add, ?contains_remove, Hs1; cbn;
            rewrite ?orb_false_r, ?andb_true_r; apply gt_spec).
  all: intros Hc; rewrite ?contains_after_add, ?contains_remove, Hh1; cbn [negb];
    rewrite ?String.eqb_refl, ?orb_true_r, ?andb_false_r; cbn [negb];
    rewrite ?Hc; cbn [negb]; (split; [reflexivity|]);
    rewrite <- Hdown; intuition congruence.
Qed.

Lemma header_follows_scroll_witness :
  handleScroll 240
    {| lastScrollY := 120; headerVisible := true; header := Some ["header"] |}
  = Normal {| lastScrollY := 240; headerVisible := false;
              header := Some ["header"; "header--scrolled"; "header--hidden"] |}.
Proof.
  destruct (header_follows_scroll 240
              {| lastScrollY := 120; headerVisible := true;
                 header := Some ["header"] |}) as [_ H].
  destruct H as (st' & E & _); [discriminate|].
  reflexivity.
Defined.

End HeaderClaims.

(* ================================================================== *)
(** * MobileNav: proofs *)
(* ================================================================== *)

Module MobileNavFacts.
Import Js MobileNav MobileNavSpec ClassListFacts.
Local Open Scope string_scope.

Lemma closed_consistent (pg : Page) :
  is_open (close pg) = false /\ consistent (close pg).
Proof.
  unfold consistent, is_open, expanded, close.
  cbn [nav menuToggle ariaExpanded overflow].
  rewrite !contains_remove, !String.eqb_refl, !andb_false_r. repeat split.
Qed.

Lemma toggled_consistent (pg : Page) :
  is_open (toggle pg) = negb (is_open pg) /\
  (consistent pg -> consistent (toggle pg)).
Proof.
  unfold consistent, is_open, expanded, toggle.
  destruct (contains_toggle "is-open" (nav pg)) as [Hn Hb].
  destruct (contains_toggle "is-active" (menuToggle pg)) as [Ha _].
  destruct (ClassList.toggle "is-open" (nav pg)) as [nav' isOpen].
  cbn [fst snd] in Hn, Hb. cbn [nav menuToggle ariaExpanded overflow].
  rewrite Hn, Ha. split; [reflexivity|]. intros (H1 & _ & _).
  rewrite H1, Hb. destruct (ClassList.contains "is-open" (nav pg)); auto.
Qed.

Lemma outsideClick_spec (inHeader : bool) (pg : Page) :
  hasHeader pg = true ->
  exists pg',
    outsideClick inHeader pg = Normal pg' /\
    hasHeader pg' = true /\
    is_open pg' = is_open pg && inHeader /\
    (consistent pg -> consistent pg').
Proof.
  intros Hh. unfold outsideClick. fold (is_open pg). rewrite Hh.
  destruct (is_open pg) eqn:Ho; [destruct inHeader|]; cbn [negb andb];
    eexists; (split; [reflexivity|]).
  - auto.
  - destruct (closed_consistent pg) as [Hc Hk]. auto.
  - auto.
Qed.

End MobileNavFacts.

Section MobileNavClaims.
Import Js MobileNav MobileNavSpec MobileNavFacts.
Local Open Scope string_scope.

(** X5.  On a page with a header every event is handled without an
    error, and whether the drawer is open afterwards depends only on the
    event and on whether it was open: a click on the menu button flips it,
    a click on a link of the navigation and the Escape key close it, and a
    click anywhere outside the header closes it, also when it lands on the
    menu button.  If the four marks of an open drawer ([is-open],
    [is-active], [aria-expanded] and the [overflow] of the body) agreed
    before the event, they agree after it. *)
Theorem drawer_follows_events (e : Event) (pg : Page) :
  hasHeader pg = true ->
  exists pg',
    dispatch e pg = Normal pg' /\
    hasHeader pg' = true /\
    is_open pg' = open_after e (is_open pg) /\
    (consistent pg -> consistent pg').
Proof.
  intros Hh. destruct e as [[| |] inHeader|key]; cbn [dispatch open_after].
  - destruct (toggled_consistent pg) as [Ho Hc].
    destruct (outsideClick_spec inHeader (toggle pg)) as (pg' & E & H1 & H2 & H3);
      [unfold toggle; destruct (ClassList.toggle _ _); exact Hh|].
    exists pg'. rewrite H2, Ho.
    split; [exact E|split; [exact H1|split; [reflexivity | auto]]].
  - destruct (closed_consistent pg) as [Ho Hc].
    destruct (outsideClick_spec inHeader (close pg)) as (pg' & E & H1 & H2 & H3);
      [exact Hh|].
    exists pg'. rewrite H2, Ho.
    split; [exact E|split; [exact H1|split; [reflexivity | auto]]].
  - destruct (outsideClick_spec inHeader pg Hh) as (pg' & E & H1 & H2 & H3).
    exists pg'. auto.
  - destruct (String.eqb key "Escape"); eexists; (split; [reflexivity|]).
    + destruct (closed_consistent pg) as [-> Hc].
      rewrite andb_false_r. auto.
    + rewrite andb_true_r. auto.
Qed.

Lemma drawer_follows_events_witness :
  dispatch (Click OnMenuToggle true)
    {| nav := ["nav"]; menuToggle := ["menu-toggle"]; ariaExpanded := None;
       overflow := ""; hasHeader := true |}
  = Normal {| nav := ["nav"; "is-open"];
              menuToggle := ["menu-toggle"; "is-active"];
              ariaExpanded := Some "true"; overflow := "hidden";
              hasHeader := true |}.
Proof.
  destruct (drawer_follows_events (Click OnMenuToggle true)
              {| nav := ["nav"]; menuToggle := ["menu-toggle"];
                 ariaExpanded := None; overflow := ""; hasHeader := true |}
              eq_refl) as (pg' & E & _).
  reflexivity.
Defined.

End MobileNavClaims.

(* ================================================================== *)
(** * LanguageToggle: proofs *)
(* ================================================================== *)

Module LanguageFacts.
Import Js LanguageToggle LanguageSpec ClassListFacts.
Local Open Scope string_scope.

Lemma setLanguage_buttons (l : option string) (pg : Page) :
  map lang (langToggle (setLanguage l pg)) = map lang (langToggle pg) /\
  map active (langToggle (setLanguage l pg))
  = map (fun btn => strict_equal (lang btn) l) (langToggle pg).
Proof.
  unfold setLanguage. cbn [langToggle]. rewrite !map_map. cbn [lang].
  split; [reflexivity|]. apply map_ext. intros btn.
  unfold active. cbn [classList].
  now rewrite contains_toggle_force, String.eqb_refl.
Qed.

(** Which buttons are active after [setLanguage] depends on their
    [data-lang] only. *)
Lemma setLanguage_same_langs (l : option string) (pg pg' : Page) :
  map lang (langToggle pg') = map lang (langToggle pg) ->
  map active (langToggle (setLanguage l pg'))
  = map active (langToggle (setLanguage l pg)).
Proof.
  intros H.
  rewrite (proj2 (setLanguage_buttons l pg')), (proj2 (setLanguage_buttons l pg)).
  rewrite <- (map_map lang (fun v => strict_equal v l)).
  rewrite <- (map_map lang (fun v => strict_equal v l) (langToggle pg)).
  now rewrite H.
Qed.

End LanguageFacts.

Section LanguageClaims.
Import Js LanguageToggle LanguageSpec LanguageFacts.
Local Open Scope string_scope.

(** X6.  The choice of a language survives a reload: after a click on a
    button whose [data-lang] is a non-empty string, [init] on the page
    loaded again (same buttons, whatever their classes in the markup, and
    the storage as the click left it) makes active exactly the buttons the
    click made active, which are those with that [data-lang], and sets
    the language of the document to it. *)
Theorem language_choice_survives_reload
    (l : string) (pg again : Page) :
  l <> "" ->
  reloaded (handleToggle (Some l) pg) again ->
  map active (langToggle (init again))
  = map active (langToggle (handleToggle (Some l) pg)) /\
  map active (langToggle (init again))
  = map (fun btn => strict_equal (lang btn) (Some l)) (langToggle pg) /\
  documentLang (init again) = l /\
  documentLang (handleToggle (Some l) pg) = l.
Proof.
  intros Hl [Hb Hs].
  assert (Hst : localStorage (handleToggle (Some l) pg) !! "preferredLanguage"
                = Some l).
  { unfold handleToggle. cbn [localStorage to_string]. apply lookup_insert_eq. }
  unfold init. rewrite Hs, Hst. cbn [truthy].
  apply String.eqb_neq in Hl. rewrite Hl. cbn [negb].
  assert (Hlangs : map lang (langToggle again) = map lang (langToggle pg)).
  { rewrite Hb. unfold handleToggle. cbn [langToggle].
    apply setLanguage_buttons. }
  assert (E : map active (langToggle (setLanguage (Some l) again))
              = map active (langToggle (handleToggle (Some l) pg))).
  { unfold handleToggle. cbn [langToggle]. now apply setLanguage_same_langs. }
  split; [exact E|]. split; [|split; reflexivity].
  rewrite E. unfold handleToggle. cbn [langToggle].
  apply setLanguage_buttons.
Qed.

(** X7.  A click on a button without [data-lang] does not survive a
    reload: it makes the buttons without [data-lang] active and stores the
    text "undefined", and [init] on the page loaded again makes active the
    buttons whose [data-lang] is that text, so none of those the click
    made active. *)
Theorem language_without_data_lang_is_lost (pg again : Page) :
  reloaded (handleToggle None pg) again ->
  localStorage (handleToggle None pg) !! "preferredLanguage" = Some "undefined" /\
  map active (langToggle (handleToggle None pg))
  = map (fun btn => strict_equal (lang btn) None) (langToggle pg) /\
  map active (langToggle (init again))
  = map (fun btn => strict_equal (lang btn) (Some "undefined")) (langToggle pg) /\
  Forall (fun btn => strict_equal (lang btn) None
                     && strict_equal (lang btn) (Some "undefined") = false)
         (langToggle pg).
Proof.
  intros [Hb Hs].
  assert (Hst : localStorage (handleToggle None pg) !! "preferredLanguage"
                = Some "undefined").
  { unfold handleToggle. cbn [localStorage to_string]. apply lookup_insert_eq. }
  split; [exact Hst|]. split; [|split].
  - unfold handleToggle. cbn [langToggle]. apply setLanguage_buttons.
  - unfold init. rewrite Hs, Hst. cbn [truthy String.eqb Ascii.eqb negb].
    change (negb (String.eqb "undefined" "")) with true. cbn iota.
    rewrite (proj2 (setLanguage_buttons _ again)).
    rewrite <- (map_map lang (fun v => strict_equal v (Some "undefined"))).
    rewrite Hb. unfold handleToggle. cbn [langToggle].
    rewrite (proj1 (setLanguage_buttons None pg)).
    now rewrite map_map.
  - apply Forall_forall. intros btn _. now destruct (lang btn).
Qed.

End LanguageClaims.

Section LanguageInstances.
Import Js LanguageToggle LanguageSpec Scenarios.
Local Open Scope string_scope.

Lemma language_choice_survives_reload_witness :
  map active
    (langToggle (init (two_languages (<["preferredLanguage" := "de"]> ∅))))
  = [false; true] /\
  documentLang (init (two_languages (<["preferredLanguage" := "de"]> ∅)))
  = "de".
Proof.
  destruct (language_choice_survives_reload "de" (two_languages ∅)
              (two_languages (<["preferredLanguage" := "de"]> ∅)))
    as (_ & H & D & _).
  - discriminate.
  - split; reflexivity.
  - split; [exact H | exact D].
Defined.

Lemma language_without_data_lang_is_lost_witness :
  map active (langToggle (handleToggle None (unlabelled ∅))) = [true; false] /\
  map active
    (langToggle (init (unlabelled (<["preferredLanguage" := "undefined"]> ∅))))
  = [false; false].
Proof.
  destruct (language_without_data_lang_is_lost (unlabelled ∅)
              (unlabelled (<["preferredLanguage" := "undefined"]> ∅)))
    as (_ & H1 & H2 & _).
  - split; reflexivity.
  - split; [exact H1 | exact H2].
Defined.

End LanguageInstances.

(* ================================================================== *)
(** * ActiveNavLink: proofs *)
(* ================================================================== *)

Module ActiveNavLinkFacts.
Import Js ActiveNavLink ActiveNavLinkSpec ClassListFacts.
Local Open Scope string_scope.

(** A later section takes over from an earlier one. *)
Lemma activate_activate (s1 s2 : Section_) (links : list Link) :
  activate s2 (activate s1 links) = activate s2 links.
Proof.
  unfold activate. rewrite map_map. apply map_ext. intros link.
  cbn [href classList].
  assert (P : forall c, points_to s2 {| href := href link; classList := c |}
                        = points_to s2 link) by reflexivity.
  rewrite P. f_equal.
  assert (E : ClassList.remove "nav__link--active"
                (if points_to s1 link
                 then ClassList.add "nav__link--active"
                        (ClassList.remove "nav__link--active" (classList link))
                 else ClassList.remove "nav__link--active" (classList link))
              = ClassList.remove "nav__link--active" (classList link)).
  { destruct (points_to s1 link);
      [apply remove_add_remove | apply remove_remove]. }
  now rewrite E.
Qed.

Lemma onScroll_last (windowScrollY : Q) (sections : list Section_)
    (links : list Link) :
  onScroll windowScrollY sections links
  = match last (hits windowScrollY sections) with
    | Some section => activate section links
    | None => links
    end.
Proof.
  unfold onScroll, hits.
  induction sections as [|s sections IH] using rev_ind; [reflexivity|].
  rewrite fold_left_app, List.filter_app. cbn [fold_left List.filter].
  rewrite IH. destruct (inside _ s).
  - rewrite last_snoc.
    destruct (last (List.filter _ sections)); [apply activate_activate | reflexivity].
  - now rewrite app_nil_r.
Qed.

Lemma activate_link (section : Section_) (links : list Link) :
  map href (activate section links) = map href links /\
  map active (activate section links) = map (points_to section) links /\
  forall t, t <> "nav__link--active" ->
    map (fun link => ClassList.contains t (classList link))
        (activate section links)
    = map (fun link => ClassList.contains t (classList link)) links.
Proof.
  unfold activate. rewrite !map_map. cbn [href classList].
  split; [reflexivity|]. split.
  - apply map_ext. intros link. unfold active. cbn [classList].
    destruct (points_to section link).
    + now rewrite contains_after_add, String.eqb_refl, orb_true_r.
    + now rewrite contains_remove, String.eqb_refl, andb_false_r.
  - intros t Ht. apply String.eqb_neq in Ht. rewrite map_map.
    apply map_ext. intros link. cbn [classList].
    destruct (points_to section link);
      rewrite ?contains_after_add, contains_remove, Ht; cbn;
      now rewrite ?orb_false_r, ?andb_true_r.
Qed.

End ActiveNavLinkFacts.

Section ActiveNavLinkClaims.
Import Js ActiveNavLink ActiveNavLinkSpec ActiveNavLinkFacts.
Local Open Scope string_scope.

(** X8.  After a scroll, if the position (100 below the top of the
    window, positions taken as exact numbers) is in no section, the links are as they were; otherwise the
    last section in document order that the position is in decides: a
    link is active exactly when its [href] is [#] followed by the [id] of
    that section, and the other classes of the links are as they were. *)
Theorem active_link_is_last_section
    (windowScrollY : Q) (sections : list Section_) (links : list Link) :
  (hits windowScrollY sections = [] ->
   onScroll windowScrollY sections links = links) /\
  (forall section,
     last (hits windowScrollY sections) = Some section ->
     map active (onScroll windowScrollY sections links)
     = map (points_to section) links /\
     map href (onScroll windowScrollY sections links) = map href links /\
     forall t, t <> "nav__link--active" ->
       map (fun link => ClassList.contains t (classList link))
           (onScroll windowScrollY sections links)
       = map (fun link => ClassList.contains t (classList link)) links).
Proof.
  rewrite onScroll_last. split.
  - now intros ->.
  - intros section ->. destruct (activate_link section links) as (H1 & H2 & H3).
    auto.
Qed.

End ActiveNavLinkClaims.

(* ================================================================== *)
(** * PageLoader: proofs *)
(* ================================================================== *)

Module PageLoaderFacts.
Import Js PageLoader PageLoaderSpec ClassListFacts.
Local Open Scope string_scope.

Lemma hidden_hide (w : World) (t : nat) :
  pageLoader w <> None ->
  hidden {| pageLoader := hide (pageLoader w); listening := listening w;
            timers := t :: nil; now := now w |} = true.
Proof.
  unfold hidden, hide. cbn. destruct (pageLoader w); [|congruence]. intros _.
  now rewrite contains_after_add, String.eqb_refl, orb_true_r.
Qed.

Lemma loader_inv_handle (due : nat) (e : Event) (w : World) :
  inv due w -> inv due (handle w e).
Proof.
  intros [Hp H]. destruct e as [|ms]; cbn [handle].
  - unfold load. destruct (listening w); [|now split].
    split; [exact Hp|]. unfold hidden in *. cbn.
    destruct H as [H|[H1 H2]]; [now left | right].
    split; [apply in_or_app; now left | exact H2].
  - unfold elapse, inv, hidden in *. cbn [pageLoader timers now].
    destruct (existsb _ (timers w)) eqn:Hex.
    + split; [unfold hide; destruct (pageLoader w); congruence|].
      left. unfold hide. destruct (pageLoader w); [|congruence].
      now rewrite contains_after_add, String.eqb_refl, orb_true_r.
    + split; [exact Hp|]. destruct H as [H|[H1 H2]]; [now left | right].
      assert (Hlt : now w + ms < due).
      { destruct (Nat.lt_ge_cases (now w + ms) (due)) as [|Hge]; trivial.
        exfalso. assert (existsb (fun due => Nat.leb due (now w + ms)) (timers w) = true).
        { apply existsb_exists. exists (due). split; [exact H1|].
          now apply Nat.leb_le. }
        congruence. }
      split; [|exact Hlt]. apply filter_In. split; [exact H1|].
      now apply Nat.ltb_lt.
Qed.

Lemma loader_inv_run (due : nat) (trace : list Event) (w : World) :
  inv due w -> inv due (run trace w).
Proof.
  unfold run. revert w. induction trace as [|e trace IH]; intros w H; [exact H|].
  cbn [fold_left]. now apply IH, loader_inv_handle.
Qed.

(** Without a [load] event, and before any timer is due, nothing
    changes but the clock. *)
Lemma run_quiet (trace : list Event) :
  forall w,
    forallb (fun e => negb (is_load e)) trace = true ->
    Forall (fun due => now (run trace w) < due) (timers w) ->
    pageLoader (run trace w) = pageLoader w /\ timers (run trace w) = timers w.
Proof.
  unfold run. induction trace as [|e trace IH]; intros w Hq Hd; [now split|].
  cbn [forallb] in Hq. apply andb_prop in Hq as [He Hq].
  destruct e as [|ms]; [discriminate|]. cbn [fold_left handle] in *.
  assert (Hnow : forall tr w0, now w0 <= now (fold_left handle tr w0)).
  { clear. induction tr as [|e tr IH]; intros w0; [cbn; lia|].
    cbn [fold_left]. etransitivity; [|apply IH].
    destruct e; cbn; [unfold load; destruct (listening w0); cbn; lia | lia]. }
  assert (Hkeep : timers (elapse ms w) = timers w /\
                  pageLoader (elapse ms w) = pageLoader w).
  { unfold elapse. cbn [timers pageLoader].
    specialize (Hnow trace (elapse ms w)). cbn [elapse now] in Hnow.
    induction Hd as [|due q Hdue _ IHq]; [now split|].
    cbn [List.filter existsb].
    replace (Nat.ltb (now w + ms) due) with true
      by (symmetry; apply Nat.ltb_lt; lia).
    replace (Nat.leb due (now w + ms)) with false
      by (symmetry; apply Nat.leb_gt; lia).
    cbn [orb]. destruct IHq as [-> IHp]. split; [reflexivity | exact IHp]. }
  destruct Hkeep as [Ht Hp].
  destruct (IH (elapse ms w) Hq) as [H1 H2]; [now rewrite Ht|].
  now rewrite H1, H2, Ht, Hp.
Qed.

Lemma run_listening (trace : list Event) :
  forall w,
    listening w = true -> pageLoader w <> None ->
    listening (run trace w) = true /\ pageLoader (run trace w) <> None.
Proof.
  unfold run. induction trace as [|e trace IH]; intros w Hl Hp; [now split|].
  cbn [fold_left]. apply IH; destruct e as [|ms]; cbn [handle].
  - unfold load. now rewrite Hl.
  - exact Hl.
  - unfold load. now rewrite Hl.
  - unfold elapse, hide. cbn [pageLoader].
    destruct (existsb _ _); [|exact Hp].
    destruct (pageLoader w); congruence.
Qed.

End PageLoaderFacts.

Section PageLoaderClaims.
Import Js PageLoader PageLoaderSpec PageLoaderFacts.
Local Open Scope string_scope.

(** X9.  On a page with a loader, once 3000 milliseconds have passed
    since [init] the loader is hidden, whether or not the [load] event
    came.  And as long as it did not come and less than 3000 milliseconds
    have passed, the loader is as [init] found it. *)
Theorem loader_hides_within_three_seconds
    (w : World) (trace : list Event) :
  pageLoader w <> None ->
  timers w = [] ->
  (now w + 3000 <= now (run trace (init w)) ->
   hidden (run trace (init w)) = true) /\
  (forallb (fun e => negb (is_load e)) trace = true ->
   now (run trace (init w)) < now w + 3000 ->
   pageLoader (run trace (init w)) = pageLoader w).
Proof.
  intros Hp Ht.
  assert (Hi : init w = {| pageLoader := pageLoader w; listening := true;
                           timers := [now w + 3000]; now := now w |}).
  { unfold init. destruct (pageLoader w); [|congruence]. now rewrite Ht. }
  split.
  - intros Hlate.
    destruct (loader_inv_run (now w + 3000) trace (init w)) as [_ [H|[_ H]]]; [|exact H|lia].
    rewrite Hi. split; [exact Hp|]. right. cbn. split; [now left | lia].
  - intros Hq Hearly.
    destruct (run_quiet trace (init w) Hq) as [H _].
    + replace (timers (init w)) with [now w + 3000]
        by (rewrite Hi; reflexivity).
      repeat constructor. exact Hearly.
    + rewrite H, Hi. reflexivity.
Qed.

(** X22.  On a page with a loader, once the [load] event has come, the
    loader is hidden 300 milliseconds later at the latest, whatever
    happened before the event and whatever happens after it. *)
Theorem loader_hides_after_load
    (w : World) (before after : list Event) :
  pageLoader w <> None ->
  let w1 := run before (init w) in
  let w2 := run (Load :: after) w1 in
  now w1 + 300 <= now w2 ->
  hidden w2 = true.
Proof.
  intros Hp. cbn zeta. intros Hlate.
  assert (Hi : listening (init w) = true /\ pageLoader (init w) <> None).
  { unfold init. destruct (pageLoader w); [now split | congruence]. }
  destruct (run_listening before (init w)) as [Hl Hp1]; [apply Hi | apply Hi |].
  set (w1 := run before (init w)) in *.
  change (run (Load :: after) w1) with (run after (load w1)) in *.
  destruct (loader_inv_run (now w1 + 300) after (load w1)) as [_ [H|[_ H]]];
    [|exact H|].
  - unfold load. rewrite Hl. split; [exact Hp1|]. right. cbn [timers now].
    split; [apply in_or_app; right; now left | lia].
  - lia.
Qed.

Lemma loader_hides_after_load_witness :
  hidden (run [Load; Elapse 300]
            (run [Elapse 700]
               (init {| pageLoader := Some ["page-loader"]; listening := false;
                        timers := []; now := 0 |}))) = true.
Proof.
  apply (loader_hides_after_load
           {| pageLoader := Some ["page-loader"]; listening := false;
              timers := []; now := 0 |} [Elapse 700] [Elapse 300]).
  - discriminate.
  - vm_compute. lia.
Defined.

Lemma loader_hides_within_three_seconds_witness :
  hidden (run [Elapse 1200; Elapse 1800]
            (init {| pageLoader := Some ["page-loader"]; listening := false;
                     timers := []; now := 0 |})) = true /\
  pageLoader (run [Elapse 1200; Elapse 1700]
                (init {| pageLoader := Some ["page-loader"]; listening := false;
                         timers := []; now := 0 |})) = Some ["page-loader"].
Proof.
  split.
  - apply (proj1 (loader_hides_within_three_seconds
                    {| pageLoader := Some ["page-loader"]; listening := false;
                       timers := []; now := 0 |} [Elapse 1200; Elapse 1800]
                    ltac:(discriminate) eq_refl)).
    vm_compute. lia.
  - apply (proj2 (loader_hides_within_three_seconds
                    {| pageLoader := Some ["page-loader"]; listening := false;
                       timers := []; now := 0 |} [Elapse 1200; Elapse 1700]
                    ltac:(discriminate) eq_refl)); [reflexivity|].
    vm_compute. lia.
Defined.

End PageLoaderClaims.

Section ActiveNavLinkInstances.
Import Js ActiveNavLink ActiveNavLinkSpec Scenarios.
Local Open Scope string_scope.

Lemma active_link_is_last_section_witness :
  map active (onScroll 650 [about; projects] nav_links) = [false; true].
Proof.
  destruct (active_link_is_last_section 650 [about; projects] nav_links)
    as [_ H].
  destruct (H projects eq_refl) as (Ha & _). exact Ha.
Defined.

End ActiveNavLinkInstances.

(* ================================================================== *)
(** * ScrollAnimations: what a call of the observer changes *)
(* ================================================================== *)

Module ObserverFacts.
Import Js ScrollAnimations ScrollSpec ObserverSpec ScrollFacts.
Local Open Scope string_scope.
Local Open Scope list_scope.

Lemma classList_add_twice (t : string) (el : Element) :
  classList_add t (classList_add t el) = classList_add t el.
Proof.
  unfold classList_add at 1.
  now rewrite contains_add, String.eqb_refl, orb_true_r.
Qed.

Lemma handleEntry_elements (doc : Document) (e : Entry) :
  elements (handleEntry doc e)
  = if isIntersecting e
    then match elements doc !! target e with
         | Some el => <[target e := classList_add "is-visible" el]> (elements doc)
         | None => elements doc
         end
    else elements doc.
Proof.
  unfold handleEntry. destruct (isIntersecting e); [|reflexivity].
  destruct (elements doc !! target e) as [el|]; [|reflexivity].
  destruct (contains "timeline__item" _); [|reflexivity].
  now rewrite (proj1 (updateTimelineFill_spec _)).
Qed.

Lemma handleEntry_lookup (doc : Document) (e : Entry) (i : nat) :
  elements (handleEntry doc e) !! i = shown [e] i <$> elements doc !! i.
Proof.
  rewrite handleEntry_elements. unfold shown, reported. cbn [existsb].
  rewrite orb_false_r.
  destruct (isIntersecting e); cbn [andb].
  - destruct (Nat.eqb_spec (target e) i) as [->|Hne].
    + destruct (elements doc !! i) as [el|] eqn:Hi; cbn.
      * rewrite list_lookup_insert_eq; [reflexivity|].
        now apply lookup_lt_Some in Hi.
      * now rewrite Hi.
    + destruct (elements doc !! target e) as [el|].
      * rewrite list_lookup_insert_ne by exact Hne.
        now destruct (elements doc !! i).
      * now destruct (elements doc !! i).
  - now destruct (elements doc !! i).
Qed.

Lemma shown_cons (e : Entry) (entries : list Entry) (i : nat) (el : Element) :
  shown entries i (shown [e] i el) = shown (e :: entries) i el.
Proof.
  unfold shown, reported. cbn [existsb]. rewrite orb_false_r.
  destruct (isIntersecting e && Nat.eqb (target e) i); cbn [orb]; [|reflexivity].
  destruct (existsb _ entries); [apply classList_add_twice | reflexivity].
Qed.

Lemma handleIntersection_lookup (entries : list Entry) :
  forall (doc : Document) (i : nat),
    elements (handleIntersection entries doc) !! i
    = shown entries i <$> elements doc !! i.
Proof.
  unfold handleIntersection.
  induction entries as [|e entries IH]; intros doc i; cbn [fold_left].
  - now destruct (elements doc !! i).
  - rewrite IH, handleEntry_lookup.
    destruct (elements doc !! i) as [el|]; cbn; [|reflexivity].
    now rewrite shown_cons.
Qed.

Lemma handleIntersection_length (entries : list Entry) (doc : Document) :
  length (elements (handleIntersection entries doc)) = length (elements doc).
Proof.
  unfold handleIntersection. revert doc.
  induction entries as [|e entries IH]; intros doc; cbn [fold_left]; [reflexivity|].
  rewrite IH, handleEntry_elements.
  destruct (isIntersecting e); [|reflexivity].
  destruct (elements doc !! target e); [apply length_insert | reflexivity].
Qed.

Lemma handleIntersection_leaving (entries : list Entry) (doc : Document) :
  handleIntersection (List.filter isIntersecting entries) doc
  = handleIntersection entries doc.
Proof.
  unfold handleIntersection. revert doc.
  induction entries as [|e entries IH]; intros doc; [reflexivity|].
  cbn [List.filter fold_left]. destruct (isIntersecting e) eqn:He.
  - cbn [fold_left]. apply IH.
  - rewrite IH.
    assert (handleEntry doc e = doc) as ->
      by (unfold handleEntry; now rewrite He).
    reflexivity.
Qed.

Lemma reported_all (els : list Element) :
  forall k i,
    reported (all_intersecting k els) i
    = match els !! (i - k) with
      | Some el => Nat.leb k i && observed el
      | None => false
      end.
Proof.
  unfold reported.
  induction els as [|el els IH]; intros k i; [reflexivity|].
  cbn [all_intersecting]. rewrite existsb_app, IH.
  destruct (Nat.leb_spec k i) as [Hle|Hlt].
  - destruct (Nat.eq_dec i k) as [->|Hne].
    + rewrite Nat.sub_diag. cbn [lookup list_lookup].
      replace (els !! (k - S k)) with (els !! 0) by (f_equal; lia).
      replace (Nat.leb (S k) k) with false by (symmetry; apply Nat.leb_gt; lia).
      destruct (els !! 0); cbn [andb]; rewrite orb_false_r;
        destruct (observed el); cbn; now rewrite ?Nat.eqb_refl.
    + replace (i - k) with (S (i - S k)) by lia. cbn [lookup list_lookup].
      replace (Nat.leb (S k) i) with true by (symmetry; apply Nat.leb_le; lia).
      assert (E : existsb (fun e => isIntersecting e && Nat.eqb (target e) i)
                    (if observed el
                     then [{| target := k; isIntersecting := true |}] else [])
                  = false).
      { destruct (observed el); cbn; [|reflexivity].
        apply Nat.eqb_neq in Hne. rewrite Nat.eqb_sym in Hne. now rewrite Hne. }
      rewrite E. reflexivity.
  - replace (i - k) with 0 by lia. replace (i - S k) with 0 by lia.
    cbn [lookup list_lookup andb].
    replace (Nat.leb (S k) i) with false by (symmetry; apply Nat.leb_gt; lia).
    assert (E : existsb (fun e => isIntersecting e && Nat.eqb (target e) i)
                  (if observed el
                   then [{| target := k; isIntersecting := true |}] else [])
                = false).
    { destruct (observed el); cbn; [|reflexivity].
      replace (Nat.eqb k i) with false by (symmetry; apply Nat.eqb_neq; lia).
      reflexivity. }
    rewrite E. now destruct (els !! 0).
Qed.

Lemma showAll_counts (els : list Element) :
  length (List.filter is_item
            (map (fun el => if observed el
                            then classList_add "is-visible" el else el) els))
  = length (List.filter is_item els) /\
  length (List.filter (fun el => is_item el && is_visible el)
            (map (fun el => if observed el
                            then classList_add "is-visible" el else el) els))
  = length (List.filter is_item els).
Proof.
  induction els as [|el els [IH1 IH2]]; [now split|].
  cbn [map List.filter]. destruct (observed el) eqn:Ho.
  - rewrite is_item_add, is_visible_add, andb_true_r.
    destruct (is_item el); cbn [length]; now rewrite IH1, IH2.
  - assert (Hi : is_item el = false)
      by (unfold observed in Ho; apply orb_false_elim in Ho; apply Ho).
    rewrite Hi. cbn [andb]. now rewrite IH1, IH2.
Qed.

End ObserverFacts.

Section ObserverClaims.
Import Js ScrollAnimations ScrollSpec ObserverSpec ObserverFacts.
Local Open Scope string_scope.
Local Open Scope list_scope.

(** X10.  A call of the observer's callback changes the elements in one
    way only: an element is visible afterwards exactly when it was
    visible before or an entry of the call reports it as intersecting;
    every other class of every element is as before, and so is the
    number of elements.  Entries that report an element as not
    intersecting are ignored: nothing is ever hidden again. *)
Theorem observer_only_reveals
    (entries : list Entry) (doc : Document) (i : nat) (el : Element) :
  elements doc !! i = Some el ->
  let doc' := handleIntersection entries doc in
  (exists el',
     elements doc' !! i = Some el' /\
     is_visible el' = is_visible el || reported entries i /\
     forall t, t <> "is-visible" -> contains t el' = contains t el) /\
  length (elements doc') = length (elements doc) /\
  handleIntersection (List.filter isIntersecting entries) doc = doc'.
Proof.
  intros Hi. cbn zeta. split; [|split].
  - exists (shown entries i el). rewrite handleIntersection_lookup, Hi.
    split; [reflexivity|]. unfold shown. destruct (reported entries i).
    + split; [now rewrite ScrollFacts.is_visible_add, orb_true_r|].
      intros t Ht. rewrite ScrollFacts.contains_add.
      apply String.eqb_neq in Ht. now rewrite Ht, orb_false_r.
    + split; [now rewrite orb_false_r | reflexivity].
  - apply handleIntersection_length.
  - apply handleIntersection_leaving.
Qed.

(** X11.  [showAll], the path taken when reduced motion is preferred,
    leaves the elements of the page as the observer's callback would
    after one intersecting entry for every observed element; every
    timeline element is then visible, but the fill of the timeline line
    is not written. *)
Theorem showAll_reveals_without_fill (doc : Document) :
  elements (showAll doc)
  = elements (handleIntersection (all_intersecting 0 (elements doc)) doc) /\
  item_count (showAll doc) = item_count doc /\
  visible_count (showAll doc) = item_count doc /\
  timelineLineFill (showAll doc) = timelineLineFill doc.
Proof.
  split; [|split; [|split]].
  - apply list_eq. intros i.
    rewrite handleIntersection_lookup. unfold showAll. cbn [elements].
    rewrite list_lookup_fmap.
    destruct (elements doc !! i) as [el|] eqn:Hi; cbn; [|reflexivity].
    unfold shown. rewrite reported_all, Nat.sub_0_r, Hi. reflexivity.
  - apply (showAll_counts (elements doc)).
  - apply (showAll_counts (elements doc)).
  - reflexivity.
Qed.

End ObserverClaims.

Section ObserverInstances.
Import Js ScrollAnimations ScrollSpec ObserverSpec Samples.
Local Open Scope string_scope.

Lemma observer_only_reveals_witness :
  exists el',
    elements (handleIntersection [seen 1; gone 2] timeline_page) !! 1%nat
    = Some el' /\
    is_visible el' = true /\
    elements (handleIntersection [seen 1; gone 2] timeline_page) !! 2%nat
    = Some item.
Proof.
  destruct (observer_only_reveals [seen 1; gone 2] timeline_page 1 item eq_refl)
    as ((el' & E & V & _) & _).
  exists el'. split; [exact E|]. split; [exact V | reflexivity].
Defined.

End ObserverInstances.

(* ================================================================== *)
(** * ScrollAnimations: the fill over a page lifetime *)
(* ================================================================== *)

Section FillClaims.
Import Js ScrollAnimations ScrollSpec ObserverSpec NumberFacts ScrollFacts
  ObserverFacts Samples.
Local Open Scope string_scope.




End FillClaims.

(* ================================================================== *)
(** * RoleRotation: turn after turn *)
(* ================================================================== *)

Module CycleFacts.
Import Js RoleRotation RotationSpec CycleSpec RotationFacts.
Local Open Scope string_scope.
Local Open Scope list_scope.

Section WithConfig.
Variable cfg : Config.

Lemma run_stuck (n : nat) (st : State) :
  step cfg st = None -> run cfg n st = st.
Proof. intros H. destruct n; [reflexivity|]. cbn [run]. now rewrite H. Qed.

Lemma step_busy (st : State) :
  timers st <> [] \/ microtasks st <> [] -> step cfg st <> None.
Proof.
  unfold step. intros [H|H].
  - destruct (microtasks st); [|discriminate].
    destruct (timers st) as [|[due cb] q]; [contradiction | discriminate].
  - destruct (microtasks st); [contradiction | discriminate].
Qed.

Lemma enqueue_not_nil (due : nat) (cb : Callback) (q : list (nat * Callback)) :
  enqueue due cb q <> [].
Proof.
  destruct q as [|[d c] q]; cbn [enqueue]; [discriminate|].
  destruct (Nat.ltb due d); discriminate.
Qed.

Lemma typeRole_scheduled (st : State) (role : Role) :
  nth_error (roles cfg) (currentRoleIndex st) = Some role ->
  step cfg (typeRole cfg st) <> None.
Proof.
  intros Hrole. unfold typeRole. rewrite Hrole. unfold typeText, type.
  apply step_busy.
  destruct (Nat.ltb 0 (String.length (title role))).
  - left. unfold setTimeout. cbn [timers set_timers]. apply enqueue_not_nil.
  - right. unfold resolve. cbn [microtasks set_microtasks].
    destruct (microtasks _); discriminate.
Qed.

Lemma cycle_roles_length (k : nat) :
  forall i, i < length (roles cfg) -> length (cycle_roles cfg i k) = k.
Proof.
  induction k as [|k IH]; intros i Hi; [reflexivity|].
  cbn [cycle_roles]. destruct (nth_error (roles cfg) i) eqn:E.
  - cbn [length]. rewrite IH; [reflexivity|].
    apply Nat.mod_upper_bound. lia.
  - apply nth_error_None in E. lia.
Qed.

Lemma cycle_length_ge (rs : list Role) : length rs <= cycle_length rs.
Proof.
  unfold cycle_length. induction rs as [|r rs IH]; [reflexivity|].
  cbn [map length].
  change (list_sum ((turn_length r + 1) :: map (fun role => turn_length role + 1) rs))
    with (turn_length r + 1 + list_sum (map (fun role => turn_length role + 1) rs)).
  lia.
Qed.

(** [k] turns in a row. *)
Lemma turns (k : nat) :
  forall st,
    idle st -> currentRoleIndex st < length (roles cfg) ->
    exists st_k,
      run cfg (cycle_length (cycle_roles cfg (currentRoleIndex st) k))
          (typeRole cfg st)
      = typeRole cfg st_k /\
      idle st_k /\
      currentRoleIndex st_k = (currentRoleIndex st + k) mod length (roles cfg) /\
      log st_k = log st ++ cycle_events (cycle_roles cfg (currentRoleIndex st) k).
Proof.
  induction k as [|k IH]; intros st (Ht & Hm & Hf) Hi.
  - exists st. cbn. rewrite Nat.add_0_r, Nat.mod_small, app_nil_r by exact Hi.
    repeat split; assumption.
  - cbn [cycle_roles]. destruct (nth_error (roles cfg) (currentRoleIndex st))
      as [role|] eqn:Hrole; [|apply nth_error_None in Hrole; lia].
    unfold cycle_length, cycle_events. cbn [map concat].
    change (list_sum ((turn_length role + 1) :: ?l))
      with (turn_length role + 1 + list_sum l).
    destruct (one_turn cfg st role Ht Hm Hrole)
      as (Hlog & Hidx & Ht' & Hm' & Hf' & _).
    rewrite !run_plus. set (st' := run cfg (turn_length role) _) in *.
    assert (Hstep : step cfg st' = Some (typeRole cfg (set_frames [] st'))).
    { unfold step. now rewrite Hm', Ht', Hf', Hf. }
    cbn [run]. rewrite Hstep.
    destruct (IH (set_frames [] st')) as (st_k & R & I & X & L).
    { now repeat split. }
    { cbn [currentRoleIndex set_frames]. rewrite Hidx.
      apply Nat.mod_upper_bound. lia. }
    cbn [currentRoleIndex set_frames log] in R, X, L.
    rewrite Hidx in R, X, L.
    exists st_k. split; [exact R|]. split; [exact I|]. split.
    + rewrite X, Nat.Div0.add_mod_idemp_l. f_equal. lia.
    + rewrite L, Hlog. now rewrite <- app_assoc.
Qed.

End WithConfig.

End CycleFacts.

Section CycleClaims.
Import Js RoleRotation RotationSpec CycleSpec RotationFacts CycleFacts.
Local Open Scope string_scope.
Local Open Scope list_scope.

(** X12.  From a call of [typeRole] with nothing else scheduled, the
    rotation runs turn after turn through the roles in the order of the
    configuration, starting again at the first after the last: after the
    turns of the event loop that [k] turns of the rotation take, [typeRole]
    has just been called again, with nothing else scheduled, for the role
    [k] places further on (modulo the number of roles), and the events
    recorded are those of the [k] turns, one after the other. *)
Theorem rotation_goes_round
    (cfg : Config) (st : State) (k : nat) :
  idle st -> currentRoleIndex st < length (roles cfg) ->
  let rs := cycle_roles cfg (currentRoleIndex st) k in
  length rs = k /\
  exists st_k,
    run cfg (cycle_length rs) (typeRole cfg st) = typeRole cfg st_k /\
    idle st_k /\
    currentRoleIndex st_k = (currentRoleIndex st + k) mod length (roles cfg) /\
    log st_k = log st ++ cycle_events rs.
Proof.
  intros Hidle Hi. cbn zeta. split.
  - now apply cycle_roles_length.
  - now apply turns.
Qed.

(** X13.  The rotation does not end by itself: from a call of [typeRole]
    with nothing else scheduled and a role at the current index, the event
    loop has something to run after any number of turns. *)
Theorem rotation_never_ends
    (cfg : Config) (st : State) (n : nat) :
  idle st -> currentRoleIndex st < length (roles cfg) ->
  step cfg (run cfg n (typeRole cfg st)) <> None.
Proof.
  intros Hidle Hi Hstuck.
  destruct (turns cfg (S n) st Hidle Hi) as (st_k & R & _ & X & _).
  pose proof (cycle_roles_length cfg (S n) _ Hi) as Hlen.
  pose proof (cycle_length_ge (cycle_roles cfg (currentRoleIndex st) (S n))) as Hge.
  rewrite Hlen in Hge.
  replace (cycle_length _) with (n + (cycle_length (cycle_roles cfg (currentRoleIndex st) (S n)) - n))
    in R by lia.
  rewrite run_plus, (run_stuck cfg _ _ Hstuck) in R.
  rewrite R in Hstuck.
  assert (Hk : currentRoleIndex st_k < length (roles cfg)).
  { rewrite X. apply Nat.mod_upper_bound. lia. }
  destruct (nth_error (roles cfg) (currentRoleIndex st_k)) as [role|] eqn:Hrole;
    [|apply nth_error_None in Hrole; lia].
  exact (typeRole_scheduled cfg st_k role Hrole Hstuck).
Qed.

End CycleClaims.

Section CycleInstances.
Import Js RoleRotation RotationSpec CycleSpec Samples.
Local Open Scope string_scope.

Lemma rotation_goes_round_witness :
  exists st_k,
    run CONFIG (cycle_length (cycle_roles CONFIG 0 5))
        (typeRole CONFIG initial_state)
    = typeRole CONFIG st_k /\
    currentRoleIndex st_k = 1.
Proof.
  destruct (rotation_goes_round CONFIG initial_state 5)
    as (_ & st_k & R & _ & X & _).
  - repeat split.
  - cbn. lia.
  - exists st_k. split; [exact R | exact X].
Defined.

Lemma rotation_never_ends_witness :
  exists st',
    step CONFIG (run CONFIG 1000 (typeRole CONFIG initial_state)) = Some st'.
Proof.
  assert (H : step CONFIG (run CONFIG 1000 (typeRole CONFIG initial_state))
              <> None).
  { apply (rotation_never_ends CONFIG initial_state 1000);
      [repeat split | cbn; lia]. }
  revert H.
  generalize (step CONFIG (run CONFIG 1000 (typeRole CONFIG initial_state))).
  intros [st'|] H; [exists st'; reflexivity | contradiction].
Defined.

End CycleInstances.

(* ================================================================== *)
(** * RoleRotation: [destroy] *)
(* ================================================================== *)

Module DestroyFacts.
Import Js RoleRotation RotationSpec CycleSpec RotationFacts CycleFacts.
Local Open Scope string_scope.
Local Open Scope list_scope.

Section WithConfig.
Variable cfg : Config.

Lemma no_frame_compose (f g : State -> State) :
  no_frame f -> no_frame g -> no_frame (fun st => f (g st)).
Proof.
  intros Hf Hg st. destruct (Hf (g st)) as [-> ->]. apply Hg.
Qed.

Lemma no_frame_resolve (k : Kont) : no_frame (resolve k).
Proof. intros st. now destruct k. Qed.

Lemma no_frame_type (text : string) (i : nat) (k : Kont) :
  no_frame (type cfg text i k).
Proof.
  intros st. unfold type. destruct (Nat.ltb i (String.length text)).
  - now split.
  - now destruct (no_frame_resolve k (record (End typing) st)) as [-> ->].
Qed.

Lemma no_frame_deleteChar (k : Kont) : no_frame (deleteChar cfg k).
Proof.
  intros st. unfold deleteChar. cbn zeta.
  destruct (Nat.ltb 0 (String.length (roleText st))).
  - now split.
  - now destruct (no_frame_resolve k (record (End deleting) st)) as [-> ->].
Qed.

Lemma no_frame_appendTag (tag : string) (index count : nat) (k : Kont) :
  no_frame (appendTag tag index count k).
Proof.
  intros st. unfold appendTag. cbn zeta.
  destruct (Nat.eqb index (count - 1)).
  - match goal with |- context [resolve k ?s] =>
      now destruct (no_frame_resolve k s) as [-> ->] end.
  - now split.
Qed.

Lemma no_frame_forEach_tag (tags : list string) (count : nat) (k : Kont) :
  forall index, no_frame (forEach_tag tags index count k).
Proof.
  induction tags as [|tag rest IH]; intros index st; [now split|].
  cbn [forEach_tag]. now destruct (IH (S index) (setTimeout (tag_cb tag index count k) (index * 100) st)) as [-> ->].
Qed.

Lemma no_frame_showTags (tags : list string) (k : Kont) :
  no_frame (showTags tags k).
Proof.
  intros st. unfold showTags. cbn zeta.
  destruct (Nat.eqb (length tags) 0).
  - match goal with |- context [resolve k ?s] =>
      now destruct (no_frame_resolve k s) as [-> ->] end.
  - now destruct (no_frame_forEach_tag tags (length tags) k 0
                    (set_tagsContainer [] (record (Begin tagging) st)))
      as [-> ->].
Qed.

Lemma no_frame_typeRole : no_frame (typeRole cfg).
Proof.
  intros st. unfold typeRole.
  destruct (nth_error (roles cfg) (currentRoleIndex st)) as [role|]; [|now split].
  unfold typeText.
  now destruct (no_frame_type (title role) 0 (after_typeText role)
                  (set_roleText "" (record (Begin typing) (clearTags st))))
    as [-> ->].
Qed.

Lemma no_frame_fire (cb : Callback) : no_frame (fire cfg cb).
Proof.
  intros st. destruct cb; cbn [fire].
  - apply no_frame_type.
  - apply no_frame_deleteChar.
  - apply no_frame_appendTag.
  - now destruct (no_frame_resolve resolve0 (record (End pausing) st)) as [-> ->].
Qed.

(** A turn of the event loop takes no handle back, and leaves the frames
    alone unless it requests one or runs one. *)
Lemma step_frames (st st' : State) :
  step cfg st = Some st' ->
  nextId st <= nextId st' /\
  (nextId st' = nextId st -> frames st = [] -> frames st' = []).
Proof.
  unfold step. destruct (microtasks st) as [|k ks].
  - destruct (timers st) as [|[due cb] q].
    + destruct (frames st) as [|f fs]; [discriminate|].
      intros [= <-]. destruct (no_frame_typeRole (set_frames fs st)) as [_ ->].
      split; [reflexivity | discriminate].
    + intros [= <-].
      destruct (no_frame_fire cb (set_now (Nat.max (now st) due) (set_timers q st)))
        as [-> ->].
      cbn. split; [lia | auto].
    - intros [= <-]. destruct k; cbn [resume].
      + cbn. split; [lia | auto].
      + destruct (no_frame_showTags (tags role) after_showTags
                    (set_microtasks ks st)) as [-> ->].
        cbn. split; [lia | auto].
      + unfold wait. cbn. split; [lia | auto].
      + unfold deleteText.
        destruct (no_frame_deleteChar after_deleteText
                    (record (Begin deleting) (set_microtasks ks st))) as [-> ->].
        cbn. split; [lia | auto].
      + cbn. split; [lia | intros; lia].
Qed.

Lemma run_nextId (n : nat) :
  forall st, nextId st <= nextId (run cfg n st).
Proof.
  induction n as [|n IH]; intros st; [reflexivity|].
  cbn [run]. destruct (step cfg st) as [st'|] eqn:H; [|reflexivity].
  etransitivity; [apply (step_frames _ _ H) | apply IH].
Qed.

(** As long as no handle was given out, no frame is pending. *)
Lemma run_frames (m : nat) (st : State) :
  frames st = [] -> nextId (run cfg m st) = nextId st ->
  forall n, n <= m -> frames (run cfg n st) = [].
Proof.
  intros Hf Hm.
  assert (Hid : forall n, n <= m -> nextId (run cfg n st) = nextId st).
  { intros n Hn. apply Nat.le_antisymm; [|apply run_nextId].
    rewrite <- Hm.
    assert (E : run cfg m st = run cfg (m - n) (run cfg n st))
      by (rewrite <- run_plus; f_equal; lia).
    rewrite E. apply run_nextId. }
  induction n as [|n IH]; intros Hn; [exact Hf|].
  replace (S n) with (n + 1) by lia. rewrite run_plus. cbn [run].
  destruct (step cfg (run cfg n st)) as [st'|] eqn:H; [|apply IH; lia].
  apply (step_frames _ _ H); [|apply IH; lia].
  replace st' with (run cfg (S n) st).
  - rewrite !Hid; [reflexivity | lia | lia].
  - replace (S n) with (n + 1) by lia. rewrite run_plus. cbn [run].
    now rewrite H.
Qed.

(** The turn up to the resolution of the promise of [deleteText]. *)
Lemma turn_settles (st : State) (role : Role) :
  timers st = [] -> microtasks st = [] ->
  nth_error (roles cfg) (currentRoleIndex st) = Some role ->
  let st' := run cfg (turn_length role - 1) (typeRole cfg st) in
  settled after_deleteText (turn_events role) st st'.
Proof.
  intros Ht Hm Hrole. cbn zeta. unfold typeRole. rewrite Hrole.
  unfold typeText, turn_length, turn_events.
  set (L := String.length (title role)). set (T := length (tags role)).
  replace (2 * L + T + 5 - 1) with (L + (1 + (T + (1 + (1 + (1 + L))))))
    by lia.
  (* typing *)
  set (s0 := set_roleText "" (record (Begin typing) (clearTags st))).
  destruct (typing_runs cfg (title role) (after_typeText role) L 0 s0)
    as (S1 & R1 & _); [reflexivity | exact Ht | exact Hm |].
  unfold L in R1 at 2. rewrite StringFacts.substring_all in R1.
  change (roleText s0) with "" in R1. cbn [String.append] in R1.
  rewrite run_plus. set (s1 := run cfg L _) in *. clearbody s1.
  rewrite run_plus, (run_step cfg 0 _ _ (settled_step cfg _ _ _ _ S1 ltac:(discriminate))).
  cbn [run resume].
  (* tagging *)
  destruct S1 as (A1 & A2 & A3 & A4 & A5 & A7 & A6).
  change (frames s0) with (frames st) in A3.
  change (currentRoleIndex s0) with (currentRoleIndex st) in A4.
  change (nextId s0) with (nextId st) in A5.
  change (roleAnimationId s0) with (roleAnimationId st) in A7.
  change (log s0) with (log st ++ [Begin typing]) in A6.
  clearbody s0.
  destruct (tagging_runs cfg (tags role) after_showTags (set_microtasks [] s1))
    as (S2 & C2 & R2); [exact A1 | reflexivity |].
  change (length (tags role)) with T in S2, C2, R2.
  rewrite run_plus. set (s2 := run cfg T _) in *. clearbody s2.
  rewrite run_plus, (run_step cfg 0 _ _ (settled_step cfg _ _ _ _ S2 ltac:(discriminate))).
  cbn [run resume].
  (* pausing *)
  destruct S2 as (B1 & B2 & B3 & B4 & B5 & B7 & B6).
  cbn [frames currentRoleIndex nextId log roleText roleAnimationId set_microtasks]
    in B3, B4, B5, B6, B7, R2.
  destruct (pausing_runs cfg (pauseBetweenRoles cfg) after_wait (set_microtasks [] s2))
    as (S3 & C3 & R3); [exact B1 | reflexivity |].
  rewrite run_plus. set (s3 := run cfg 1 _) in *. clearbody s3.
  rewrite run_plus, (run_step cfg 0 _ _ (settled_step cfg _ _ _ _ S3 ltac:(discriminate))).
  cbn [run resume]. unfold deleteText.
  (* deleting *)
  destruct S3 as (D1 & D2 & D3 & D4 & D5 & D7 & D6).
  cbn [frames currentRoleIndex nextId log roleText tagsContainer roleAnimationId
       set_microtasks] in D3, D4, D5, D6, D7, R3, C3.
  destruct (deleting_runs cfg after_deleteText L
              (record (Begin deleting) (set_microtasks [] s3)))
    as (S4 & R4 & C4); [|exact D1 | reflexivity |].
  { change (String.length (roleText s3) = L). now rewrite R3, R2, R1. }
  set (s4 := run cfg L _) in *. clearbody s4.
  destruct S4 as (E1 & E2 & E3 & E4 & E5 & E7 & E6).
  cbn [frames currentRoleIndex nextId log roleText tagsContainer roleAnimationId
       set_microtasks record] in E3, E4, E5, E6, E7, C4.
  unfold settled.
  rewrite E6, D6, B6, A6, E4, D4, B4, A4, E3, D3, B3, A3, E5, D5, B5, A5,
    E7, D7, B7, A7, E1, E2.
  rewrite <- !app_assoc. cbn [app pending]. repeat split.
Qed.

Lemma destroy_no_frame (st : State) : frames st = [] -> destroy st = st.
Proof.
  intros H. unfold destroy. destruct (roleAnimationId st); [|reflexivity].
  rewrite H. destruct st. cbn in *. now subst.
Qed.

End WithConfig.

End DestroyFacts.

Section DestroyClaims.
Import Js RoleRotation RotationSpec CycleSpec RotationFacts CycleFacts DestroyFacts.
Local Open Scope string_scope.
Local Open Scope list_scope.

(** X14.  [destroy] stops the rotation only between two turns.  From a
    call of [typeRole] with nothing else scheduled: once the turn is over
    and the frame for the next one is requested, [destroy] cancels that
    frame and nothing is left to run, the rest of the state being as it
    was; but at any moment before that, [destroy] changes nothing, so the
    turn goes on and the next one is requested as if it had not been
    called.  (Handles of animation frames are positive, as the platform
    gives them out, so that the handle kept in [state] is truthy.) *)
Theorem destroy_stops_between_turns_only
    (cfg : Config) (st : State) (role : Role) (n : nat) :
  idle st -> 0 < nextId st ->
  nth_error (roles cfg) (currentRoleIndex st) = Some role ->
  n < turn_length role ->
  let during := run cfg n (typeRole cfg st) in
  let after := run cfg (turn_length role) (typeRole cfg st) in
  destroy during = during /\
  run cfg (turn_length role - n) (destroy during) = after /\
  step cfg after <> None /\
  step cfg (destroy after) = None /\
  destroy after = set_frames [] after.
Proof.
  intros (Ht & Hm & Hf) _ Hrole Hn. cbn zeta.
  destruct (turn_settles cfg st role Ht Hm Hrole)
    as (_ & _ & F & _ & I & _).
  destruct (one_turn cfg st role Ht Hm Hrole)
    as (_ & _ & Ht' & Hm' & Hf' & Hid & _).
  assert (Hduring : destroy (run cfg n (typeRole cfg st))
                    = run cfg n (typeRole cfg st)).
  { apply destroy_no_frame.
    apply (run_frames cfg (turn_length role - 1)).
    - now rewrite (proj1 (no_frame_typeRole cfg st)).
    - now rewrite I, (proj2 (no_frame_typeRole cfg st)).
    - lia. }
  split; [exact Hduring|]. split; [|split; [|split]].
  - rewrite Hduring, <- run_plus. f_equal. lia.
  - unfold step. rewrite Hm', Ht', Hf', Hf. discriminate.
  - unfold destroy. rewrite Hid, Hf', Hf. cbn [app List.filter].
    rewrite Nat.eqb_refl. cbn [negb].
    unfold step. cbn [microtasks timers frames set_frames].
    now rewrite Hm', Ht'.
  - unfold destroy. rewrite Hid, Hf', Hf. cbn [app List.filter].
    now rewrite Nat.eqb_refl.
Qed.

End DestroyClaims.

Section DestroyInstances.
Import Js RoleRotation RotationSpec CycleSpec Samples.
Local Open Scope string_scope.

Lemma destroy_stops_between_turns_only_witness :
  destroy (run CONFIG 20 (typeRole CONFIG initial_state))
  = run CONFIG 20 (typeRole CONFIG initial_state) /\
  step CONFIG
    (destroy (run CONFIG (turn_length traffic_engineer)
                (typeRole CONFIG initial_state)))
  = None.
Proof.
  destruct (destroy_stops_between_turns_only CONFIG initial_state
              traffic_engineer 20)
    as (H1 & _ & _ & H2 & _).
  - repeat split.
  - cbn. lia.
  - reflexivity.
  - vm_compute. lia.
  - split; [exact H1 | exact H2].
Defined.

End DestroyInstances.

(* ================================================================== *)
(** * DataLoader: what the two loaders leave on the page *)
(* ================================================================== *)

Section LoaderClaims.
Import Js DataLoader MarkupSpec LoaderSpec DataLoaderFacts.
Local Open Scope string_scope.



End LoaderClaims.

Section LoaderInstances.
Import Js DataLoader LoaderSpec Samples Scenarios.
Local Open Scope string_scope.



End LoaderInstances.

(* ================================================================== *)
(** * DataLoader: reading the cards back from the markup *)
(* ================================================================== *)

Module CardFacts.
Import Js DataLoader MarkupSpec CardSpec StringFacts MarkupFacts.
Local Open Scope string_scope.

Lemma count_as_texts (m c s : string) :
  count_occurrences m s = length (texts_between m c s).
Proof.
  induction s as [|a s IH]; cbn [count_occurrences texts_between].
  - destruct (occurs_at m ""); reflexivity.
  - rewrite length_app, IH. now destruct (occurs_at m (String a s)).
Qed.

(** A clean stretch of text holds no text to be read. *)
Lemma texts_skip_clean (m c l t : string) :
  clean m l = true -> texts_between m c (l ++ t) = texts_between m c t.
Proof.
  induction l as [|a l IH]; cbn [clean]; intros H; [reflexivity|].
  apply andb_prop in H as [H1 H2]. apply negb_true_iff in H1.
  change (String a l ++ t) with (String a (l ++ t)).
  cbn [texts_between].
  change (String a (l ++ t)) with (String a l ++ t).
  rewrite (incompatible_no_occurrence _ _ _ H1). cbn [app]. auto.
Qed.

Lemma skip_append (m t : string) : skip (String.length m) (m ++ t) = t.
Proof. induction m as [|a m IH]; [now destruct t | exact IH]. Qed.

Lemma texts_at_occurrence (a : ascii) (m c t : string) :
  clean (String a m) m = true ->
  texts_between (String a m) c (String a m ++ t)
  = text_until c t :: texts_between (String a m) c t.
Proof.
  intros H.
  change (String a m ++ t) with (String a (m ++ t)) at 1.
  cbn [texts_between].
  change (String a (m ++ t)) with (String a m ++ t).
  rewrite occurs_at_prefix, skip_append, (texts_skip_clean _ _ _ _ H).
  reflexivity.
Qed.

Lemma text_until_field (c f t : string) :
  clean c f = true -> text_until c (f ++ c ++ t) = f.
Proof.
  induction f as [|a f IH]; cbn [clean]; intros H.
  - change ("" ++ c ++ t) with (c ++ t).
    destruct (c ++ t) eqn:E; cbn [text_until];
      rewrite <- E, occurs_at_prefix; reflexivity.
  - apply andb_prop in H as [H1 H2]. apply negb_true_iff in H1.
    change (String a f ++ c ++ t) with (String a (f ++ c ++ t)).
    cbn [text_until].
    change (String a (f ++ c ++ t)) with (String a f ++ c ++ t).
    rewrite (incompatible_no_occurrence _ _ _ H1), (IH H2). reflexivity.
Qed.

Lemma marker_shape (m : string) : marker m -> exists m', m = String lt_char m'.
Proof. intros [-> | [-> | ->]]; eexists; vm_compute; reflexivity. Qed.

(** At the marker, the text up to [c] is read. *)
Lemma texts_at_marker (m c t : string) :
  marker m ->
  texts_between m c (m ++ t) = text_until c t :: texts_between m c t.
Proof.
  intros [-> | [-> | ->]].
  - apply (texts_at_occurrence "<" "article"). vm_compute. reflexivity.
  - refine (texts_at_occurrence _ _ c t _). vm_compute. reflexivity.
  - refine (texts_at_occurrence _ _ c t _). vm_compute. reflexivity.
Qed.

Lemma texts_skip_field (m c f t : string) :
  marker m -> free_of lt_char f = true ->
  texts_between m c (f ++ t) = texts_between m c t.
Proof.
  intros Hm Hf. apply texts_skip_clean.
  destruct (marker_shape m Hm) as [m' ->]. now apply free_of_clean.
Qed.

(** Skip a literal of the template, checked clean by computation. *)
Ltac skip_lit := rewrite texts_skip_clean by (vm_compute; reflexivity).

(** Split the literal in front at the marker in it. *)
Ltac split_lit m :=
  match goal with
  | |- context [texts_between m ?c (?L ++ ?t)] =>
      replace L with (text_until m L ++ m ++ text_after m L)
        by (vm_compute; reflexivity);
      rewrite !append_assoc
  end.

Lemma texts_skip_tags (m c : string) (tags : list string) (t : string) :
  marker m -> forallb (free_of lt_char) tags = true ->
  texts_between m c (join (map tagSpan tags) ++ t) = texts_between m c t.
Proof.
  intros Hm. induction tags as [|tag tags IH]; [reflexivity|].
  cbn [forallb map]. intros H. apply andb_prop in H as [Htag Htags].
  rewrite join_cons. unfold tagSpan at 1. rewrite !append_assoc.
  destruct Hm as [-> | [-> | ->]]; skip_lit;
    (rewrite texts_skip_field; [|unfold marker; auto|exact Htag]);
    skip_lit; apply IH; assumption.
Qed.

Lemma texts_skip_tagsBlock (m c : string) (project : Project.t) (t : string) :
  marker m -> forallb (free_of lt_char) (Project.tags project) = true ->
  texts_between m c (tagsBlock project ++ t) = texts_between m c t.
Proof.
  intros Hm H. unfold tagsBlock. destruct (Nat.ltb _ _); [|reflexivity].
  rewrite !append_assoc.
  pose proof (texts_skip_tags m c (Project.tags project)) as Htags.
  destruct Hm as [-> | [-> | ->]]; skip_lit;
    (rewrite Htags; [|unfold marker; auto|exact H]); skip_lit; reflexivity.
Qed.

Lemma texts_skip_imageBlock (m c : string) (project : Project.t) (t : string) :
  marker m ->
  free_of lt_char (Project.title project) = true ->
  free_of lt_char (text_of (Project.image project)) = true ->
  texts_between m c (imageBlock project ++ t) = texts_between m c t.
Proof.
  intros Hm Ht Hi. unfold imageBlock.
  pose proof (texts_skip_field m c) as Hf.
  destruct (truthy (Project.image project)).
  - rewrite !append_assoc.
    destruct Hm as [-> | [-> | ->]]; skip_lit;
      (rewrite Hf; [|unfold marker; auto|exact Hi]); skip_lit;
      (rewrite Hf; [|unfold marker; auto|exact Ht]); skip_lit; reflexivity.
  - destruct Hm as [-> | [-> | ->]]; skip_lit; reflexivity.
Qed.

Lemma texts_skip_link (m c : string) (link : option string) (before after t : string) :
  marker m ->
  clean m before = true -> clean m after = true ->
  free_of lt_char (text_of link) = true ->
  texts_between m c
    ((if truthy link then before ++ text_of link ++ after else "") ++ t)
  = texts_between m c t.
Proof.
  intros Hm Hb Ha Hl. destruct (truthy link); [|reflexivity].
  rewrite !append_assoc, (texts_skip_clean _ _ _ _ Hb).
  rewrite (texts_skip_field _ _ _ _ Hm Hl). now apply texts_skip_clean.
Qed.

Lemma texts_skip_linksBlock (m c : string) (project : Project.t) (t : string) :
  marker m ->
  free_of lt_char (text_of (Project.github (Project.links project))) = true ->
  free_of lt_char (text_of (Project.demo (Project.links project))) = true ->
  texts_between m c (linksBlock project ++ t) = texts_between m c t.
Proof.
  intros Hm Hg Hd. unfold linksBlock.
  destruct (negb (isComingSoon project) && _); [|reflexivity].
  rewrite !append_assoc. unfold demoLink, githubLink. cbn zeta.
  pose proof (texts_skip_link m c) as Hl.
  destruct Hm as [-> | [-> | ->]]; skip_lit;
    (rewrite Hl; [|unfold marker; auto|vm_compute; reflexivity
                  |vm_compute; reflexivity|exact Hd]);
    skip_lit;
    (rewrite Hl; [|unfold marker; auto|vm_compute; reflexivity
                  |vm_compute; reflexivity|exact Hg]);
    skip_lit; reflexivity.
Qed.

Lemma texts_skip_cardClass (m c : string) (project : Project.t) (t : string) :
  marker m ->
  texts_between m c (cardClass project ++ t) = texts_between m c t.
Proof.
  intros Hm. unfold cardClass.
  destruct (isComingSoon project); destruct Hm as [-> | [-> | ->]]; skip_lit;
    reflexivity.
Qed.

Ltac tidy_fields H :=
  unfold tidy, markup_free in H;
  apply andb_prop in H as [H ?]; apply andb_prop in H as [H ?];
  apply andb_prop in H as [H ?]; apply andb_prop in H as [H ?];
  apply andb_prop in H as [? ?].

(** A card opens once ... *)
Lemma card_opens_once (c : string) (project : Project.t) (t : string) :
  tidy project = true ->
  length (texts_between article_marker c (projectCard project ++ t))
  = S (length (texts_between article_marker c t)).
Proof.
  intros H. tidy_fields H.
  assert (Hm : marker article_marker) by (unfold marker; auto).
  unfold projectCard, cardHead, cardTail. rewrite !append_assoc.
  split_lit article_marker. skip_lit.
  rewrite (texts_at_marker _ _ _ Hm).
  cbn [length]. f_equal. skip_lit.
  rewrite (texts_skip_cardClass _ _ _ _ Hm). skip_lit.
  rewrite texts_skip_imageBlock by assumption. skip_lit.
  rewrite texts_skip_field by assumption. skip_lit.
  rewrite texts_skip_field by assumption. skip_lit.
  rewrite texts_skip_tagsBlock by assumption. skip_lit.
  rewrite texts_skip_linksBlock by assumption. skip_lit.
  reflexivity.
Qed.

(** ... and has one title, that of the project. *)
Lemma card_title (project : Project.t) (t : string) :
  tidy project = true ->
  card_titles (projectCard project ++ t)
  = Project.title project :: card_titles t.
Proof.
  intros H. tidy_fields H. unfold card_titles. fold title_marker.
  assert (Hm : marker title_marker) by (unfold marker; auto).
  unfold projectCard, cardHead, cardTail. rewrite !append_assoc.
  skip_lit.
  rewrite (texts_skip_cardClass _ _ _ _ Hm). skip_lit.
  rewrite texts_skip_imageBlock by assumption.
  split_lit title_marker. skip_lit.
  rewrite (texts_at_marker _ _ _ Hm).
  match goal with
  | |- context [text_after ?m ?L ++ ?r] => change (text_after m L ++ r) with r
  end.
  f_equal.
  - match goal with
    | |- context [text_until "</h3>" (_ ++ ?L ++ ?r)] =>
        replace L with ("</h3>" ++ text_after "</h3>" L)
          by (vm_compute; reflexivity)
    end.
    rewrite !append_assoc. apply text_until_field.
    now apply (free_of_clean lt_char "/h3>").
  - rewrite texts_skip_field by assumption. skip_lit.
    rewrite texts_skip_field by assumption. skip_lit.
    rewrite texts_skip_tagsBlock by assumption. skip_lit.
    rewrite texts_skip_linksBlock by assumption. skip_lit.
    reflexivity.
Qed.

(** *** The cards of the timeline *)

Lemma texts_skip_highlights (m c : string) (hs : list string) (t : string) :
  marker m -> forallb (free_of lt_char) hs = true ->
  texts_between m c (join (map highlightSpan hs) ++ t) = texts_between m c t.
Proof. exact (texts_skip_tags m c hs t). Qed.

Lemma texts_skip_highlightsBlock (m c : string) (item : Timeline.t) (t : string) :
  marker m ->
  match Timeline.highlights item with
  | Some hs => forallb (free_of lt_char) hs
  | None => true
  end = true ->
  texts_between m c (highlightsBlock item ++ t) = texts_between m c t.
Proof.
  intros Hm H. unfold highlightsBlock.
  destruct (Timeline.highlights item) as [hs|]; [|reflexivity].
  destruct (Nat.ltb _ _); [|reflexivity].
  rewrite !append_assoc.
  pose proof (texts_skip_highlights m c hs) as Hhs.
  destruct Hm as [-> | [-> | ->]]; skip_lit;
    (rewrite Hhs; [|unfold marker; auto|exact H]); skip_lit; reflexivity.
Qed.

Lemma texts_skip_descriptionBlock (m c : string) (item : Timeline.t) (t : string) :
  marker m ->
  free_of lt_char (text_of (Timeline.description item)) = true ->
  texts_between m c (descriptionBlock item ++ t) = texts_between m c t.
Proof.
  intros Hm H. unfold descriptionBlock.
  pose proof (texts_skip_field m c) as Hf.
  destruct (truthy (Timeline.description item)); [|reflexivity].
  rewrite !append_assoc.
  destruct Hm as [-> | [-> | ->]]; skip_lit;
    (rewrite Hf; [|unfold marker; auto|exact H]); skip_lit; reflexivity.
Qed.

Lemma entry_title (item : Timeline.t) (t : string) :
  tidy_entry item = true ->
  entry_titles (timelineCard item ++ t)
  = Timeline.title item :: entry_titles t.
Proof.
  intros H. unfold tidy_entry in H.
  apply andb_prop in H as [H Hh]. apply andb_prop in H as [H Hd].
  apply andb_prop in H as [H Hl]. apply andb_prop in H as [H Ho].
  apply andb_prop in H as [Hp Ht].
  unfold entry_titles.
  assert (Hm : marker entry_marker) by (unfold marker; auto).
  unfold timelineCard. cbn zeta. rewrite !append_assoc.
  skip_lit.
  destruct (Timeline.current item);
    destruct (String.eqb (Timeline.type item) "education");
    skip_lit; skip_lit;
    (rewrite texts_skip_field by assumption);
    skip_lit; skip_lit; skip_lit; skip_lit; skip_lit; skip_lit;
    split_lit entry_marker; skip_lit;
    rewrite (texts_at_marker _ _ _ Hm);
    match goal with
    | |- context [text_after ?m ?L ++ ?r] => change (text_after m L ++ r) with r
    end;
    (f_equal;
     [ match goal with
       | |- context [text_until "</h3>" (_ ++ ?L ++ ?r)] =>
           replace L with ("</h3>" ++ text_after "</h3>" L)
             by (vm_compute; reflexivity)
       end;
       rewrite !append_assoc; apply text_until_field;
       now apply (free_of_clean lt_char "/h3>")
     | rewrite texts_skip_field by assumption; skip_lit;
       rewrite texts_skip_field by assumption; skip_lit;
       rewrite texts_skip_field by assumption; skip_lit;
       rewrite texts_skip_descriptionBlock by assumption; skip_lit;
       rewrite texts_skip_highlightsBlock by assumption; skip_lit;
       reflexivity ]).
Qed.

Lemma entry_titles_join (entries : list Timeline.t) :
  forallb tidy_entry entries = true ->
  entry_titles (join (map timelineCard entries)) = map Timeline.title entries.
Proof.
  induction entries as [|item entries IH]; [reflexivity|].
  cbn [forallb map]. intros H. apply andb_prop in H as [Hi Hs].
  now rewrite join_cons, (entry_title _ _ Hi), (IH Hs).
Qed.

(** The cards of tidy projects, one after the other, read back as one
    card for each project, with its title. *)
Lemma project_cards_join (projects : list Project.t) :
  forallb tidy projects = true ->
  card_count (join (map projectCard projects)) = length projects /\
  card_titles (join (map projectCard projects)) = map Project.title projects.
Proof.
  unfold card_count. rewrite (count_as_texts _ "").
  induction projects as [|project projects IH]; [now split|].
  cbn [forallb map length]. intros H. apply andb_prop in H as [Hp Hps].
  destruct (IH Hps) as [IH1 IH2]. rewrite join_cons. split.
  - fold article_marker. rewrite (card_opens_once _ _ _ Hp).
    fold article_marker in IH1. now rewrite IH1.
  - now rewrite (card_title _ _ Hp), IH2.
Qed.

End CardFacts.

Section CardClaims.
Import Js DataLoader MarkupSpec CardSpec StringFacts MarkupFacts CardFacts.
Local Open Scope string_scope.

(** X17.  After [renderProjects] on projects whose texts contain no [<]
    (the template does not escape them), on a page with a projects
    container, the container reads back as one card for each project, in
    the order given, each with the title of its project. *)
Theorem cards_read_back
    (pg : Page) (projects : list Project.t) (old : string) :
  projectsGrid pg = Some old ->
  forallb tidy projects = true ->
  exists html,
    snd (renderProjects projects pg) = Normal tt /\
    projectsGrid (fst (renderProjects projects pg)) = Some html /\
    card_count html = length projects /\
    card_titles html = map Project.title projects.
Proof.
  intros Hg Htidy. unfold renderProjects, set_projectsGrid. rewrite Hg.
  cbn [fst snd projectsGrid]. eexists. split; [reflexivity|].
  split; [reflexivity|]. now apply project_cards_join.
Qed.

(** X18.  After [renderTimeline] on an array of entries whose texts
    contain no [<], the titles read back from the timeline container are
    the titles of the entries from the last to the first. *)
Theorem timeline_reads_back
    (pg : Page) (items : nat) (entries : list Timeline.t) (old : string) :
  heap pg !! items = Some entries ->
  timelineContainer pg = Some old ->
  forallb tidy_entry entries = true ->
  exists html,
    timelineContainer (fst (renderTimeline items pg)) = Some html /\
    entry_titles html = rev (map Timeline.title entries).
Proof.
  intros Hitems Hc Htidy.
  rewrite (DataLoaderFacts.renderTimeline_run _ _ _ Hitems).
  unfold set_timelineContainer. cbn [timelineContainer set_heap].
  rewrite Hc. cbn [fst timelineContainer]. eexists. split; [reflexivity|].
  rewrite entry_titles_join, map_rev; [reflexivity|].
  rewrite forallb_forall in *. intros item Hin. apply Htidy.
  now apply in_rev.
Qed.

End CardClaims.

Section CardInstances.
Import Js DataLoader MarkupSpec CardSpec Samples Scenarios.
Local Open Scope string_scope.

Lemma cards_read_back_witness :
  exists html,
    projectsGrid
      (fst (renderProjects
              [project "Fusion" true; project_with_links "coming-soon"]
              empty_page)) = Some html /\
    card_count html = 2 /\
    card_titles html = ["Fusion"; "Trajectory Fusion"].
Proof.
  destruct (cards_read_back empty_page
              [project "Fusion" true; project_with_links "coming-soon"] "")
    as (html & _ & E & N & T).
  - reflexivity.
  - vm_compute. reflexivity.
  - exists html. split; [exact E|]. split; [exact N | exact T].
Defined.

Lemma timeline_reads_back_witness :
  exists html,
    timelineContainer (fst (renderTimeline 0 career_page)) = Some html /\
    entry_titles html = ["Engineer"; "Assistant"; "Student"].
Proof.
  destruct (timeline_reads_back career_page 0 career "")
    as (html & E & T).
  - reflexivity.
  - reflexivity.
  - vm_compute. reflexivity.
  - exists html. split; [exact E | exact T].
Defined.

End CardInstances.

(* ================================================================== *)
(** * Decoder: the size and the range of what comes out *)
(* ================================================================== *)

Module DecoderOutputFacts.
Import Js Decoder DecoderSpec DecoderFacts.
Local Open Scope list_scope.

Lemma byte_of_lt (n shift : N) : (byte_of n shift < 256)%N.
Proof.
  unfold byte_of. change 255%N with (N.ones 8). rewrite N.land_ones.
  apply N.mod_lt. discriminate.
Qed.

Lemma bytes_four (a b c d : N) (rest : list N) :
  exists x y z,
    bytes_of_sextets (a :: b :: c :: d :: rest)
    = byte_of x 16 :: byte_of y 8 :: byte_of z 0 :: bytes_of_sextets rest.
Proof. do 3 eexists. reflexivity. Qed.

(** Three bytes for four sextets, and what is left over rounded down. *)
Lemma bytes_spec (n : nat) :
  forall vs : list N,
    length vs <= n ->
    length (bytes_of_sextets vs) = 3 * length vs / 4 /\
    Forall (fun c => (c < 256)%N) (bytes_of_sextets vs).
Proof.
  induction n as [|n IH]; intros vs Hn.
  - destruct vs as [|a vs]; [|cbn [length] in Hn; lia].
    split; [reflexivity | constructor].
  - destruct vs as [|a [|b [|c [|d rest]]]].
    + split; [reflexivity | constructor].
    + split; [reflexivity | constructor].
    + split; [reflexivity|]. repeat constructor. apply byte_of_lt.
    + split; [reflexivity|]. repeat constructor; apply byte_of_lt.
    + destruct (IH rest) as [Hlen Hall]; [cbn [length] in Hn; lia|].
      split.
      * rewrite bytes_length_four, Hlen. cbn [length].
        replace (3 * S (S (S (S (length rest)))))
          with (3 * length rest + 3 * 4) by lia.
        rewrite Nat.div_add by discriminate. lia.
      * destruct (bytes_four a b c d rest) as (x & y & z & ->).
        repeat (constructor; [apply byte_of_lt|]). exact Hall.
Qed.

Lemma strip_padding_valid (body padding : jsstring) :
  Forall in_alphabet body ->
  (padding = [] /\ length body mod 4 <> 1) \/
  (padding = [pad] /\ length body mod 4 = 3) \/
  (padding = [pad; pad] /\ length body mod 4 = 2) ->
  strip_padding (body ++ padding) = body /\ length body mod 4 <> 1.
Proof.
  intros Hb [[-> H]|[[-> H]|[-> H]]].
  - rewrite app_nil_r. split; [now apply strip_padding_body | exact H].
  - split; [now apply strip_padding_one | lia].
  - split; [now apply strip_padding_two | lia].
Qed.

End DecoderOutputFacts.

Section DecoderOutputClaims.
Import Js Decoder DecoderSpec DecoderFacts DecoderOutputFacts.
Local Open Scope list_scope.

(** X19.  [decode] returns its input or something strictly shorter. *)
Theorem decode_never_longer (s : jsstring) :
  decode s = s \/ length (decode s) < length s.
Proof.
  destruct (atob s) as [r|e] eqn:E.
  - rewrite (decode_valid _ _ E). unfold atob in E. cbn zeta in E.
    destruct (Nat.eqb _ 1); [discriminate|].
    destruct (sextets _) as [vs|] eqn:Hs; [|discriminate].
    injection E as <-. pose proof (sextets_length _ _ Hs) as Hlen.
    pose proof (strip_padding_length (strip_whitespace s)).
    pose proof (strip_whitespace_length s).
    destruct vs as [|v vs].
    + destruct s; [now left | right; cbn; lia].
    + right. pose proof (bytes_shorter (v :: vs) ltac:(discriminate)). lia.
  - left. unfold decode, decode_completion. now rewrite E.
Qed.

(** X20.  On valid Base64, that is alphabet characters [body] followed
    by the padding their number calls for or by none, white space set
    aside, [decode] yields bytes: code units below 256, three for every
    four characters of [body], rounded down. *)
Theorem decode_yields_bytes (s body padding : jsstring) :
  strip_whitespace s = body ++ padding ->
  Forall in_alphabet body ->
  (padding = [] /\ length body mod 4 <> 1) \/
  (padding = [pad] /\ length body mod 4 = 3) \/
  (padding = [pad; pad] /\ length body mod 4 = 2) ->
  length (decode s) = 3 * length body / 4 /\
  Forall (fun c => (c < 256)%N) (decode s).
Proof.
  intros Hs Hb Hp.
  destruct (strip_padding_valid body padding Hb Hp) as [Hstrip Hmod].
  destruct (proj2 (sextets_Some_iff body) Hb) as [vs Hvs].
  assert (E : atob s = Normal (bytes_of_sextets vs)).
  { unfold atob. cbn zeta. rewrite Hs, Hstrip, Hvs.
    destruct (Nat.eqb_spec (length body mod 4) 1); [contradiction | reflexivity]. }
  rewrite (decode_valid _ _ E), <- (sextets_length _ _ Hvs).
  apply (bytes_spec (length vs)). reflexivity.
Qed.

End DecoderOutputClaims.

Section DecoderOutputInstances.
Import Js Decoder.
Local Open Scope list_scope.

Lemma decode_yields_bytes_witness :
  length (decode (name CONTACT)) = 16 /\
  Forall (fun c => (c < 256)%N) (decode (name CONTACT)).
Proof.
  apply (decode_yields_bytes (name CONTACT)
           (code_units "U2ViYXN0aWFuIEdlcmtlbg") [pad; pad]).
  - vm_compute. reflexivity.
  - repeat (constructor; [vm_compute; discriminate|]). constructor.
  - right. right. split; [reflexivity | vm_compute; reflexivity].
Defined.

End DecoderOutputInstances.

(* ================================================================== *)
(** * RoleRotation: the clock *)
(* ================================================================== *)

Module TimingFacts.
Import Js RoleRotation RotationSpec CycleSpec TimingSpec RotationFacts.
Local Open Scope string_scope.
Local Open Scope list_scope.

Section WithConfig.
Variable cfg : Config.

Lemma now_resolve (k : Kont) (st : State) : now (resolve k st) = now st.
Proof. now destruct k. Qed.

(** *** Typing *)

Lemma type_tick_time (text : string) (k : Kont) (i : nat) (st : State) :
  i < String.length text -> timers st = [] -> microtasks st = [] ->
  exists st2,
    step cfg (type cfg text i k st) = Some (type cfg text (S i) k st2) /\
    timers st2 = [] /\ microtasks st2 = [] /\
    now st2 = now st + typeSpeed cfg.
Proof.
  intros Hi Ht Hm. unfold type at 1.
  replace (Nat.ltb i (String.length text)) with true
    by (symmetry; apply Nat.ltb_lt; lia).
  eexists. split.
  - erewrite step_timer;
      [ | exact Hm | unfold setTimeout; cbn; rewrite Ht; reflexivity].
    cbn [fire]. reflexivity.
  - cbn. repeat split; [exact Hm | lia].
Qed.

Lemma typing_time (text : string) (k : Kont) (n : nat) :
  forall (i : nat) (st : State),
    i + n = String.length text ->
    timers st = [] -> microtasks st = [] ->
    now (run cfg n (type cfg text i k st)) = now st + n * typeSpeed cfg.
Proof.
  induction n as [|n IH]; intros i st Hlen Ht Hm.
  - rewrite type_done by lia. cbn [run]. rewrite now_resolve. cbn. lia.
  - destruct (type_tick_time text k i st) as (st2 & Hstep & T1 & T2 & T3);
      [lia | exact Ht | exact Hm |].
    cbn [run]. rewrite Hstep, (IH (S i) st2), T3 by (lia || assumption).
    cbn [Nat.mul]. lia.
Qed.

(** *** Deleting *)

Lemma deleteChar_tick_time (k : Kont) (st : State) :
  0 < String.length (roleText st) -> timers st = [] -> microtasks st = [] ->
  exists st2,
    step cfg (deleteChar cfg k st) = Some (deleteChar cfg k st2) /\
    timers st2 = [] /\ microtasks st2 = [] /\
    roleText st2 = slice_last (roleText st) /\
    now st2 = now st + deleteSpeed cfg.
Proof.
  intros Hi Ht Hm. unfold deleteChar at 1. cbn zeta.
  replace (Nat.ltb 0 (String.length (roleText st))) with true
    by (symmetry; apply Nat.ltb_lt; lia).
  eexists. split.
  - erewrite step_timer;
      [ | exact Hm | unfold setTimeout; cbn; rewrite Ht; reflexivity].
    cbn [fire]. reflexivity.
  - cbn. repeat split; [exact Hm | lia].
Qed.

Lemma deleting_time (k : Kont) (n : nat) :
  forall st : State,
    String.length (roleText st) = n ->
    timers st = [] -> microtasks st = [] ->
    now (run cfg n (deleteChar cfg k st)) = now st + n * deleteSpeed cfg.
Proof.
  induction n as [|n IH]; intros st Hlen Ht Hm.
  - unfold deleteChar. rewrite Hlen. cbn [Nat.ltb Nat.leb run].
    rewrite now_resolve. cbn. lia.
  - destruct (deleteChar_tick_time k st) as (st2 & Hstep & T1 & T2 & T3 & T4);
      [lia | exact Ht | exact Hm |].
    cbn [run]. rewrite Hstep, (IH st2), T4; [cbn [Nat.mul]; lia | | exact T1 | exact T2].
    rewrite T3. unfold slice_last.
    rewrite StringFacts.length_substring; lia.
Qed.

(** *** Tagging *)

Lemma now_appendTag (tag : string) (index count : nat) (k : Kont) (st : State) :
  now (appendTag tag index count k st) = now st.
Proof.
  unfold appendTag. cbn zeta. destruct (Nat.eqb index (count - 1)); [|reflexivity].
  now rewrite now_resolve.
Qed.

Lemma tag_timers_time (count : nat) (k : Kont) (base : nat) (rest : list string) :
  forall (tag : string) (index : nat) (st : State),
    timers st = tag_timers base index count k (tag :: rest) ->
    microtasks st = [] ->
    index + S (length rest) = count ->
    now st <= base + index * 100 ->
    now (run cfg (S (length rest)) st) = base + (index + length rest) * 100.
Proof.
  induction rest as [|tag' rest IH]; intros tag index st Ht Hm Hc Hnow.
  - cbn [length run]. rewrite (step_timer _ _ _ _ _ Hm Ht). cbn [fire].
    rewrite now_appendTag. cbn [now set_now]. lia.
  - cbn [length]. rewrite (run_step _ _ _ _ (step_timer _ _ _ _ _ Hm Ht)).
    cbn [fire].
    unfold appendTag. replace (Nat.eqb index (count - 1)) with false
      by (symmetry; apply Nat.eqb_neq; cbn in Hc; lia).
    match goal with |- context [run cfg _ ?s] => set (st2 := s) end.
    rewrite (IH tag' (S index) st2);
      [lia | reflexivity | exact Hm | cbn in Hc |- *; lia |].
    unfold st2. cbn [now set_now record set_tagsContainer set_timers]. lia.
Qed.

Lemma tagging_time (tags : list string) (k : Kont) (st : State) :
  timers st = [] -> microtasks st = [] ->
  now (run cfg (length tags) (showTags tags k st))
  = now st + (length tags - 1) * 100.
Proof.
  intros Ht Hm. unfold showTags. destruct tags as [|tag rest].
  - cbn [length Nat.eqb run]. rewrite now_resolve. cbn. lia.
  - cbn [length Nat.eqb]. rewrite forEach_tag_timers
      by (cbn; rewrite Ht; constructor).
    match goal with |- context [run cfg _ ?s] => set (st1 := s) end.
    rewrite (tag_timers_time (S (length rest)) k (now st) rest tag 0 st1);
      [cbn; lia | unfold st1; cbn; now rewrite Ht | exact Hm | reflexivity
      | unfold st1; cbn; lia].
Qed.

(** *** Pausing *)

Lemma pausing_time (ms : nat) (k : Kont) (st : State) :
  timers st = [] -> microtasks st = [] ->
  now (run cfg 1 (wait ms k st)) = now st + ms.
Proof.
  intros Ht Hm. unfold wait.
  erewrite run_step;
    [ | erewrite step_timer;
        [reflexivity | exact Hm | unfold setTimeout; cbn; rewrite Ht; reflexivity]].
  cbn [run fire]. rewrite now_resolve. cbn. lia.
Qed.

Lemma now_typeRole (st : State) : now (typeRole cfg st) = now st.
Proof.
  unfold typeRole.
  destruct (nth_error _ _) as [role|]; [|reflexivity].
  unfold typeText, type.
  destruct (Nat.ltb 0 (String.length (title role))); [reflexivity|].
  now rewrite now_resolve.
Qed.

(** *** One turn, phase by phase *)

Lemma turn_clock (st : State) (role : Role) :
  timers st = [] -> microtasks st = [] ->
  nth_error (roles cfg) (currentRoleIndex st) = Some role ->
  now (run cfg (turn_length role) (typeRole cfg st))
  = now st + turn_time cfg role.
Proof.
  intros Ht Hm Hrole. unfold typeRole. rewrite Hrole.
  unfold typeText, turn_length, turn_time.
  set (L := String.length (title role)). set (T := length (tags role)).
  replace (2 * L + T + 5) with (L + (1 + (T + (1 + (1 + (1 + (L + 1)))))))
    by lia.
  (* typing *)
  set (s0 := set_roleText "" (record (Begin typing) (clearTags st))).
  destruct (typing_runs cfg (title role) (after_typeText role) L 0 s0)
    as (S1 & R1 & _); [reflexivity | exact Ht | exact Hm |].
  pose proof (typing_time (title role) (after_typeText role) L 0 s0
                eq_refl Ht Hm) as N1.
  change (now s0) with (now st) in N1.
  unfold L in R1 at 2. rewrite StringFacts.substring_all in R1.
  change (roleText s0) with "" in R1. cbn [String.append] in R1.
  rewrite run_plus. set (s1 := run cfg L _) in *. clearbody s1.
  rewrite run_plus, (run_step cfg 0 _ _ (settled_step cfg _ _ _ _ S1 ltac:(discriminate))).
  cbn [run resume].
  (* tagging *)
  destruct S1 as (A1 & _). clearbody s0.
  destruct (tagging_runs cfg (tags role) after_showTags (set_microtasks [] s1))
    as (S2 & C2 & R2); [exact A1 | reflexivity |].
  pose proof (tagging_time (tags role) after_showTags (set_microtasks [] s1)
                A1 eq_refl) as N2.
  change (length (tags role)) with T in S2, C2, R2, N2.
  rewrite run_plus. set (s2 := run cfg T _) in *. clearbody s2.
  rewrite run_plus, (run_step cfg 0 _ _ (settled_step cfg _ _ _ _ S2 ltac:(discriminate))).
  cbn [run resume].
  (* pausing *)
  destruct S2 as (B1 & _).
  cbn [roleText now set_microtasks] in R2, N2.
  destruct (pausing_runs cfg (pauseBetweenRoles cfg) after_wait (set_microtasks [] s2))
    as (S3 & C3 & R3); [exact B1 | reflexivity |].
  pose proof (pausing_time (pauseBetweenRoles cfg) after_wait
                (set_microtasks [] s2) B1 eq_refl) as N3.
  rewrite run_plus. set (s3 := run cfg 1 _) in *. clearbody s3.
  rewrite run_plus, (run_step cfg 0 _ _ (settled_step cfg _ _ _ _ S3 ltac:(discriminate))).
  cbn [run resume]. unfold deleteText.
  (* deleting *)
  destruct S3 as (D1 & _).
  cbn [roleText now set_microtasks] in R3, N3.
  assert (Hlen : String.length
                   (roleText (record (Begin deleting) (set_microtasks [] s3))) = L).
  { change (String.length (roleText s3) = L). now rewrite R3, R2, R1. }
  destruct (deleting_runs cfg after_deleteText L
              (record (Begin deleting) (set_microtasks [] s3)))
    as (S4 & _); [exact Hlen | exact D1 | reflexivity |].
  pose proof (deleting_time after_deleteText L
                (record (Begin deleting) (set_microtasks [] s3))
                Hlen D1 eq_refl) as N4.
  cbn [now record set_microtasks] in N4.
  rewrite run_plus. set (s4 := run cfg L _) in *. clearbody s4.
  rewrite (run_step cfg 0 _ _ (settled_step cfg _ _ _ _ S4 ltac:(discriminate))).
  cbn [run resume].
  unfold requestAnimationFrame, set_currentRoleIndex.
  cbn [now set_microtasks]. lia.
Qed.

End WithConfig.

End TimingFacts.

Section TimingClaims.
Import Js RoleRotation RotationSpec CycleSpec TimingSpec RotationFacts TimingFacts.
Local Open Scope string_scope.
Local Open Scope list_scope.

(** X21.  On the clock of the event loop, which runs every timer when
    it is due, a turn of the rotation takes [typeSpeed] for every
    character of the title, 100 milliseconds for every tag after the
    first, the pause, and [deleteSpeed] for every character of the title;
    the call of [typeRole] that starts the next turn takes no time. *)
Theorem turn_takes_its_time
    (cfg : Config) (st : State) (role : Role) :
  idle st ->
  nth_error (roles cfg) (currentRoleIndex st) = Some role ->
  let st' := run cfg (turn_length role) (typeRole cfg st) in
  now st' = now st + turn_time cfg role /\
  now (typeRole cfg (set_frames [] st')) = now st'.
Proof.
  intros (Ht & Hm & Hf) Hrole. cbn zeta. split.
  - now apply turn_clock.
  - now rewrite now_typeRole.
Qed.

End TimingClaims.

Section TimingInstances.
Import Js RoleRotation RotationSpec CycleSpec TimingSpec Samples.
Local Open Scope string_scope.

Lemma turn_takes_its_time_witness :
  now (run CONFIG (turn_length traffic_engineer)
         (typeRole CONFIG initial_state)) = 4480.
Proof.
  destruct (turn_takes_its_time CONFIG initial_state traffic_engineer)
    as [H _].
  - repeat split.
  - reflexivity.
  - exact H.
Defined.

End TimingInstances.

(* ================================================================== *)
(** * RoleRotation: the text on the way *)
(* ================================================================== *)

Module TypewriterFacts.
Import Js RoleRotation RotationSpec RotationFacts StringFacts.
Local Open Scope string_scope.

Lemma substring_one (text : string) (i : nat) :
  i < String.length text -> substring i 1 text = charAt i text.
Proof.
  intros H. rewrite <- (substring_next text i 0 H), substring_none.
  apply append_nil_r.
Qed.

Lemma substring_substring (t : string) :
  forall a b, a <= b -> substring 0 a (substring 0 b t) = substring 0 a t.
Proof.
  induction t as [|c t IH]; intros [|a] [|b] H; try reflexivity; [lia|].
  cbn [substring]. rewrite IH by lia. reflexivity.
Qed.

Section WithConfig.
Variable cfg : Config.

Lemma roleText_resolve (k : Kont) (st : State) :
  roleText (resolve k st) = roleText st.
Proof. now destruct k. Qed.

Lemma typing_text (text : string) (k : Kont) (n : nat) :
  forall (i : nat) (st : State),
    i + n <= String.length text ->
    timers st = [] -> microtasks st = [] ->
    roleText (run cfg n (type cfg text i k st))
    = roleText st
      ++ substring i (Nat.min (S n) (String.length text - i)) text.
Proof.
  induction n as [|n IH]; intros i st Hlen Ht Hm.
  - cbn [run]. unfold type.
    destruct (Nat.ltb_spec i (String.length text)) as [Hi|Hi].
    + replace (Nat.min 1 (String.length text - i)) with 1 by lia.
      rewrite (substring_one _ _ Hi). reflexivity.
    + replace (Nat.min 1 (String.length text - i)) with 0 by lia.
      now rewrite roleText_resolve, substring_none, append_nil_r.
  - assert (Hi : i < String.length text) by lia.
    destruct (type_tick cfg text k i st Hi Ht Hm)
      as (st2 & Hstep & T1 & T2 & _ & _ & _ & _ & _ & T7 & _).
    cbn [run]. rewrite Hstep, (IH (S i) st2) by (lia || assumption).
    rewrite T7, append_assoc.
    replace (Nat.min (S (S n)) (String.length text - i))
      with (S (Nat.min (S n) (String.length text - S i))) by lia.
    now rewrite (substring_next _ _ _ Hi).
Qed.

Lemma deleting_text (k : Kont) (n : nat) :
  forall st : State,
    n <= String.length (roleText st) ->
    timers st = [] -> microtasks st = [] ->
    roleText (run cfg n (deleteChar cfg k st))
    = substring 0
        (String.length (roleText st)
         - Nat.min (S n) (String.length (roleText st)))
        (roleText st).
Proof.
  induction n as [|n IH]; intros st Hlen Ht Hm.
  - cbn [run]. unfold deleteChar. cbn zeta.
    destruct (Nat.ltb_spec 0 (String.length (roleText st))) as [Hi|Hi].
    + replace (Nat.min 1 (String.length (roleText st))) with 1 by lia.
      reflexivity.
    + rewrite roleText_resolve. cbn [roleText record].
      rewrite (length_zero (roleText st)) by lia. reflexivity.
  - destruct (deleteChar_tick cfg k st)
      as (st2 & Hstep & T1 & T2 & _ & _ & _ & _ & _ & T7 & _);
      [lia | exact Ht | exact Hm |].
    assert (Hl2 : String.length (roleText st2)
                  = String.length (roleText st) - 1).
    { rewrite T7. unfold slice_last. apply length_substring. lia. }
    cbn [run]. rewrite Hstep, (IH st2) by (lia || assumption).
    rewrite Hl2, T7. unfold slice_last.
    rewrite substring_substring by lia. f_equal. lia.
Qed.

End WithConfig.

End TypewriterFacts.

Section TypewriterClaims.
Import Js RoleRotation RotationSpec TypewriterFacts.
Local Open Scope string_scope.

(** X23.  [typeText] shows the text growing by one character at a
    time: the first character at once, and after each of its timers one
    more, until the whole text stands.  [deleteText] takes the text shown
    back the same way: the last character goes at once, and one more after
    each timer, until nothing is left. *)
Theorem typewriter_shows_prefixes
    (cfg : Config) (text : string) (k : Kont) (st : State) (n : nat) :
  timers st = [] -> microtasks st = [] ->
  (n <= String.length text ->
   roleText (run cfg n (typeText cfg text k st))
   = substring 0 (Nat.min (S n) (String.length text)) text) /\
  (n <= String.length (roleText st) ->
   roleText (run cfg n (deleteText cfg k st))
   = substring 0
       (String.length (roleText st)
        - Nat.min (S n) (String.length (roleText st)))
       (roleText st)).
Proof.
  intros Ht Hm. split; intros Hn.
  - unfold typeText. rewrite typing_text by (cbn; lia || assumption).
    cbn [roleText set_roleText String.append]. now rewrite Nat.sub_0_r.
  - unfold deleteText.
    now rewrite deleting_text by (cbn; lia || assumption).
Qed.

End TypewriterClaims.

Section TypewriterInstances.
Import Js RoleRotation RotationSpec Samples.
Local Open Scope string_scope.

Lemma typewriter_shows_prefixes_witness :
  roleText (run CONFIG 6 (typeText CONFIG "Traffic Engineer" detached
                            initial_state)) = "Traffic" /\
  roleText (run CONFIG 8
              (deleteText CONFIG detached
                 (set_roleText "Traffic Engineer" initial_state))) = "Traffic".
Proof.
  destruct (typewriter_shows_prefixes CONFIG "Traffic Engineer" detached
              initial_state 6 eq_refl eq_refl) as [H1 _].
  destruct (typewriter_shows_prefixes CONFIG "Traffic Engineer" detached
              (set_roleText "Traffic Engineer" initial_state) 8
              eq_refl eq_refl) as [_ H2].
  split; [apply H1 | apply H2]; vm_compute; lia.
Defined.

End TypewriterInstances.
